(** * Event-based risk calculators of the OpenQuake engine

    Shallow embedding of
    - [openquake/calculators/event_based_risk.py]
      (the [event_based_risk] task and [EbrCalculator]) and
    - [openquake/commonlib/calculators/event_based_agg.py]
      (the [ebr] task and [EventBasedRiskCalculator]),
    with the properties of the aggregation and reduction engine.

    Conventions.
    - [numpy.float32] is IEEE-754 binary32 with round-to-nearest-even,
      taken from the standard library's [SpecFloat] ([prec = 24],
      [emax = 128]); Python floats and [numpy.float64] are binary64. The
      arrays that the calculators create are [F32]; the numbers that the
      collaborators hand over (loss ratios, asset values, [ses_ratio]) are
      taken as float32 as well.
    - A numpy array of shape [(E, R, K)] is a nested list; a tuple of index
      arrays (as returned by [nonzero()]) is a list of index triples. A
      reduction ([sum]) along the axis that is contiguous in memory adds the
      elements as numpy's pairwise summation does (in index order below 8
      elements); along another axis it adds them in index order. Values assigned
      through an index tuple are as many as the indices (the broadcasting
      of a single value is left out). The arrays that the collaborators
      hand over are in row-major order, as numpy creates them.
    - A Python [dict] is a [gmap]; a Python exception is the [Raise] branch
      of the error monad [res]; what a generator of a collaborator yields is
      a list. *)

From Stdlib Require Import ZArith SpecFloat.
From stdpp Require Import gmap strings list sorting.

(** ** Floating point *)

Module F32.
Definition prec : Z := 24.
Definition emax : Z := 128.
Definition t : Type := spec_float.

Definition zero : t := S754_zero false.
Definition add : t → t → t := SFadd prec emax.
Definition mul : t → t → t := SFmul prec emax.
Definition eqb : t → t → bool := SFeqb.
Definition ltb : t → t → bool := SFltb.
(** rounding of an integer literal *)
Definition of_Z (z : Z) : t := binary_normalize prec emax z 0 false.

(** [bool(x)], i.e. [x != 0]: a NaN is truthy, both zeros are falsy *)
Definition truthy (x : t) : bool := negb (eqb x zero).
(** [x > 0] *)
Definition gt0 (x : t) : bool := ltb zero x.
(** additions in index order, starting from 0 *)
Definition naive_sum (xs : list t) : t := foldl add zero xs.

(** the eight partial sums of a block, added as numpy's [pairwise_sum] does:
    [((r0 + r1) + (r2 + r3)) + ((r4 + r5) + (r6 + r7))] *)
Definition add8 (r : list t) : t :=
  match r with
  | [r0; r1; r2; r3; r4; r5; r6; r7] =>
      add (add (add r0 r1) (add r2 r3)) (add (add r4 r5) (add r6 r7))
  | _ => zero
  end.

(** a block of 8 to 128 elements: the first eight elements start the partial
    sums [r[0..7]], every further group of eight is added to them
    elementwise, and the elements that are left over are added, in order, to
    the sum of the partial sums *)
Definition block_sum (xs : list t) : t :=
  let n := length xs in
  let blocks := reshape (replicate (n / 8 - 1) 8) (drop 8 xs) in
  let r := foldl (zip_with add) (take 8 xs) blocks in
  foldl add (add8 r) (drop (n - n mod 8) xs).

(** numpy's [pairwise_sum] over a contiguous vector: fewer than 8 elements
    are added in order, up to 128 elements in one block, and a longer vector
    is split at [n / 2] rounded down to a multiple of 8. The fuel bounds the
    depth of the splitting; the length of the vector is enough. *)
Fixpoint pairwise_sum (fuel : nat) (xs : list t) : t :=
  let n := length xs in
  if decide (n < 8) then naive_sum xs
  else if decide (n ≤ 128) then block_sum xs
  else match fuel with
       | 0 => block_sum xs
       | S fuel =>
           let n2 := n / 2 - (n / 2) mod 8 in
           add (pairwise_sum fuel (take n2 xs)) (pairwise_sum fuel (drop n2 xs))
       end.

(** [a.sum()] of a vector, and [a.sum(axis)] along the axis that is
    contiguous in memory: the reduction starts from 0 and adds the pairwise
    sum of the elements *)
Definition sum (xs : list t) : t := add zero (pairwise_sum (length xs) xs).

Definition is_zero (x : t) : Prop := ∃ s, x = S754_zero s.
Definition neg_zero : t := S754_zero true.
(** finite numbers are those with a finite real value, zeros included *)
Definition is_finite (x : t) : bool :=
  match x with
  | S754_zero _ | S754_finite _ _ _ => true
  | _ => false
  end.
End F32.

Module F64.
Definition prec : Z := 53.
Definition emax : Z := 1024.
Definition t : Type := spec_float.
Definition mul : t → t → t := SFmul prec emax.
Definition eqb : t → t → bool := SFeqb.
Definition ltb : t → t → bool := SFltb.
Definition of_Z (z : Z) : t := binary_normalize prec emax z 0 false.
(** [x != y] on Python floats *)
Definition ne (x y : t) : bool := negb (eqb x y).
End F64.

(** ** Exceptions *)

Inductive exn :=
  | IndexError
  | KeyError
  | ValueError (msg : string)
  | AssertionError (msg : string)
  | AttributeError (msg : string)
  | TypeError (msg : string).

Inductive res (A : Type) :=
  | Ok (a : A)
  | Raise (e : exn).
Arguments Ok {A} a.
Arguments Raise {A} e.

#[global] Instance res_ret : MRet res := λ A a, Ok a.
#[global] Instance res_bind : MBind res :=
  λ A B f m, match m with Ok a => f a | Raise e => Raise e end.
#[global] Instance res_fmap : FMap res :=
  λ A B f m, match m with Ok a => Ok (f a) | Raise e => Raise e end.

(** [o] if present, else the exception [e] *)
Definition or_raise {A} (e : exn) (o : option A) : res A :=
  match o with Some a => Ok a | None => Raise e end.

(** a loop whose body may raise *)
Fixpoint foldM {A S} (f : S → A → res S) (s : S) (l : list A) : res S :=
  match l with
  | [] => Ok s
  | x :: l => s' ← f s x; foldM f s' l
  end.

Fixpoint traverse {A B} (f : A → res B) (l : list A) : res (list B) :=
  match l with
  | [] => Ok []
  | x :: l => y ← f x; ys ← traverse f l; Ok (y :: ys)
  end.

(** ** Dense float32 arrays of rank 3 *)

Abbreviation Arr3 := (list (list (list F32.t))).
Abbreviation Idx3 := (nat * nat * nat)%type.

(** [numpy.zeros((E, R, K), F32)] *)
Definition zeros3 (E R K : nat) : Arr3 :=
  replicate E (replicate R (replicate K F32.zero)).

(** [a[e, r, k]] and [a[e, r, k] = x], for arrays of floats and of objects *)
Definition get3 {A} (a : list (list (list A))) (p : Idx3) : option A :=
  let '(e, r, k) := p in
  plane ← a !! e; row ← plane !! r; row !! k.

Definition set3 {A} (a : list (list (list A))) (p : Idx3) (x : A)
    : list (list (list A)) :=
  let '(e, r, k) := p in alter (alter (<[k:=x]>) r) e a.

(** the array has shape [(E, R, K)] *)
Definition has_shape (E R K : nat) (a : Arr3) : Prop :=
  length a = E ∧
  Forall (λ plane, length plane = R ∧ Forall (λ row : list F32.t, length row = K) plane) a.

(** [a.nonzero()]: the positions of the truthy cells, in row-major order *)
Definition nonzero (a : Arr3) : list Idx3 :=
  mjoin (imap (λ e plane,
    mjoin (imap (λ r row,
      mjoin (imap (λ k x, if F32.truthy x then [(e, r, k)] else []) row))
      plane)) a).

(** [a[idx]] for an index tuple [idx] *)
Definition take3 (a : Arr3) (idx : list Idx3) : res (list F32.t) :=
  traverse (λ p, or_raise IndexError (get3 a p)) idx.

(** [a[idx] = vals] *)
Definition put3 (a : Arr3) (idx : list Idx3) (vals : list F32.t) : Arr3 :=
  foldl (λ acc pv, set3 acc pv.1 pv.2) a (zip idx vals).

(** [a[idx] += vals]: the cells are read, the sums are formed from the
    values read, and then written back in order (for a repeated index the
    last write wins); the values must be as many as the indices *)
Definition iadd_at (a : Arr3) (idx : list Idx3) (vals : list F32.t) : res Arr3 :=
  old ← take3 a idx;
  if decide (length vals = length idx)
  then Ok (put3 a idx (zip_with F32.add old vals))
  else Raise (ValueError "shape mismatch").

(** the value of a cell, for the positions inside the array *)
Definition cell (a : Arr3) (p : Idx3) : F32.t := default F32.zero (get3 a p).

(** the sparse form [(idx, a[idx])] with [idx = a.nonzero()] *)
Definition sparse (a : Arr3) : list Idx3 * list F32.t :=
  (nonzero a, cell a <$> nonzero a).

(** Well-formed cells: the exponent of a finite number is not below [emin]
    (rounding never yields less), and the number is not the negative zero *)
Definition above_emin (x : F32.t) : Prop :=
  match x with
  | S754_finite _ _ e => (emin F32.prec F32.emax ≤ e)%Z
  | _ => True
  end.

Definition cell_ok (x : F32.t) : Prop := x ≠ F32.neg_zero ∧ above_emin x.

Definition no_neg_zero (a : Arr3) : Prop := ∀ p, get3 a p ≠ Some F32.neg_zero.

Definition wf3 (E R K : nat) (a : Arr3) : Prop :=
  has_shape E R K a ∧ ∀ p x, get3 a p = Some x → cell_ok x.

(** ** The event loss table *)

(** A record of dtype [[('eid', U64), ('rlzi', U16), ('loss', (F32, (L*I,)))]] *)
Record elt_rec := { eid : N; rlzi : N; loss : list F32.t }.

(** a Python integer stored in a [U16] field *)
Definition U16 (n : nat) : N := (N.of_nat n mod 65536)%N.

(** [enumerate(l)] *)
Definition enumerate {A} (l : list A) : list (nat * A) := imap pair l.

(** The generator of [EbrCalculator.post_execute]:
    [((e, r, loss) for e, losses in zip(self.eids, self.agglosses)
                   for r, loss in enumerate(losses) if loss.sum())] *)
Definition losses_by_event (eids : list N) (agglosses : Arr3) : list elt_rec :=
  el ← zip eids agglosses;
  rl ← enumerate el.2;
  if F32.truthy (F32.sum rl.2)
  then [{| eid := el.1; rlzi := U16 rl.1; loss := rl.2 |}]
  else [].

(** the ascending order of [(eid, rlzi)] *)
Definition elt_lt (r1 r2 : elt_rec) : Prop :=
  (eid r1 < eid r2 ∨ (eid r1 = eid r2 ∧ rlzi r1 < rlzi r2))%N.

(** ** The [event_based_risk] task *)

(** Conversion of a float32 to a float64 (exact) *)
Definition F64_of_F32 (x : F32.t) : F64.t :=
  match x with
  | S754_finite s m e =>
      binary_normalize F64.prec F64.emax (cond_Zopp s (Zpos m)) e s
  | _ => x
  end.

Definition F64_add : F64.t → F64.t → F64.t := SFadd F64.prec F64.emax.

(** An asset: its ordinal in the asset collection and [asset.value(loss_type)] *)
Record Asset := { ordinal : nat; value : string → F32.t }.

(** One output of [riskmodel.gen_outputs]: iterating over it yields, per loss
    type index [l], either [None] (GMFs below the minimum intensity) or an
    array of loss ratios of shape [(A, E, I)] *)
Record Output := {
  out_eids : list N;
  out_rlzi : nat;
  out_assets : list Asset;
  out_ratios : list (option (list (list (list F32.t))))
}.

Record HazardGetter := {
  hg_eids : list N;
  eid2idx : gmap N nat;
  num_rlzs : nat
}.

Record RiskInput := {
  aids : list nat;
  hazard_getter : HazardGetter;
  by_site : bool
}.

Record RiskModel := {
  lti : gmap string nat;
  loss_types : list string
}.

(** The loss curve builder, a collaborator: only the shapes it fixes and its
    [build_curve] method are used by the task's loop *)
Record Builder := {
  weights : list F32.t;
  return_periods : list F32.t;
  loss_dt : list string;
  build_curve : F32.t → list F32.t → nat → list F32.t
}.

Record Param := {
  insured_losses : bool;
  avg_losses : bool;
  ses_ratio : F32.t;
  builder : option Builder
}.

(** A value of the [AccumDict] [avg]: a copy of its [accum], which is a dict
    [{}] or the array [numpy.zeros(A, F64)] *)
Inductive AvgAcc :=
  | AccDict (d : gmap nat F32.t)
  | AccArr (a : list F64.t).

(** [all_curves]: an array of shape [(A, R, P)] of records with one field per
    name of [builder.loss_dt]; cell [(idx, r)] maps a field to its [P] values *)
Abbreviation AllCurves := (list (list (gmap string (list F32.t)))).

Definition zero_curves (A R P : nat) (names : list string) : AllCurves :=
  replicate A (replicate R
    (list_to_map ((λ n, (n, replicate P F32.zero)) <$> names))).

(** the accumulators of the task's loop *)
Record TaskState := {
  agg : Arr3;
  avg : gmap (nat * nat) AvgAcc;
  all_curves : option AllCurves
}.

(** [I = param['insured_losses'] + 1] *)
Definition num_I (param : Param) : nat :=
  (if insured_losses param then 1 else 0) + 1.

(** [L = len(riskmodel.lti)] *)
Definition num_L (riskmodel : RiskModel) : nat := size (lti riskmodel).

(** [s * i] for a string [s] *)
Fixpoint str_times (s : string) (i : nat) : string :=
  match i with
  | 0 => ""
  | S i => s +:+ str_times s i
  end.

(** [m[:, i]] of a matrix *)
Definition column (m : list (list F32.t)) (i : nat) : res (list F32.t) :=
  traverse (λ row : list F32.t, or_raise IndexError (row !! i)) m.

(** [m.sum(axis=0)] of a matrix of shape [(E, ncols)] in row-major order.
    numpy sums pairwise only along the axis that is the fast one in memory:
    with several columns the axis of the reduction is not that one and the
    rows are added up in order, starting from zeros; with one column the
    matrix is a contiguous vector of [E] elements, which is summed
    pairwise. *)
Definition sum_axis0 (ncols : nat) (m : list (list F32.t)) : list F32.t :=
  if decide (ncols = 1)
  then match column m 0 with Ok col => [F32.sum col] | Raise _ => [] end
  else foldl (zip_with F32.add) (replicate ncols F32.zero) m.

(** [accum] of [avg] *)
Definition avg_accum (ri : RiskInput) (param : Param) : AvgAcc :=
  if by_site ri || negb (avg_losses param)
  then AccDict ∅
  else AccArr (replicate (length (aids ri)) (S754_zero false)).

(** [avg[key]]: a missing key is first bound to a copy of [accum] *)
Definition avg_get (accum : AvgAcc) (avg : gmap (nat * nat) AvgAcc)
    (key : nat * nat) : AvgAcc :=
  default accum (avg !! key).

(** [try: lba[aid] += x except KeyError: lba[aid] = x] *)
Definition lba_add (lba : AvgAcc) (aid : nat) (x : F32.t) : res AvgAcc :=
  match lba with
  | AccDict d =>
      match d !! aid with
      | Some y => Ok (AccDict (<[aid := F32.add y x]> d))
      | None => Ok (AccDict (<[aid := x]> d))
      end
  | AccArr a =>
      y ← or_raise IndexError (a !! aid);
      Ok (AccArr (<[aid := F64_add y (F64_of_F32 x)]> a))
  end.

(** [lba[aid]], if there is such an entry *)
Definition acc_get (lba : AvgAcc) (aid : nat) : option spec_float :=
  match lba with
  | AccDict d => d !! aid
  | AccArr a => a !! aid
  end.

(** [y + x] as [lba[aid] += x] computes it *)
Definition acc_plus (lba : AvgAcc) (y : spec_float) (x : F32.t) : spec_float :=
  match lba with
  | AccDict _ => F32.add y x
  | AccArr _ => F64_add y (F64_of_F32 x)
  end.

(** [all_curves[idx, r][lt] = curve] *)
Definition set_curve (P : nat) (ac : AllCurves) (idx r : nat) (lt : string)
    (curve : list F32.t) : res AllCurves :=
  row ← or_raise IndexError (ac !! idx);
  cell ← or_raise IndexError (row !! r);
  if decide (is_Some (cell !! lt) ∧ length curve = P)
  then Ok (<[idx := <[r := <[lt := curve]> cell]> row]> ac)
  else Raise (ValueError "could not assign the curve").

Section task.
Context (riskinput : RiskInput) (riskmodel : RiskModel) (param : Param).

Local Abbreviation I := (num_I param).
Local Abbreviation L := (num_L riskmodel).

(** [aid2idx = {aid: idx for idx, aid in enumerate(riskinput.aids)}] *)
Definition aid2idx : gmap nat nat :=
  list_to_map (reverse ((λ p : nat * nat, (p.2, p.1)) <$> enumerate (aids riskinput))).

(** the curves of one asset: [for i in range(I): all_curves[idx, r][lt] = ...] *)
Definition curves_step (b : Builder) (r : nat) (loss_type : string)
    (aid : nat) (aval : F32.t) (ratios : list (list F32.t))
    (ac : AllCurves) : res AllCurves :=
  idx ← or_raise KeyError (aid2idx !! aid);
  foldM (λ ac i,
    col ← column ratios i;
    set_curve (length (return_periods b)) ac idx r
      (loss_type +:+ str_times "_ins" i) (build_curve b aval col r))
    ac (seq 0 I).

(** the average losses of one asset *)
Definition avg_step (l r aid : nat) (ratios : list (list F32.t))
    (avg : gmap (nat * nat) AvgAcc) : res (gmap (nat * nat) AvgAcc) :=
  let rat := (λ s, F32.mul s (ses_ratio param)) <$> sum_axis0 I ratios in
  foldM (λ avg i,
    let lba := avg_get (avg_accum riskinput param) avg (l + L * i, r) in
    x ← or_raise IndexError (rat !! i);
    lba' ← lba_add lba aid x;
    Ok (<[(l + L * i, r) := lba']> avg))
    avg (seq 0 I).

(** the aggregate losses of one asset:
    [for i in range(I): agg[indices, r, l + L * i] += losses[:, i]] *)
Definition agg_step (l r : nat) (indices : list nat)
    (losses : list (list F32.t)) (agg : Arr3) : res Arr3 :=
  foldM (λ agg i,
    col ← column losses i;
    iadd_at agg ((λ e, (e, r, l + L * i)) <$> indices) col)
    agg (seq 0 I).

(** the body of [for a, asset in enumerate(out.assets)] *)
Definition asset_step (l r : nat) (loss_type : string) (indices : list nat)
    (loss_ratios : list (list (list F32.t))) (st : TaskState)
    (aa : nat * Asset) : res TaskState :=
  ratios ← or_raise IndexError (loss_ratios !! aa.1);
  let aid := ordinal aa.2 in
  let aval := value aa.2 loss_type in
  let losses : list (list F32.t) :=
    (λ row : list F32.t, F32.mul aval <$> row) <$> (ratios : list (list F32.t)) in
  ac ← match builder param, all_curves st with
       | Some b, Some ac => Some <$> (curves_step b r loss_type aid aval ratios ac)
       | _, _ => Ok (all_curves st)
       end;
  avg' ← (if avg_losses param then avg_step l r aid ratios (avg st)
          else Ok (avg st));
  agg' ← agg_step l r indices losses (agg st);
  Ok {| agg := agg'; avg := avg'; all_curves := ac |}.

(** the body of [for l, loss_ratios in enumerate(out)] *)
Definition loss_type_step (out : Output) (st : TaskState)
    (lr : nat * option (list (list (list F32.t)))) : res TaskState :=
  match lr.2 with
  | None => Ok st
  | Some loss_ratios =>
      loss_type ← or_raise IndexError (loss_types riskmodel !! lr.1);
      indices ← traverse
        (λ eid, or_raise KeyError (eid2idx (hazard_getter riskinput) !! eid))
        (out_eids out);
      foldM (asset_step lr.1 (out_rlzi out) loss_type indices loss_ratios)
        st (enumerate (out_assets out))
  end.

(** the body of [for out in riskmodel.gen_outputs(riskinput, monitor)] *)
Definition output_step (st : TaskState) (out : Output) : res TaskState :=
  if decide (length (out_eids out) = 0) then Ok st
  else foldM (loss_type_step out) st (enumerate (out_ratios out)).

Definition task_init : TaskState :=
  {| agg := zeros3 (length (hg_eids (hazard_getter riskinput)))
              (num_rlzs (hazard_getter riskinput)) (L * I);
     avg := ∅;
     all_curves :=
       (λ b, zero_curves (length (aids riskinput)) (length (weights b))
               (length (return_periods b)) (loss_dt b)) <$> builder param |}.

(** The result dictionary; [outputs] is what [riskmodel.gen_outputs] yields.
    The curve buffer is returned as it is, the task hands it to
    [builder.pair] and [builder.build_maps] *)
Record Result := {
  res_aids : list nat;
  res_agglosses : list Idx3 * list F32.t;
  res_avglosses : gmap (nat * nat) AvgAcc;
  res_curves : option AllCurves
}.

(** the loop over the outputs, which leaves the dense array [agg] *)
Definition task_loop (outputs : list Output) : res TaskState :=
  foldM output_step task_init outputs.

Definition event_based_risk (outputs : list Output) : res Result :=
  st ← task_loop outputs;
  let idx := nonzero (agg st) in
  vals ← take3 (agg st) idx;
  Ok {| res_aids := aids riskinput;
        res_agglosses := (idx, vals);
        res_avglosses := avg st;
        res_curves := all_curves st |}.
End task.

(** ** [EbrCalculator] *)

Inductive level := INFO | WARN.

(** The datasets of a datastore that the calculator reads or writes; what a
    collaborator stores is opaque *)
Inductive Dataset :=
  | Events (rows : list (N * N))
  | Ruptures (serials : list N)
  | LossesByEvent (recs : list elt_rec)
  | Table (t : list (list F32.t))
  | Opaque (payload : list (list (list F32.t))).

Record OqParam := {
  oq_inputs : gset string;
  hazard_calculation_id : option nat;
  investigation_time : F64.t;
  minimum_intensity : gmap string F64.t;
  ses_per_logic_tree_path : Z;
  oq_insured_losses : bool;
  oq_avg_losses : bool;
  oq_ses_ratio : F32.t;
  oq_return_periods : list Z;
  (** [oq.loss_dt().names] *)
  oq_loss_dt : list string
}.

(** a datastore of a hazard calculation *)
Record Hazard := {
  hz_calc_id : nat;
  hz_oqparam : OqParam;
  hz_events_eid : list N
}.

(** What the base class and the collaborators provide to [pre_execute]:
    the risk model, the asset collection ([A] assets and [assetcol.values()]),
    the number of realizations, the parent datastore opened for
    [hazard_calculation_id], the calculator's own events (for a GMF file),
    the datastore left by the [event_based] pre-calculator,
    [get_loss_builder], and the datasets that the calculator's datastore
    (with its parent) holds when the base class is done *)
Record Env := {
  env_riskmodel : RiskModel;
  env_A : nat;
  env_values : gmap string (list F32.t);
  env_R : nat;
  env_parent : Hazard;
  env_events : list N;
  env_ebcalc : Hazard;
  env_loss_builder : Hazard → Builder;
  env_datastore : gmap string Dataset
}.

Record Calc := {
  oqparam : OqParam;
  riskmodel_ : RiskModel;
  vals : gmap string (list F32.t);
  param_ : Param;
  c_A : nat;
  c_R : nat;
  c_eids : list N;
  c_E : nat;
  (** the arguments [(A, E)] given to [make_epsilon_getter] *)
  c_eps_shape : nat * nat;
  c_agglosses : Arr3;
  c_dset : option Arr3;
  c_taskno : nat;
  datastore : gmap string Dataset;
  c_log : list (level * string)
}.

(** [d1 != d2] for two dicts of floats *)
Definition dict_ne (d1 d2 : gmap string F64.t) : bool :=
  negb (bool_decide (dom d1 = dom d2) &&
        bool_decide (map_Forall
          (λ k v, from_option (F64.eqb v) false (d2 !! k) = true) d1)).

(** [sorted(eids)] *)
Definition py_sorted (l : list N) : list N := merge_sort N.le l.

(** the truth value of [oq.hazard_calculation_id]: [None] and 0 are false *)
Definition hc_given (oq : OqParam) : bool :=
  match hazard_calculation_id oq with
  | Some (S _) => true
  | Some 0 | None => false
  end.

(** the parent of the three branches of [pre_execute]: [None] is [()] *)
Definition find_parent (oq : OqParam) (env : Env) : res (option Hazard) :=
  if decide ("gmfs" ∈ oq_inputs oq) then
    if hc_given oq
    then Raise (AssertionError "You cannot use --hc together with gmfs_file")
    else Ok None
  else if hc_given oq then
    let oqp := hz_oqparam (env_parent env) in
    if F64.ne (investigation_time oqp) (investigation_time oq)
    then Raise (ValueError "The parent calculation was using investigation_time")
    else if dict_ne (minimum_intensity oqp) (minimum_intensity oq)
    then Raise (ValueError "The parent calculation was using minimum_intensity")
    else Ok (Some (env_parent env))
  else Ok (Some (env_ebcalc env)).

Definition pre_execute (oq : OqParam) (env : Env) : res Calc :=
  parent ← find_parent oq env;
  let oq' :=
    match parent with
    | Some p =>
        if decide (¬ ("gmfs" ∈ oq_inputs oq) ∧ hc_given oq = false)
        then {| oq_inputs := oq_inputs oq;
                hazard_calculation_id := Some (hz_calc_id p);
                investigation_time := investigation_time oq;
                minimum_intensity := minimum_intensity oq;
                ses_per_logic_tree_path := ses_per_logic_tree_path oq;
                oq_insured_losses := oq_insured_losses oq;
                oq_avg_losses := oq_avg_losses oq;
                oq_ses_ratio := oq_ses_ratio oq;
                oq_return_periods := oq_return_periods oq;
                oq_loss_dt := oq_loss_dt oq |}
        else oq
    | None => oq
    end in
  let L := num_L (env_riskmodel env) in
  let A := env_A env in
  let I := (if oq_insured_losses oq then 1 else 0) + 1 in
  let b :=
    match parent with
    | Some p =>
        if decide (oq_return_periods oq ≠ [0%Z])
        then Some (env_loss_builder env p) else None
    | None => None
    end in
  let eids :=
    match parent with
    | Some p => py_sorted (hz_events_eid p)
    | None => py_sorted (env_events env)
    end in
  let E := length eids in
  Ok {| oqparam := oq';
        riskmodel_ := env_riskmodel env;
        vals := env_values env;
        param_ := {| insured_losses := oq_insured_losses oq;
                     avg_losses := oq_avg_losses oq;
                     ses_ratio := oq_ses_ratio oq;
                     builder := b |};
        c_A := A;
        c_R := env_R env;
        c_eids := eids;
        c_E := E;
        c_eps_shape := (A, E);
        c_agglosses := zeros3 E (env_R env) (L * I);
        c_dset := if oq_avg_losses oq
                  then Some (zeros3 A (env_R env) (L * I)) else None;
        c_taskno := 0;
        datastore := env_datastore env;
        c_log := [] |}.

(** [ratios.get(aid, 0)]; an array has no [get] *)
Definition ratios_get (ratios : AvgAcc) (aid : nat) : res F32.t :=
  match ratios with
  | AccDict d => Ok (default F32.zero (d !! aid))
  | AccArr _ => Raise (AttributeError "get")
  end.

(** The body of the loop of [save_losses] over [avglosses.items()]:
    [self.dset[aids, r, li] += numpy.array(
         [ratios.get(aid, 0) * vs[aid] for aid in aids])] *)
Definition save_avg (c : Calc) (aids : list nat) (dset : Arr3)
    (kv : nat * nat * AvgAcc) : res Arr3 :=
  let '(li, r, ratios) := kv in
  let L := num_L (riskmodel_ c) in
  let l := if decide (li < L) then li else li - L in
  lt ← or_raise IndexError (loss_types (riskmodel_ c) !! l);
  vs ← or_raise (ValueError "no field of that name") (vals c !! lt);
  arr ← traverse (λ aid,
           x ← ratios_get ratios aid;
           v ← or_raise IndexError ((vs : list F32.t) !! aid);
           Ok (F32.mul x v)) aids;
  iadd_at dset ((λ aid, (aid, r, li)) <$> aids) arr.

Definition with_accumulators (c : Calc) (agglosses : Arr3)
    (dset : option Arr3) (taskno : nat) : Calc :=
  {| oqparam := oqparam c; riskmodel_ := riskmodel_ c; vals := vals c;
     param_ := param_ c; c_A := c_A c; c_R := c_R c; c_eids := c_eids c;
     c_E := c_E c; c_eps_shape := c_eps_shape c;
     c_agglosses := agglosses; c_dset := dset; c_taskno := taskno;
     datastore := datastore c; c_log := c_log c |}.

(** [idx, agg = agglosses; self.agglosses[idx] += agg] *)
Definition save_agglosses (agglosses : Arr3)
    (sparse : list Idx3 * list F32.t) : res Arr3 :=
  iadd_at agglosses sparse.1 sparse.2.

(** the contribution [ratios.get(aid, 0) * vs[aid]] of an asset *)
Definition contribution (ratios : AvgAcc) (vs : list F32.t) (aid : nat) : F32.t :=
  F32.mul (default F32.zero (acc_get ratios aid)) (default F32.zero (vs !! aid)).

(** the dataset of the average losses, if there is one, is well formed *)
Definition dset_wf (s : option Arr3) : Prop :=
  ∀ d, s = Some d → ∃ A R K, wf3 A R K d.

(** [save_losses(dic)]: the accumulation of the aggregate losses and of the
    average losses, and the count of the tasks. For a result of a task
    without a builder ([res_curves dic = None]: the dictionary has none of
    the keys [curves-*] and [loss_maps-*]) the calls of [_save_curves] and
    [_save_maps] at the end do nothing and this is all of [save_losses].
    For a result with curves these two calls also write, per asset, into
    the datasets [curves-*] and [loss_maps-*] of the datastore what
    [builder.pair] and [builder.build_maps] have computed; these writes are
    left out, so that for such a result the definition gives the
    accumulators and [taskno] only, not the datastore. *)
Definition save_losses (c : Calc) (dic : Result) : res Calc :=
  agglosses ← save_agglosses (c_agglosses c) (res_agglosses dic);
  dset ← foldM (λ dset kv,
            match dset with
            | Some d => Some <$> (save_avg c (res_aids dic) d kv)
            | None => Raise (AttributeError "dset")
            end)
          (c_dset c) (map_to_list (res_avglosses dic));
  Ok (with_accumulators c agglosses dset (c_taskno c + 1)).

(** [combine] folded over the results of the tasks, in the order in which
    they arrive *)
Definition combine_all (c : Calc) (results : list Result) : res Calc :=
  foldM save_losses c results.

Definition with_datastore (c : Calc) (ds : gmap string Dataset)
    (log : list (level * string)) : Calc :=
  {| oqparam := oqparam c; riskmodel_ := riskmodel_ c; vals := vals c;
     param_ := param_ c; c_A := c_A c; c_R := c_R c; c_eids := c_eids c;
     c_E := c_E c; c_eps_shape := c_eps_shape c;
     c_agglosses := c_agglosses c; c_dset := c_dset c;
     c_taskno := c_taskno c; datastore := ds; c_log := log |}.

(** [build_loss_tables]: the total losses by rupture and by realization *)
Definition add_row (t : list (list F32.t)) (i : nat) (v : list F32.t)
    : res (list (list F32.t)) :=
  row ← or_raise IndexError (t !! i);
  if decide (length row = length v)
  then Ok (<[i := zip_with F32.add row v]> t)
  else Raise (ValueError "shape mismatch").

Definition build_loss_tables (L R : nat) (events : list (N * N))
    (serials : list N) (recs : list elt_rec)
    : res (list (list F32.t) * list (list F32.t)) :=
  let rup_by_eid : gmap N N := list_to_map (reverse events) in
  let idx_by_ser : gmap N nat :=
    list_to_map (reverse ((λ p : nat * N, (p.2, p.1)) <$> enumerate serials)) in
  foldM (λ tl rec,
      rupid ← or_raise KeyError (rup_by_eid !! eid rec);
      i ← or_raise KeyError (idx_by_ser !! rupid);
      tbl ← add_row tl.1 i (loss rec);
      lbr ← add_row tl.2 (N.to_nat (rlzi rec)) (loss rec);
      Ok (tbl, lbr))
    (replicate (length serials) (replicate L F32.zero),
     replicate R (replicate L F32.zero))
    recs.

Section postproc.
(** Collaborators: [before_export] of the base calculator, [set_rlzs_stats]
    and the [build] method of the builder of aggregate curves *)
Context (before_export : gmap string Dataset → gmap string Dataset).
Context (set_rlzs_stats : gmap string Dataset → gmap string Dataset).
Context (build : list elt_rec → Dataset * option Dataset).

Definition eff_time (oq : OqParam) : F64.t :=
  F64.mul (investigation_time oq) (F64.of_Z (ses_per_logic_tree_path oq)).

Definition store_loss_tables (c : Calc) (ds : gmap string Dataset)
    (log : list (level * string))
    : res (gmap string Dataset * list (level * string)) :=
  match ds !! "ruptures" with
  | None => Ok (ds, log)
  | Some rup =>
      match rup, ds !! "events", ds !! "losses_by_event" with
      | Ruptures serials, Some (Events events), Some (LossesByEvent recs) =>
          tl ← build_loss_tables (length (oq_loss_dt (oqparam c))) (c_R c)
                 events serials recs;
          Ok (<["losses_by_rlzi" := Table tl.2]>
                (<["rup_loss_table" := Table tl.1]> ds),
              log ++ [(INFO, "Building loss tables")])
      | _, _, _ => Raise KeyError
      end
  end.

(** [postproc]; the attributes set on the datasets are not modelled *)
Definition postproc (c : Calc) : res Calc :=
  let ds := before_export (datastore c) in
  if F64.ltb (eff_time (oqparam c)) (F64.of_Z 2) then
    Ok (with_datastore c ds
          (c_log c ++ [(WARN, "eff_time is too small to compute agg_curves")]))
  else
    let ds := if oq_avg_losses (oqparam c) then set_rlzs_stats ds else ds in
    dl ← store_loss_tables c ds (c_log c);
    recs ← match dl.1 !! "losses_by_event" with
            | Some (LossesByEvent recs) => Ok recs
            | _ => Raise KeyError
            end;
    let log := dl.2 ++ [(INFO, "Building aggregate loss curves")] in
    let arrays := build recs in
    let ds := <["agg_curves-rlzs" := arrays.1]> dl.1 in
    let ds := match arrays.2 with
              | Some st => <["agg_curves-stats" := st]> ds
              | None => ds
              end in
    Ok (with_datastore c ds log).

Definition post_execute (c : Calc) : res Calc :=
  let log := c_log c ++ [(INFO, "Saving event loss table")] in
  let agglosses := losses_by_event (c_eids c) (c_agglosses c) in
  postproc (with_datastore c
    (<["losses_by_event" := LossesByEvent agglosses]> (datastore c)) log).
End postproc.

(** ** [event_based_agg]: the [ebr] task and [EventBasedRiskCalculator] *)

(** event loss table and insured loss table *)
Definition NUM_OUTPUTS : nat := 2.

(** A record of dtype [[('rup_id', uint32), ('loss', float32)]] *)
Record loss_rec := { rup_id : N; rloss : F32.t }.

(** a Python integer stored in a [uint32] field *)
Definition U32 (n : nat) : N := (N.of_nat n mod 4294967296)%N.

(** [cube(O, L, R, factory)]: an array of shape [(O, L, R)] of objects *)
Definition cube {A} (O L R : nat) (factory : A) : list (list (list A)) :=
  replicate O (replicate L (replicate R factory)).

(** The cells of the cube of losses are lists of arrays of records *)
Abbreviation Cube := (list (list (list (list (list loss_rec))))).

(** [numpy.ndenumerate(c)]: the cells with their indices, in row-major order *)
Definition ndenumerate {A} (c : list (list (list A))) : list (Idx3 * A) :=
  mjoin (imap (λ o plane,
    mjoin (imap (λ l row, imap (λ r x, ((o, l, r), x)) row) plane)) c).

(** every record of every array of every cell satisfies [P] *)
Definition cube_Forall (P : loss_rec → Prop) (c : Cube) : Prop :=
  Forall (Forall (Forall (Forall (Forall P)))) c.

Record Realization := { rlz_ordinal : nat; rlz_uid : string }.

(** an output for one realization: the losses per rupture (rows) and asset *)
Record RlzOutput := {
  out_loss_type : string;
  event_loss_per_asset : list (list F32.t);
  insured_loss_per_asset : list (list F32.t)
}.

Record OutByRlz := {
  rup_slice : nat * nat;
  outs : list RlzOutput
}.

(** [losses[idx].append(x)] *)
Definition cube_append (losses : Cube) (p : Idx3) (x : list loss_rec)
    : res Cube :=
  cell ← or_raise IndexError (get3 losses p);
  Ok (set3 losses p (cell ++ [x])).

(** [zip(a, b, c)] *)
Definition zip3 {A B C} (a : list A) (b : list B) (c : list C)
    : list (A * B * C) := zip (zip a b) c.

(** the body of [for rup_id, loss, ins_loss in zip(...)] *)
Definition ebr_rupture (lt ordinal : nat) (losses : Cube)
    (t : nat * F32.t * F32.t) : res Cube :=
  let '(rid, loss, ins_loss) := t in
  losses ← (if F32.gt0 loss
            then cube_append losses (0, lt, ordinal)
                   [{| rup_id := U32 rid; rloss := loss |}]
            else Ok losses);
  if F32.gt0 ins_loss
  then cube_append losses (1, lt, ordinal)
         [{| rup_id := U32 rid; rloss := ins_loss |}]
  else Ok losses.

(** the body of [for rlz, out in zip(rlzs_assoc.realizations, out_by_rlz)] *)
Definition ebr_output (lt_idx : gmap string nat) (rup_ids : list nat)
    (losses : Cube) (ro : Realization * RlzOutput) : res Cube :=
  lt ← or_raise KeyError (lt_idx !! out_loss_type ro.2);
  let agg_losses := F32.sum <$> event_loss_per_asset ro.2 in
  let agg_ins_losses := F32.sum <$> insured_loss_per_asset ro.2 in
  foldM (ebr_rupture lt (rlz_ordinal ro.1)) losses
    (zip3 rup_ids agg_losses agg_ins_losses).

(** [if arrays: losses[idx] = [numpy.concatenate(arrays)]] *)
Definition compact (arrays : list (list loss_rec)) : list (list loss_rec) :=
  match arrays with
  | [] => []
  | _ => [mjoin arrays]
  end.

(** The task [ebr]; [outputs] is what [riskmodel.gen_outputs] yields *)
Definition ebr (get_loss_types : list string) (realizations : list Realization)
    (outputs : list OutByRlz) : res Cube :=
  let lt_idx : gmap string nat :=
    list_to_map (reverse ((λ p : nat * string, (p.2, p.1)) <$> enumerate get_loss_types)) in
  losses ← foldM (λ losses out_by_rlz,
      let rup_ids := seq (rup_slice out_by_rlz).1
                       ((rup_slice out_by_rlz).2 - (rup_slice out_by_rlz).1) in
      foldM (ebr_output lt_idx rup_ids) losses
        (zip realizations (outs out_by_rlz)))
    (cube NUM_OUTPUTS (size lt_idx) (length realizations) []) outputs;
  Ok (fmap (M := list) (fmap (M := list) (fmap (M := list) compact)) losses).

(** [EventBasedRiskCalculator.agg]:
    [for idx, arrays in numpy.ndenumerate(losses): acc[idx].extend(arrays)] *)
Definition agg_ (acc losses : Cube) : res Cube :=
  foldM (λ acc ia,
      cell ← or_raise IndexError (get3 acc ia.1);
      Ok (set3 acc ia.1 (cell ++ ia.2)))
    acc (ndenumerate losses).

(** every cell of [losses] has a cell of [acc] to go to *)
Definition fits (acc losses : Cube) : Prop :=
  ∀ p, is_Some (get3 losses p) → is_Some (get3 acc p).

(** [apply_reduce] with [agg]: the results are aggregated one at a time, in
    the order in which the tasks complete *)
Definition reduce_agg (acc : Cube) (results : list Cube) : res Cube :=
  foldM agg_ acc results.

(** [acc + d] for an [AccumDict] of ruptures (identified by their serial
    numbers here): a new tag is added, two ruptures under one tag cannot be
    added up *)
Definition accum_add (acc d : gmap string nat) : res (gmap string nat) :=
  foldM (λ acc kv,
      match acc !! kv.1 with
      | None => Ok (<[kv.1 := kv.2]> acc)
      | Some _ => Raise (TypeError "unsupported operand type(s) for +=")
      end)
    acc (map_to_list d).

(** [rup_by_tag = sum(self.datastore['sescollection'], AccumDict())] *)
Definition rup_by_tag (sescollection : list (gmap string nat))
    : res (gmap string nat) :=
  foldM accum_add ∅ sescollection.

(** the order of the tags *)
Definition tag_le (a b : string * nat) : Prop := String.leb a.1 b.1 = true.
#[global] Instance tag_le_dec : RelDecision tag_le :=
  λ a b, decide (String.leb a.1 b.1 = true).

(** [[rup_by_tag[tag] for tag in sorted(rup_by_tag)]] *)
Definition all_ruptures (rbt : gmap string nat) : list nat :=
  (merge_sort tag_le (map_to_list rbt)).*2.

(** The part of [EventBasedRiskCalculator.pre_execute] that sizes the
    epsilons: [make_eps_dict] is asked for [num_samples] epsilons for each of
    the [A] assets. Returns [num_samples] and the number of epsilons that is
    logged as generated *)
Definition size_epsilons (A : nat) (sescollection : list (gmap string nat))
    (epsilon_sampling : nat) : res (nat * nat) :=
  rbt ← rup_by_tag sescollection;
  let num_samples := length (all_ruptures rbt) `min` epsilon_sampling in
  Ok (num_samples, num_samples * A).

(** ** [EventBasedRiskCalculator]: the tables of losses

    The datasets of the groups [/event_loss_table-rlzs] and
    [/insured_loss_table-rlzs] of the datastore are maps from the name
    [loss_type/uid] to an array of records. *)

Record AggCalc := {
  ac_loss_types : list string;
  ac_rlzs : list Realization;
  ac_insured_losses : bool;
  event_loss_table : gmap string (list loss_rec);
  insured_loss_table : gmap string (list loss_rec);
  ac_log : list (level * string)
}.

(** ['%s/%s' % (lt, uid)] *)
Definition table_key (lt uid : string) : string := lt +:+ "/" +:+ uid.

(** the names of the tables, in the order of the loops of [pre_execute] *)
Definition table_keys (lts : list string) (rlzs : list Realization) : list string :=
  lt ← lts; rlz ← rlzs; [table_key lt (rlz_uid rlz)].

(** the record that fills a dataset that grows *)
Definition elt_zero : loss_rec := {| rup_id := 0; rloss := F32.zero |}.

(** [elt.resize((n1,))] *)
Definition resize (n1 : nat) (elt : list loss_rec) : list loss_rec :=
  take n1 elt ++ replicate (n1 - length elt) elt_zero.

(** [elt[n:n1] = losses] with [n1 = n + len(losses)] *)
Definition set_slice (n : nat) (losses elt : list loss_rec) : list loss_rec :=
  take n elt ++ losses ++ drop (n + length losses) elt.

(** [losses.nbytes] for records of 8 bytes *)
Definition nbytes (losses : list loss_rec) : nat := 8 * length losses.

(** the state of the loop of [post_execute] *)
Record PostState := {
  ps_acc : list (list (list nat));
  ps_saved : nat;
  ps_elt : gmap string (list loss_rec);
  ps_ins : gmap string (list loss_rec)
}.

Module EventBasedRiskCalculator.
Section calc.
(** [name_exists] is the exception of [create_dataset] for a name that is
    taken; [humansize] formats a number of bytes *)
Context (name_exists : exn) (humansize : nat → string).

(** [create_dataset(name, (0,), elt_dt, ...)] in a group *)
Definition create_dataset (group : gmap string (list loss_rec)) (name : string)
    : res (gmap string (list loss_rec)) :=
  match group !! name with
  | Some _ => Raise name_exists
  | None => Ok (<[name := []]> group)
  end.

(** the end of [pre_execute]: an empty table for each loss type and
    realization *)
Definition create_tables (c : AggCalc) : res AggCalc :=
  tables ← foldM (λ t key,
      elt ← create_dataset t.1 key;
      ins ← (if ac_insured_losses c then create_dataset t.2 key else Ok t.2);
      Ok (elt, ins))
    (event_loss_table c, insured_loss_table c)
    (table_keys (ac_loss_types c) (ac_rlzs c));
  Ok {| ac_loss_types := ac_loss_types c; ac_rlzs := ac_rlzs c;
        ac_insured_losses := ac_insured_losses c;
        event_loss_table := tables.1; insured_loss_table := tables.2;
        ac_log := ac_log c |}.

(** the part of the body of the loop of [post_execute] that writes to a
    table *)
Definition write_table (p : Idx3) (n : nat) (arrays : list (list loss_rec))
    (acc : list (list (list nat))) (saved : nat)
    (group : gmap string (list loss_rec)) (key : string)
    : res (list (list (list nat)) * nat * gmap string (list loss_rec)) :=
  elt ← or_raise KeyError (group !! key);
  let losses := mjoin arrays in
  let n1 := n + length losses in
  Ok (set3 acc p n1, saved + nbytes losses,
      <[key := set_slice n losses (resize n1 elt)]> group).

Definition save_cell (c : AggCalc) (st : PostState)
    (ia : Idx3 * list (list loss_rec)) : res PostState :=
  match ia.2 with
  | [] => Ok st
  | _ =>
      lt ← or_raise IndexError (ac_loss_types c !! ia.1.1.2);
      rlz ← or_raise IndexError (ac_rlzs c !! ia.1.2);
      n ← or_raise IndexError (get3 (ps_acc st) ia.1);
      let key := table_key lt (rlz_uid rlz) in
      if decide (ia.1.1.1 = 0) then
        w ← write_table ia.1 n ia.2 (ps_acc st) (ps_saved st) (ps_elt st) key;
        Ok {| ps_acc := w.1.1; ps_saved := w.1.2; ps_elt := w.2;
              ps_ins := ps_ins st |}
      else if ac_insured_losses c then
        w ← write_table ia.1 n ia.2 (ps_acc st) (ps_saved st) (ps_ins st) key;
        Ok {| ps_acc := w.1.1; ps_saved := w.1.2; ps_elt := ps_elt st;
              ps_ins := w.2 |}
      else Ok st
  end.

(** [post_execute(result)]; [self.L] and [self.R] are the numbers of loss
    types and of realizations *)
Definition post_execute (c : AggCalc) (result : Cube) : res AggCalc :=
  st ← foldM (save_cell c)
    {| ps_acc := cube NUM_OUTPUTS (length (ac_loss_types c))
                   (length (ac_rlzs c)) 0;
       ps_saved := 0;
       ps_elt := event_loss_table c; ps_ins := insured_loss_table c |}
    (ndenumerate result);
  Ok {| ac_loss_types := ac_loss_types c; ac_rlzs := ac_rlzs c;
        ac_insured_losses := ac_insured_losses c;
        event_loss_table := ps_elt st; insured_loss_table := ps_ins st;
        ac_log := ac_log c ++
          (if decide (1 < ps_saved st)
           then [(INFO, "Saved " +:+ humansize (ps_saved st) +:+ " of data")]
           else []) |}.
End calc.
End EventBasedRiskCalculator.

(** ** Auxiliary notions

    Parts of the definitions above under a name of their own, and the
    notions that the properties are stated with. *)

(** the sum of a column of [ncols] by [m.sum(axis=0)]: the sum over the
    rows, pairwise for a single column and in order otherwise *)
Definition column_sum (ncols : nat) (col : list F32.t) : F32.t :=
  if decide (ncols = 1) then F32.sum col else F32.naive_sum col.

(** the entry that [lba[aid] += x] leaves where the entry was [cur]: the
    sum, or [x] itself for a new entry of a dict *)
Definition acc_upd (accum : AvgAcc) (cur : option spec_float) (x : F32.t)
    : option spec_float :=
  Some (match cur with Some y => acc_plus accum y x | None => x end).

(** both are dicts, or both are arrays *)
Definition same_kind (a b : AvgAcc) : Prop :=
  match a, b with
  | AccDict _, AccDict _ | AccArr _, AccArr _ => True
  | _, _ => False
  end.

(** The contributions of a shard to the average losses of the asset [aid]
    in the cell [key = (l + L * i, r)], in the order of the loops of the
    task: one for each output with events, loss type [l] with ratios, asset
    of the output with ordinal [aid] and [i < I], namely the sum over the
    events of the loss ratios [ratios[:, i]] of the asset, times
    [ses_ratio] *)
Section contributions.
Context (riskmodel : RiskModel) (param : Param) (key : nat * nat) (aid : nat).

Definition ratios_contribs (l r : nat) (ratios : list (list F32.t))
    : list F32.t :=
  i ← seq 0 (num_I param);
  if decide ((l + num_L riskmodel * i, r) = key) then
    match column ratios i with
    | Ok col => [F32.mul (column_sum (num_I param) col) (ses_ratio param)]
    | Raise _ => []
    end
  else [].

Definition asset_contribs (l r : nat) (loss_ratios : list (list (list F32.t)))
    (aa : nat * Asset) : list F32.t :=
  if decide (ordinal aa.2 = aid) then
    match loss_ratios !! aa.1 with
    | Some ratios => ratios_contribs l r ratios
    | None => []
    end
  else [].

Definition loss_type_contribs (out : Output)
    (lr : nat * option (list (list (list F32.t)))) : list F32.t :=
  match lr.2 with
  | Some loss_ratios =>
      enumerate (out_assets out) ≫= asset_contribs lr.1 (out_rlzi out) loss_ratios
  | None => []
  end.

Definition output_contribs (out : Output) : list F32.t :=
  if decide (length (out_eids out) = 0) then []
  else enumerate (out_ratios out) ≫= loss_type_contribs out.

Definition avg_contribs (outputs : list Output) : list F32.t :=
  outputs ≫= output_contribs.
End contributions.

(** the values of [avg] are arrays with one entry per asset of the input *)
Definition arr_inv (ri : RiskInput) (avg : gmap (nat * nat) AvgAcc) : Prop :=
  map_Forall (λ _ v, ∃ a, v = AccArr a ∧ length a = length (aids ri)) avg.

(** the step of the loop of [save_losses] over the average losses *)
Definition save_avg_opt (c : Calc) (aids : list nat) (dset : option Arr3)
    (kv : nat * nat * AvgAcc) : res (option Arr3) :=
  match dset with
  | Some d => Some <$> (save_avg c aids d kv)
  | None => Raise (AttributeError "dset")
  end.

(** a table of [n] rows of [L] numbers *)
Definition table_shape (n L : nat) (t : list (list F32.t)) : Prop :=
  length t = n ∧ Forall (λ row, length row = L) t.

(** the two dictionaries of [build_loss_tables] *)
Definition rup_by_eid (events : list (N * N)) : gmap N N :=
  list_to_map (reverse events).

Definition idx_by_ser (serials : list N) : gmap N nat :=
  list_to_map (reverse ((λ p : nat * N, (p.2, p.1)) <$> enumerate serials)).

(** the row of [tbl] that a record is added to *)
Definition rup_row (events : list (N * N)) (serials : list N) (rec : elt_rec)
    : option nat :=
  rup_by_eid events !! eid rec ≫= (idx_by_ser serials !!.).

Definition tables_inv (L R : nat) (serials : list N)
    (tl : list (list F32.t) * list (list F32.t)) : Prop :=
  table_shape (length serials) L tl.1 ∧ table_shape R L tl.2.

(** the body of the loop of [build_loss_tables] *)
Definition loss_tables_step (events : list (N * N)) (serials : list N)
    (tl : list (list F32.t) * list (list F32.t))
    (rec : elt_rec) : res (list (list F32.t) * list (list F32.t)) :=
  rupid ← or_raise KeyError (rup_by_eid events !! eid rec);
  i ← or_raise KeyError (idx_by_ser serials !! rupid);
  tbl ← add_row tl.1 i (loss rec);
  lbr ← add_row tl.2 (N.to_nat (rlzi rec)) (loss rec);
  Ok (tbl, lbr).

(** the rows added up: the losses of the records selected by [P], in the
    order of the table, starting from [row] *)
Definition add_up (P : elt_rec → Prop) `{!∀ rec, Decision (P rec)}
    (row : list F32.t) (recs : list elt_rec) : list F32.t :=
  foldl (zip_with F32.add) row (loss <$> filter P recs).

(** [lt_idx = {lt: i for i, lt in enumerate(riskmodel.get_loss_types())}] *)
Definition loss_type_index (lts : list string) : gmap string nat :=
  list_to_map (reverse ((λ p : nat * string, (p.2, p.1)) <$> enumerate lts)).

(** the appends of the task [ebr]: one record, with a positive loss *)
Definition one_loss (x : list loss_rec) : Prop :=
  ∃ rid loss, x = [{| rup_id := U32 rid; rloss := loss |}] ∧ F32.gt0 loss = true.

(** the loop of [ebr] over the outputs, before the arrays are concatenated *)
Definition ebr_loop (lts : list string) (rlzs : list Realization)
    (outputs : list OutByRlz) : res Cube :=
  foldM (λ losses out_by_rlz,
      let rup_ids := seq (rup_slice out_by_rlz).1
                       ((rup_slice out_by_rlz).2 - (rup_slice out_by_rlz).1) in
      foldM (ebr_output (loss_type_index lts) rup_ids) losses
        (zip rlzs (outs out_by_rlz)))
    (cube NUM_OUTPUTS (size (loss_type_index lts)) (length rlzs) []) outputs.

(** the record is in one of the arrays of the cell *)
Definition recorded (c : Cube) (p : Idx3) (rec : loss_rec) : Prop :=
  ∃ cell arr, get3 c p = Some cell ∧ arr ∈ cell ∧ rec ∈ arr.

(** the name of the table of a cell of the cube *)
Definition cell_key (c : AggCalc) (p : Idx3) : option string :=
  lt ← ac_loss_types c !! p.1.2;
  rlz ← ac_rlzs c !! p.2;
  Some (table_key lt (rlz_uid rlz)).

(** the cell is saved: it is not empty, and it holds losses, or insured
    losses that are asked for *)
Definition saved_cell (c : AggCalc) (ia : Idx3 * list (list loss_rec)) : bool :=
  bool_decide (ia.2 ≠ []) &&
  (bool_decide (ia.1.1.1 = 0) || ac_insured_losses c).

(** the number of bytes of the cells that are saved *)
Definition saved_bytes (c : AggCalc) (l : list (Idx3 * list (list loss_rec))) : nat :=
  sum_list ((λ ia, if saved_cell c ia then nbytes (mjoin ia.2) else 0) <$> l).

(** what a cell writes to the group of the losses ([ins = false]) or of the
    insured losses ([ins = true]), in a loop that meets each cell once *)
Definition cell_write (c : AggCalc) (ins : bool)
    (ia : Idx3 * list (list loss_rec)) : option (string * list loss_rec) :=
  if saved_cell c ia && bool_decide ((ia.1.1.1 = 0) ↔ ins = false)
  then (λ key, (key, mjoin ia.2)) <$> cell_key c ia.1
  else None.

Definition put_write (m : gmap string (list loss_rec))
    (w : option (string * list loss_rec)) : gmap string (list loss_rec) :=
  match w with
  | Some kv => <[kv.1 := kv.2]> m
  | None => m
  end.

(** the body of the loop of [create_tables] *)
Definition create_step (name_exists : exn) (ins : bool)
    (t : gmap string (list loss_rec) * gmap string (list loss_rec))
    (key : string)
    : res (gmap string (list loss_rec) * gmap string (list loss_rec)) :=
  elt ← EventBasedRiskCalculator.create_dataset name_exists t.1 key;
  ins ← (if ins then EventBasedRiskCalculator.create_dataset name_exists t.2 key
         else Ok t.2);
  Ok (elt, ins).


(** ** A small calculation

    Two assets on one site, two events, one realization, the loss type
    [structural], no insured losses; average losses are computed. *)

Definition ex_riskmodel : RiskModel :=
  {| lti := {["structural" := 0]}; loss_types := ["structural"] |}.

Definition ex_param : Param :=
  {| insured_losses := false; avg_losses := true;
     ses_ratio := F32.of_Z 1; builder := None |}.

Definition ex_getter : HazardGetter :=
  {| hg_eids := [5; 7]%N; eid2idx := {[5%N := 0; 7%N := 1]}; num_rlzs := 1 |}.

Definition ex_riskinput (aids : list nat) : RiskInput :=
  {| aids := aids; hazard_getter := ex_getter; by_site := true |}.

Definition ex_asset (ordinal : nat) (value : Z) : Asset :=
  {| ordinal := ordinal; value := λ _, F32.of_Z value |}.

(** the asset [0], worth 10, loses everything in event 7 and nothing in
    event 5 *)
Definition ex_outputs0 : list Output :=
  [{| out_eids := [5; 7]%N; out_rlzi := 0; out_assets := [ex_asset 0 10];
      out_ratios := [Some [[[F32.of_Z 0]; [F32.of_Z 1]]]] |}].

(** the asset [1], worth 20, loses everything in event 7; its ratios for
    event 5 are below the minimum intensity in a second output *)
Definition ex_outputs1 : list Output :=
  [{| out_eids := [7]%N; out_rlzi := 0; out_assets := [ex_asset 1 20];
      out_ratios := [Some [[[F32.of_Z 1]]]] |};
   {| out_eids := [5]%N; out_rlzi := 0; out_assets := [ex_asset 1 20];
      out_ratios := [None] |}].

Definition ex_result (aids : list nat) (outputs : list Output) : Result :=
  match event_based_risk (ex_riskinput aids) ex_riskmodel ex_param outputs with
  | Ok r => r
  | Raise _ =>
      {| res_aids := []; res_agglosses := ([], []); res_avglosses := ∅;
         res_curves := None |}
  end.

(** the task of the first asset, of the second asset, and of a shard that
    holds both assets but has outputs for the first only *)
Definition ex_result0 : Result := ex_result [0] ex_outputs0.
Definition ex_result1 : Result := ex_result [1] ex_outputs1.
Definition ex_result01 : Result := ex_result [0; 1] ex_outputs0.

Definition ex_oq (investigation_time : Z) : OqParam :=
  {| oq_inputs := ∅; hazard_calculation_id := Some 1;
     investigation_time := F64.of_Z investigation_time;
     minimum_intensity := ∅; ses_per_logic_tree_path := 1;
     oq_insured_losses := false; oq_avg_losses := true;
     oq_ses_ratio := F32.of_Z 1; oq_return_periods := [0%Z];
     oq_loss_dt := ["structural"] |}.

Definition ex_hazard : Hazard :=
  {| hz_calc_id := 1; hz_oqparam := ex_oq 1; hz_events_eid := [7; 5]%N |}.

Definition ex_env : Env :=
  {| env_riskmodel := ex_riskmodel; env_A := 2;
     env_values := {["structural" := [F32.of_Z 10; F32.of_Z 20]]};
     env_R := 1; env_parent := ex_hazard; env_events := [];
     env_ebcalc := ex_hazard;
     env_loss_builder := λ _,
       {| weights := []; return_periods := []; loss_dt := [];
          build_curve := λ _ _ _, [] |};
     env_datastore := ∅ |}.

(** the calculator after [pre_execute] *)
Definition ex_calc0 : Calc :=
  {| oqparam := ex_oq 1; riskmodel_ := ex_riskmodel;
     vals := {["structural" := [F32.of_Z 10; F32.of_Z 20]]};
     param_ := ex_param; c_A := 2; c_R := 1; c_eids := [5; 7]%N; c_E := 2;
     c_eps_shape := (2, 2);
     c_agglosses := [[[F32.zero]]; [[F32.zero]]];
     c_dset := Some [[[F32.zero]]; [[F32.zero]]];
     c_taskno := 0; datastore := ∅; c_log := [] |}.

(** the calculator after the results of the two tasks *)
Definition ex_calc : Calc :=
  with_accumulators ex_calc0
    [[[F32.zero]]; [[F32.of_Z 30]]]
    (Some [[[F32.of_Z 10]]; [[F32.of_Z 20]]]) 2.

(** two results of [ebr], each with one record for the same loss type and
    realization *)
Definition ex_cube (rup_id : N) (loss : Z) : Cube :=
  [[[ [[{| rup_id := rup_id; rloss := F32.of_Z loss |}]] ]]; [[ [] ]]].

Definition ex_reduced (results : list Cube) : Cube :=
  match reduce_agg (cube NUM_OUTPUTS 1 1 []) results with
  | Ok c => c
  | Raise _ => []
  end.

(** three sparse results for the one cell of an array of shape (1, 1, 1) *)
Definition ex_sparse (loss : Z) : list Idx3 * list F32.t :=
  sparse [[[F32.of_Z loss]]].

(** three ruptures in one stochastic event set *)
Definition ex_sescollection : list (gmap string nat) :=
  [{["rup-a" := 1; "rup-b" := 2; "rup-c" := 3]}].

(** a risk input that is not by site: the average losses are arrays *)
Definition ex_riskinput_arr : RiskInput :=
  {| aids := [0]; hazard_getter := ex_getter; by_site := false |}.

Definition ex_result_arr : Result :=
  match event_based_risk ex_riskinput_arr ex_riskmodel ex_param ex_outputs0 with
  | Ok r => r
  | Raise _ =>
      {| res_aids := []; res_agglosses := ([], []); res_avglosses := ∅;
         res_curves := None |}
  end.

(** the calculator after the result of the first task *)
Definition ex_calc1 : Calc :=
  with_accumulators ex_calc0
    [[[F32.zero]]; [[F32.of_Z 10]]]
    (Some [[[F32.of_Z 10]]; [[F32.zero]]]) 1.


(** one event of the rupture 1, with the table of the calculator [ex_calc] *)
Definition ex_events : list (N * N) := [(5, 1); (7, 1)]%N.
Definition ex_recs : list elt_rec :=
  [{| eid := 7; rlzi := 0; loss := [F32.of_Z 30] |}].

(** one realization, one output with a loss of 3 for the rupture 0 and no
    insured loss *)
Definition ex_rlz : Realization := {| rlz_ordinal := 0; rlz_uid := "b1" |}.

Definition ex_rlz_output : RlzOutput :=
  {| out_loss_type := "structural";
     event_loss_per_asset := [[F32.of_Z 1; F32.of_Z 2]];
     insured_loss_per_asset := [[F32.zero; F32.zero]] |}.

Definition ex_out_by_rlz : OutByRlz :=
  {| rup_slice := (0, 1); outs := [ex_rlz_output] |}.

Definition ex_ebr : Cube :=
  match ebr ["structural"] [ex_rlz] [ex_out_by_rlz] with
  | Ok c => c
  | Raise _ => []
  end.

Definition ex_aggcalc : AggCalc :=
  {| ac_loss_types := ["structural"]; ac_rlzs := [ex_rlz];
     ac_insured_losses := false;
     event_loss_table := ∅; insured_loss_table := ∅; ac_log := [] |}.

Definition ex_name_exists : exn := ValueError "name already exists".
Definition ex_humansize (n : nat) : string := "some bytes".

(** the calculator with its empty tables *)
Definition ex_aggcalc1 : AggCalc :=
  {| ac_loss_types := ["structural"]; ac_rlzs := [ex_rlz];
     ac_insured_losses := false;
     event_loss_table := {["structural/b1" := []]}; insured_loss_table := ∅;
     ac_log := [] |}.

Definition ex_aggcalc2 : AggCalc :=
  match EventBasedRiskCalculator.post_execute ex_humansize ex_aggcalc1 ex_ebr with
  | Ok c => c
  | Raise _ => ex_aggcalc1
  end.

(** * Properties *)

(** ** Rounding *)

Section rounding.
Context (prec emax : Z) (Hprec : (0 < prec)%Z).
Local Open Scope Z_scope.

Lemma digits2_pos_size m : digits2_pos m = Pos.size m.
Proof. induction m; simpl; congruence. Qed.

Lemma digits2_pos_le m : 2 ^ (Zpos (digits2_pos m) - 1) ≤ Zpos m.
Proof.
  rewrite digits2_pos_size.
  pose proof (Pos.size_le m) as H.
  assert (2 ^ Zpos (Pos.size m) ≤ 2 * Zpos m) as H'.
  { change (2 * Z.pos m) with (Zpos m~0). rewrite <- Pos2Z.inj_pow. by apply Pos2Z.pos_le_pos. }
  replace (Zpos (Pos.size m)) with (Z.succ (Zpos (Pos.size m) - 1)) in H' by lia.
  rewrite Z.pow_succ_r in H' by lia. lia.
Qed.

Lemma shr_m_shr_1 mrs : 0 ≤ shr_m mrs → shr_m (shr_1 mrs) = Z.div2 (shr_m mrs).
Proof. destruct mrs as [[|[]|[]] r s]; simpl; try done; lia. Qed.

Lemma shr_m_iter p : ∀ mrs,
  0 ≤ shr_m mrs → shr_m (SpecFloat.iter_pos shr_1 p mrs) = shr_m mrs / 2 ^ Zpos p.
Proof.
  assert (∀ x k, 0 ≤ x → 0 ≤ x / 2 ^ Zpos k) as Hq.
  { intros x k Hx. apply Z.div_pos; [done|]. apply Z.pow_pos_nonneg; lia. }
  induction p as [p IH|p IH|]; intros mrs Hm; simpl.
  - assert (0 ≤ shr_m (shr_1 mrs)) as H1.
    { rewrite shr_m_shr_1, Z.div2_div by done. apply Z.div_pos; lia. }
    assert (0 ≤ shr_m (SpecFloat.iter_pos shr_1 p (shr_1 mrs))) as H2.
    { rewrite IH by done. by apply Hq. }
    rewrite (IH _ H2), (IH _ H1), shr_m_shr_1, Z.div2_div by done.
    rewrite !Z.div_div by (try apply Z.pow_pos_nonneg; lia). f_equal.
    rewrite Pos2Z.inj_xI, Z.pow_add_r, Z.pow_mul_r by lia.
    change (2 ^ 2) with 4. change (2 ^ 1) with 2.
    replace (4 ^ Z.pos p) with (2 ^ Z.pos p * 2 ^ Z.pos p).
    + lia.
    + rewrite <- Z.pow_add_r by lia. replace (Z.pos p + Z.pos p) with (2 * Z.pos p) by lia.
      by rewrite Z.pow_mul_r by lia.
  - assert (0 ≤ shr_m (SpecFloat.iter_pos shr_1 p mrs)) as H2.
    { rewrite IH by done. by apply Hq. }
    rewrite (IH _ H2), (IH _ Hm).
    rewrite !Z.div_div by (try apply Z.pow_pos_nonneg; lia). f_equal.
    rewrite Pos2Z.inj_xO, <- Z.pow_add_r by lia. f_equal. lia.
  - rewrite shr_m_shr_1, Z.div2_div by done. done.
Qed.

Lemma shr_fexp_exp m e l : emin prec emax ≤ (shr_fexp prec emax m e l).2.
Proof.
  unfold shr_fexp, shr, fexp.
  destruct (Z.max (Zdigits2 m + e - prec) (emin prec emax) - e) eqn:Hn; simpl; lia.
Qed.

Lemma shr_fexp_pos m e l :
  emin prec emax ≤ e → 0 < shr_m (shr_fexp prec emax (Zpos m) e l).1.
Proof.
  intros He. unfold shr_fexp, shr, fexp.
  assert (shr_m (shr_record_of_loc (Z.pos m) l) = Zpos m) as Hm by (by destruct l as [|[]]).
  destruct (Z.max (Zdigits2 (Zpos m) + e - prec) (emin prec emax) - e) as [|p|p] eqn:Hn;
    simpl; rewrite ?Hm; try lia.
  rewrite shr_m_iter, Hm by lia. simpl in Hn.
  pose proof (digits2_pos_le m) as Hd.
  assert (Zpos p ≤ Zpos (digits2_pos m) - 1) as Hp by lia.
  apply Z.div_str_pos. split; [apply Z.pow_pos_nonneg; lia|].
  etrans; [|exact Hd]. apply Z.pow_le_mono_r; lia.
Qed.

Lemma round_nearest_even_ge m l : m ≤ round_nearest_even m l.
Proof. unfold round_nearest_even. destruct l as [|[]]; try case_match; lia. Qed.

Lemma binary_round_aux_spec s m e l :
  emin prec emax ≤ e →
  match binary_round_aux prec emax s (Zpos m) e l with
  | S754_zero _ | S754_nan => False
  | S754_infinity _ => True
  | S754_finite _ _ e' => emin prec emax ≤ e'
  end.
Proof.
  intros He. unfold binary_round_aux.
  pose proof (shr_fexp_pos m e l He) as H1.
  pose proof (shr_fexp_exp (Zpos m) e l) as H2.
  destruct (shr_fexp prec emax (Z.pos m) e l) as [mrs' e'].
  pose proof (round_nearest_even_ge (shr_m mrs') (loc_of_shr_record mrs')) as H3.
  simpl in *.
  destruct (round_nearest_even (shr_m mrs') (loc_of_shr_record mrs')) as [|m1|m1]; try lia.
  pose proof (shr_fexp_pos m1 e' loc_Exact H2) as H4.
  pose proof (shr_fexp_exp (Zpos m1) e' loc_Exact) as H5.
  destruct (shr_fexp prec emax (Z.pos m1) e' loc_Exact) as [mrs'' e''].
  simpl in *. destruct (shr_m mrs''); try lia. by destruct (e'' <=? emax - prec).
Qed.

Lemma binary_round_aux_exp s m e l :
  match binary_round_aux prec emax s m e l with
  | S754_finite _ _ e' => emin prec emax ≤ e'
  | _ => True
  end.
Proof.
  unfold binary_round_aux.
  destruct (shr_fexp prec emax m e l) as [mrs' e'].
  pose proof (shr_fexp_exp (round_nearest_even (shr_m mrs') (loc_of_shr_record mrs')) e' loc_Exact) as H5.
  destruct (shr_fexp prec emax _ e' loc_Exact) as [mrs'' e''].
  simpl in *. destruct (shr_m mrs''); try done. by destruct (e'' <=? emax - prec).
Qed.

Lemma binary_round_spec s m e :
  emin prec emax ≤ e →
  match binary_round prec emax s m e with
  | S754_zero _ | S754_nan => False
  | S754_infinity _ => True
  | S754_finite _ _ e' => emin prec emax ≤ e'
  end.
Proof.
  intros He. unfold binary_round.
  destruct (shl_align m e (fexp prec emax (Z.pos (digits2_pos m) + e))) as [mz ez] eqn:Hs.
  apply binary_round_aux_spec.
  unfold shl_align, fexp in Hs. case_match; simplify_eq; lia.
Qed.
End rounding.

(** ** Loops and traversals in the error monad *)

Lemma foldM_inv {A S} (P : S → Prop) (f : S → A → res S) l : ∀ s s',
  (∀ s x s', x ∈ l → P s → f s x = Ok s' → P s') →
  P s → foldM f s l = Ok s' → P s'.
Proof.
  induction l as [|x l IH]; intros s s' Hf Hs H; simpl in H; [by simplify_eq|].
  destruct (f s x) as [s1|] eqn:H1; [|done]. simpl in H.
  apply (IH s1); [|by eapply Hf; [left|..]|done].
  intros ????. apply Hf. by right.
Qed.

Section fold_once.
Context {S A V : Type} (get : S → V) (f : S → A → res S).

Lemma foldM_never l s s' :
  (∀ s x s', x ∈ l → f s x = Ok s' → get s' = get s) →
  foldM f s l = Ok s' → get s' = get s.
Proof.
  intros Hf H. eapply (foldM_inv (λ s', get s' = get s)); [|done|exact H].
  intros s1 x s1' Hx <- H1. by eapply Hf.
Qed.

Lemma foldM_once (Q : V → V → Prop) x0 l s s' :
  NoDup l → x0 ∈ l →
  (∀ s x s', x ∈ l → x ≠ x0 → f s x = Ok s' → get s' = get s) →
  (∀ s s', f s x0 = Ok s' → Q (get s) (get s')) →
  foldM f s l = Ok s' → Q (get s) (get s').
Proof.
  intros Hnd Hin Hne Hx0. revert s.
  induction l as [|x l IH]; intros s H; [by apply elem_of_nil in Hin|].
  apply NoDup_cons in Hnd as [Hx Hnd]. simpl in H.
  destruct (f s x) as [s1|] eqn:H1; [|done]. simpl in H.
  apply elem_of_cons in Hin as [->|Hin].
  - apply Hx0 in H1. rewrite (foldM_never l s1 s'); [done| |done].
    intros s2 y s2' Hy. apply Hne; [by right|]. by intros ->.
  - assert (x ≠ x0) as Hxx by (by intros ->).
    rewrite <- (Hne s x s1); [|by left|done|done].
    apply IH; [done|done| |done]. intros s2 y s2' Hy. apply Hne. by right.
Qed.
End fold_once.

Lemma foldM_total {S A} (P : S → Prop) (f : S → A → res S) l : ∀ s,
  P s → (∀ s x, x ∈ l → P s → ∃ s', f s x = Ok s' ∧ P s') →
  ∃ s', foldM f s l = Ok s' ∧ P s'.
Proof.
  induction l as [|x l IH]; intros s Hs Hf; simpl; [by eexists|].
  destruct (Hf s x) as (s1 & -> & Hs1); [by left|done|]. simpl.
  apply IH; [done|]. intros s2 y Hy. apply Hf. by right.
Qed.

Lemma foldM_app {A S} (f : S → A → res S) l1 l2 s :
  foldM f s (l1 ++ l2) = foldM f s l1 ≫= λ s', foldM f s' l2.
Proof.
  revert s. induction l1 as [|x l1 IH]; intros s; simpl; [done|].
  destruct (f s x); simpl; [apply IH|done].
Qed.

Lemma foldM_filter {A S} (f : S → A → res S) (P : A → Prop)
    `{!∀ x, Decision (P x)} l : ∀ s,
  (∀ s x, ¬ P x → f s x = Ok s) → foldM f s l = foldM f s (filter P l).
Proof.
  induction l as [|x l IH]; intros s Hf; [done|].
  rewrite filter_cons. case_decide as HP; simpl.
  - destruct (f s x); simpl; auto.
  - rewrite Hf by done. simpl. auto.
Qed.

Section traverse.
Context {A B : Type} (f : A → res B).

Lemma traverse_fmap (g : A → B) l :
  (∀ x, x ∈ l → f x = Ok (g x)) → traverse f l = Ok (g <$> l).
Proof.
  induction l as [|x l IH]; intros H; simpl; [done|].
  rewrite H by left. simpl. rewrite IH; [done|]. intros; apply H; by right.
Qed.

Lemma traverse_Ok l ys :
  traverse f l = Ok ys → Forall2 (λ x y, f x = Ok y) l ys.
Proof.
  revert ys. induction l as [|x l IH]; intros ys H; simpl in H.
  - by simplify_eq.
  - destruct (f x) as [y|] eqn:Hy; [|done]. simpl in H.
    destruct (traverse f l) as [ys'|]; [|done]. simpl in H. simplify_eq.
    constructor; auto.
Qed.
End traverse.

Lemma traverse_Ok_fmap {A B} (f : A → res B) (h : A → B) l ys :
  (∀ x y, f x = Ok y → y = h x) → traverse f l = Ok ys → ys = h <$> l.
Proof.
  intros Hf H%traverse_Ok. induction H as [|x y l ys Hy _ IH]; [done|].
  csimpl. by rewrite (Hf _ _ Hy), IH.
Qed.

Lemma zip_with_fmap_same {A B C D} (f : B → C → D) (g : A → B) (h : A → C) l :
  zip_with f (g <$> l) (h <$> l) = (λ x, f (g x) (h x)) <$> l.
Proof. induction l as [|x l IH]; csimpl; [done|]. by f_equal. Qed.

(** ** Arrays of rank 3 *)

Section rank3.
Context {A : Type}.
Implicit Types (c : list (list (list A))) (p q : Idx3).

Lemma get3_set3_eq c p x : get3 (set3 c p x) p = const x <$> get3 c p.
Proof.
  destruct p as [[e r] k]. unfold get3, set3.
  rewrite list_lookup_alter_eq. destruct (c !! e) as [plane|]; simpl; [|done].
  rewrite list_lookup_alter_eq. destruct (plane !! r) as [row|]; simpl; [|done].
  rewrite list_lookup_insert. case_decide as H.
  - destruct H as [_ H]. by apply lookup_lt_is_Some in H as [y ->].
  - destruct (row !! k) eqn:Hk; [|done]. apply lookup_lt_Some in Hk. naive_solver.
Qed.

Lemma get3_set3_ne c p q x : p ≠ q → get3 (set3 c p x) q = get3 c q.
Proof.
  destruct p as [[e r] k], q as [[e' r'] k']. intros Hne. unfold get3, set3.
  destruct (decide (e = e')) as [->|]; [|by rewrite list_lookup_alter_ne].
  rewrite list_lookup_alter_eq. destruct (c !! e') as [plane|]; simpl; [|done].
  destruct (decide (r = r')) as [->|]; [|by rewrite list_lookup_alter_ne].
  rewrite list_lookup_alter_eq. destruct (plane !! r') as [row|]; simpl; [|done].
  rewrite list_lookup_insert_ne; [done|congruence].
Qed.

Lemma NoDup_imap_key {B K} (g : nat → B → K) (idx : K → nat) (l : list B) :
  (∀ i x, idx (g i x) = i) → NoDup (imap g l).
Proof.
  revert g idx. induction l as [|x l IH]; intros g idx Hg; [constructor|].
  rewrite imap_cons. constructor.
  - intros (i & y & Heq & _)%elem_of_lookup_imap.
    apply (f_equal idx) in Heq. simpl in Heq. rewrite !Hg in Heq. done.
  - apply (IH _ (pred ∘ idx)). intros i y. simpl. by rewrite Hg.
Qed.

Lemma NoDup_join_imap {B C K} (f : nat → B → list C) (key : C → K)
    (idx : K → nat) (l : list B) :
  (∀ i x b, b ∈ f i x → idx (key b) = i) →
  (∀ i x, NoDup (key <$> f i x)) →
  NoDup (key <$> mjoin (imap f l)).
Proof.
  revert f idx. induction l as [|x l IH]; intros f idx Hf Hnd; [constructor|].
  rewrite imap_cons. simpl. rewrite fmap_app. apply NoDup_app.
  split; [apply Hnd|]. split.
  - intros k (b1 & -> & Hb1)%list_elem_of_fmap (b2 & Hk & Hb2)%list_elem_of_fmap.
    apply list_elem_of_join in Hb2 as (l2 & Hb2 & Hl2).
    apply elem_of_lookup_imap in Hl2 as (i & y & -> & _). simpl in Hb2.
    apply Hf in Hb1, Hb2. rewrite Hk in Hb1. lia.
  - apply (IH _ (pred ∘ idx)).
    + intros i y b Hb. simpl in *. by rewrite (Hf _ _ _ Hb).
    + intros i y. apply Hnd.
Qed.

Lemma elem_of_ndenumerate c p x :
  (p, x) ∈ ndenumerate c ↔ get3 c p = Some x.
Proof.
  destruct p as [[o l] r]. unfold ndenumerate, get3. split.
  - intros H. apply list_elem_of_join in H as (l1 & H1 & H).
    apply elem_of_lookup_imap in H as (o' & plane & -> & Ho).
    apply list_elem_of_join in H1 as (l2 & H2 & H).
    apply elem_of_lookup_imap in H as (l' & row & -> & Hl).
    apply elem_of_lookup_imap in H2 as (r' & y & [= -> -> -> ->] & Hr).
    rewrite Ho. simpl. by rewrite Hl.
  - intros H. destruct (c !! o) as [plane|] eqn:Ho; [|done]. simpl in H.
    destruct (plane !! l) as [row|] eqn:Hl; [|done]. simpl in H.
    apply list_elem_of_join. eexists. split; [|by eapply elem_of_lookup_imap_2].
    apply list_elem_of_join. eexists. split; [|by eapply elem_of_lookup_imap_2].
    by apply (elem_of_lookup_imap_2 (λ r x, (o, l, r, x))).
Qed.

Lemma NoDup_ndenumerate c : NoDup ((ndenumerate c).*1).
Proof.
  unfold ndenumerate.
  apply (NoDup_join_imap _ fst (λ p : Idx3, p.1.1)).
  - intros o plane [[[o' l] r] x] H.
    apply list_elem_of_join in H as (l2 & H2 & H).
    apply elem_of_lookup_imap in H as (l' & row & -> & Hl).
    by apply elem_of_lookup_imap in H2 as (r' & y & [= -> -> -> ->] & Hr).
  - intros o plane. apply (NoDup_join_imap _ fst (λ p : Idx3, p.1.2)).
    + intros l row [[[o' l'] r] x] H.
      by apply elem_of_lookup_imap in H as (r' & y & [= -> -> -> ->] & Hr).
    + intros l row. rewrite fmap_imap.
      by apply (NoDup_imap_key _ (λ p : Idx3, p.2)).
Qed.
End rank3.

(** ** Arrays of floats *)

Section arrays.
Implicit Types (a b : Arr3) (p q : Idx3) (x : F32.t).

Lemma get3_set3_is_Some a p q x : is_Some (get3 (set3 a p x) q) ↔ is_Some (get3 a q).
Proof.
  destruct (decide (p = q)) as [->|]; [|by rewrite get3_set3_ne].
  rewrite get3_set3_eq. by rewrite fmap_is_Some.
Qed.

Lemma has_shape_get3 E R K a e r k :
  has_shape E R K a → is_Some (get3 a (e, r, k)) ↔ e < E ∧ r < R ∧ k < K.
Proof.
  intros [<- Hf]. unfold get3. split.
  - intros [x Hx]. destruct (a !! e) as [plane|] eqn:He; [|done].
    destruct (Forall_lookup_1 _ _ _ _ Hf He) as [<- Hrow]. simpl in Hx.
    destruct (plane !! r) as [row|] eqn:Hr; [|done].
    pose proof (Forall_lookup_1 _ _ _ _ Hrow Hr) as <-. simpl in Hx.
    repeat split; by eapply lookup_lt_Some.
  - intros (He & Hr & Hk). apply lookup_lt_is_Some in He as [plane He].
    rewrite He. simpl. destruct (Forall_lookup_1 _ _ _ _ Hf He) as [<- Hrow].
    apply lookup_lt_is_Some in Hr as [row Hr]. rewrite Hr. simpl.
    pose proof (Forall_lookup_1 _ _ _ _ Hrow Hr) as <-. by apply lookup_lt_is_Some.
Qed.

Lemma has_shape_set3 E R K a p x : has_shape E R K a → has_shape E R K (set3 a p x).
Proof.
  destruct p as [[e r] k]. intros [Hl Hf]. unfold set3.
  split; [by rewrite length_alter|]. apply Forall_alter; [done|]. intros plane _ [Hp Hrow].
  split; [by rewrite length_alter|]. apply Forall_alter; [done|].
  intros row _ <-. by rewrite length_insert.
Qed.

Lemma has_shape_zeros3 E R K : has_shape E R K (zeros3 E R K).
Proof.
  unfold zeros3.
  split; [by rewrite length_replicate|]. apply Forall_replicate.
  split; [by rewrite length_replicate|]. apply Forall_replicate.
  by rewrite length_replicate.
Qed.

Lemma get3_zeros3 E R K e r k :
  e < E → r < R → k < K → get3 (zeros3 E R K) (e, r, k) = Some F32.zero.
Proof.
  intros. unfold get3, zeros3. rewrite lookup_replicate_2 by done. simpl.
  rewrite lookup_replicate_2 by done. simpl. by rewrite lookup_replicate_2.
Qed.

Lemma has_shape_ext E R K a b :
  has_shape E R K a → has_shape E R K b →
  (∀ p, get3 a p = get3 b p) → a = b.
Proof.
  intros [Ha Hfa] [Hb Hfb] Heq. apply list_eq. intros e.
  destruct (a !! e) as [pa|] eqn:Hpa; last first.
  { symmetry. apply lookup_ge_None. apply lookup_ge_None in Hpa. lia. }
  destruct (lookup_lt_is_Some_2 b e) as [pb Hpb].
  { apply lookup_lt_Some in Hpa. lia. }
  rewrite Hpb. f_equal.
  destruct (Forall_lookup_1 _ _ _ _ Hfa Hpa) as [Hla Hra].
  destruct (Forall_lookup_1 _ _ _ _ Hfb Hpb) as [Hlb Hrb].
  apply list_eq. intros r.
  destruct (pa !! r) as [ra|] eqn:Hr; last first.
  { symmetry. apply lookup_ge_None. apply lookup_ge_None in Hr. lia. }
  destruct (lookup_lt_is_Some_2 pb r) as [rb Hrb'].
  { apply lookup_lt_Some in Hr. lia. }
  rewrite Hrb'. f_equal.
  pose proof (Forall_lookup_1 _ _ _ _ Hra Hr) as Hka.
  pose proof (Forall_lookup_1 _ _ _ _ Hrb Hrb') as Hkb.
  apply list_eq. intros k. specialize (Heq (e, r, k)). unfold get3 in Heq.
  rewrite Hpa, Hpb in Heq. simpl in Heq. by rewrite Hr, Hrb' in Heq.
Qed.

(** membership in nonzero *)
Lemma elem_of_nonzero a p :
  p ∈ nonzero a ↔ ∃ x, get3 a p = Some x ∧ F32.truthy x = true.
Proof.
  destruct p as [[e r] k]. unfold nonzero, get3. split.
  - intros H. apply list_elem_of_join in H as (l1 & H1 & H).
    apply elem_of_lookup_imap in H as (e' & plane & -> & He).
    apply list_elem_of_join in H1 as (l2 & H2 & H).
    apply elem_of_lookup_imap in H as (r' & row & -> & Hr).
    apply list_elem_of_join in H2 as (l3 & H3 & H).
    apply elem_of_lookup_imap in H as (k' & x & -> & Hk).
    destruct (F32.truthy x) eqn:Hx; [|by apply elem_of_nil in H3].
    apply list_elem_of_singleton in H3. simplify_eq.
    exists x. rewrite He. simpl. by rewrite Hr.
  - intros (x & H & Hx). destruct (a !! e) as [plane|] eqn:He; [|done]. simpl in H.
    destruct (plane !! r) as [row|] eqn:Hr; [|done]. simpl in H.
    apply list_elem_of_join. eexists. split; [|by eapply elem_of_lookup_imap_2].
    apply list_elem_of_join. eexists. split; [|by eapply elem_of_lookup_imap_2].
    apply list_elem_of_join. eexists. split; [|by eapply elem_of_lookup_imap_2].
    simpl. rewrite Hx. by apply list_elem_of_singleton.
Qed.
End arrays.

Lemma add_zero_l x : F32.truthy x = true → F32.add F32.zero x = x.
Proof. by destruct x as [[]|[]| |[] m e]. Qed.

Lemma truthy_false x : F32.truthy x = false ↔ F32.is_zero x.
Proof.
  split.
  - destruct x as [s|[]| |[] m e]; try done. by exists s.
  - by intros [[] ->].
Qed.

Lemma take3_cells (a : Arr3) idx :
  (∀ p, p ∈ idx → is_Some (get3 a p)) → take3 a idx = Ok (cell a <$> idx).
Proof.
  intros H. apply traverse_fmap. intros p Hp. unfold cell.
  by destruct (H p Hp) as [x ->].
Qed.

Lemma take3_Ok (a : Arr3) idx vals :
  take3 a idx = Ok vals →
  vals = cell a <$> idx ∧ ∀ p, p ∈ idx → is_Some (get3 a p).
Proof.
  intros H. apply traverse_Ok in H. induction H as [|p v idx vals Hp _ [-> IH]].
  - split; [done|]. intros p Hp. by apply elem_of_nil in Hp.
  - destruct (get3 a p) as [x|] eqn:Hx; [|done]. simpl in Hp. simplify_eq.
    split. { simpl. f_equal. unfold cell. by rewrite Hx. }
    intros q Hq.
    apply elem_of_cons in Hq as [->|Hq]; [by rewrite Hx|by apply IH].
Qed.

Lemma get3_put3_fmap (a : Arr3) idx (g : Idx3 → F32.t) q :
  get3 (put3 a idx (g <$> idx)) q =
  if decide (q ∈ idx) then const (g q) <$> get3 a q else get3 a q.
Proof.
  revert a. induction idx as [|p idx IH]; intros a.
  { rewrite decide_False; [done|]. by intros ?%elem_of_nil. }
  change (put3 a (p :: idx) (g <$> p :: idx))
    with (put3 (set3 a p (g p)) idx (g <$> idx)).
  rewrite IH. destruct (decide (q ∈ idx)) as [Hq|Hq].
  - rewrite decide_True by (by right).
    destruct (get3_set3_is_Some a p q (g p)) as [H1 H2].
    destruct (get3 a q) as [y|] eqn:Hy.
    + assert (is_Some (get3 (set3 a p (g p)) q)) as [z ->] by (apply H2; by eexists).
      done.
    + destruct (get3 (set3 a p (g p)) q) eqn:Hz; [|done].
      assert (is_Some (None : option F32.t)) as [? ?] by (apply H1; by eexists).
      done.
  - destruct (decide (p = q)) as [->|Hne].
    + rewrite decide_True by (by left). apply get3_set3_eq.
    + rewrite decide_False by (intros [?|?]%elem_of_cons; done).
      by apply get3_set3_ne.
Qed.

Lemma has_shape_put3 E R K (a : Arr3) idx vals :
  has_shape E R K a → has_shape E R K (put3 a idx vals).
Proof.
  unfold put3. generalize (zip idx vals). intros l. revert a.
  induction l as [|[p v] l IH]; intros a Ha; simpl; [done|].
  apply IH. by apply has_shape_set3.
Qed.

Lemma iadd_at_cells (a b : Arr3) idx :
  (∀ p, p ∈ idx → is_Some (get3 a p)) →
  iadd_at a idx (cell b <$> idx) =
  Ok (put3 a idx ((λ p, F32.add (cell a p) (cell b p)) <$> idx)).
Proof.
  intros H. unfold iadd_at. rewrite take3_cells by done.
  unfold mbind, res_bind. rewrite decide_True by (by rewrite length_fmap).
  by rewrite zip_with_fmap_same.
Qed.

Lemma sparse_roundtrip E R K (a : Arr3) :
  has_shape E R K a → no_neg_zero a →
  iadd_at (zeros3 E R K) (nonzero a) (cell a <$> nonzero a) = Ok a.
Proof.
  intros Ha Hnz. rewrite iadd_at_cells; last first.
  { intros [[e r] k] (x & Hx & _)%elem_of_nonzero.
    apply (has_shape_get3 E R K); [apply has_shape_zeros3|].
    apply (has_shape_get3 E R K a); [done|by rewrite Hx]. }
  f_equal. apply (has_shape_ext E R K); [|done|].
  { apply has_shape_put3, has_shape_zeros3. }
  intros [[e r] k]. rewrite get3_put3_fmap.
  destruct (get3 a (e, r, k)) as [x|] eqn:Hx.
  - assert (get3 (zeros3 E R K) (e, r, k) = Some F32.zero) as Hz.
    { assert (is_Some (get3 a (e, r, k))) as Hs by (by rewrite Hx).
      apply (has_shape_get3 E R K a) in Hs as (? & ? & ?); [|done].
      by apply get3_zeros3. }
    rewrite Hz. case_decide as Hin; simpl.
    + apply elem_of_nonzero in Hin as (y & Hy & Ht). simplify_eq.
      unfold cell. rewrite Hz, Hx. simpl. f_equal. by apply add_zero_l.
    + destruct (F32.truthy x) eqn:Ht.
      { destruct Hin. apply elem_of_nonzero. eauto. }
      apply truthy_false in Ht as [[] ->]; [|done]. by destruct (Hnz (e, r, k)).
  - assert (get3 (zeros3 E R K) (e, r, k) = None) as Hz.
    { destruct (get3 (zeros3 E R K) (e, r, k)) eqn:Hz; [|done].
      assert (is_Some (get3 a (e, r, k))) as [? ?]; [|congruence].
      apply (has_shape_get3 E R K); [done|].
      apply (has_shape_get3 E R K (zeros3 E R K)); [apply has_shape_zeros3|by rewrite Hz]. }
    rewrite Hz. by case_decide.
Qed.

(** ** Float32 cells *)

Lemma mul_above_emin x y : above_emin (F32.mul x y).
Proof.
  destruct x as [?|?| |sx mx ex], y as [?|?| |sy my ey]; try done.
  exact (binary_round_aux_exp F32.prec F32.emax (xorb sx sy) _ _ _).
Qed.

Lemma normalize_spec m e :
  (emin F32.prec F32.emax ≤ e)%Z →
  let r := binary_normalize F32.prec F32.emax m e false in
  r ≠ F32.neg_zero ∧ above_emin r.
Proof.
  intros He. destruct m as [|m|m]; simpl; [done| |].
  - pose proof (binary_round_spec F32.prec F32.emax eq_refl false m e He) as H.
    by destruct (binary_round F32.prec F32.emax false m e).
  - pose proof (binary_round_spec F32.prec F32.emax eq_refl true m e He) as H.
    by destruct (binary_round F32.prec F32.emax true m e).
Qed.

Lemma add_spec x y :
  above_emin x → above_emin y → x ≠ F32.neg_zero →
  F32.add x y ≠ F32.neg_zero ∧ above_emin (F32.add x y).
Proof.
  destruct x as [[]|?| |sx mx ex], y as [[]|[]| |sy my ey]; try done;
    try (by destruct s).
  intros Hx Hy _. apply normalize_spec. simpl in *. lia.
Qed.

Lemma get3_put3_inv (a : Arr3) idx vals q x :
  get3 (put3 a idx vals) q = Some x → get3 a q = Some x ∨ x ∈ vals.
Proof.
  unfold put3. revert a vals. induction idx as [|p idx IH]; intros a [|v vals] H;
    simpl in H; auto.
  apply IH in H as [H|H]; [|right; by right].
  destruct (decide (p = q)) as [->|Hne].
  - rewrite get3_set3_eq in H. destruct (get3 a q); simplify_eq/=. right; left.
  - rewrite get3_set3_ne in H by done. by left.
Qed.

Lemma wf3_zeros3 E R K : wf3 E R K (zeros3 E R K).
Proof.
  split; [apply has_shape_zeros3|]. intros [[e r] k] x H.
  assert (is_Some (get3 (zeros3 E R K) (e, r, k))) as Hs by (by rewrite H).
  apply (has_shape_get3 E R K) in Hs as (?&?&?); [|apply has_shape_zeros3].
  rewrite get3_zeros3 in H by done. by simplify_eq.
Qed.

Lemma iadd_at_wf E R K (a a' : Arr3) idx vals :
  wf3 E R K a → Forall above_emin vals →
  iadd_at a idx vals = Ok a' → wf3 E R K a'.
Proof.
  intros [Hs Hc] Hv H. unfold iadd_at in H.
  destruct (take3 a idx) as [old|] eqn:Hold; [|done]. simpl in H.
  case_decide; [|done]. simplify_eq. apply take3_Ok in Hold as [-> Hin].
  split; [by apply has_shape_put3|]. intros q x Hx.
  apply get3_put3_inv in Hx as [Hx|Hx]; [by eapply Hc|].
  apply elem_of_lookup_zip_with in Hx as (i & o & v & -> & Ho & Hv').
  apply list_lookup_fmap_Some in Ho as (p & -> & Hp).
  apply list_elem_of_lookup_2 in Hp. destruct (Hin p Hp) as [y Hy].
  unfold cell. rewrite Hy. simpl. destruct (Hc p y Hy) as [??].
  apply add_spec; [done| |done].
  eapply Forall_lookup_1; eauto.
Qed.

Lemma column_elem (m : list (list F32.t)) i col x :
  column m i = Ok col → x ∈ col → ∃ row, row ∈ m ∧ x ∈ row.
Proof.
  intros H%traverse_Ok Hx. induction H as [|row y m col Hy _ IH].
  - by apply elem_of_nil in Hx.
  - apply elem_of_cons in Hx as [->|Hx].
    + exists row. split; [left|].
      destruct (row !! i) eqn:Hr; simplify_eq/=. by eapply list_elem_of_lookup_2.
    + destruct (IH Hx) as (row' & ? & ?). exists row'. split; [by right|done].
Qed.

(** ** The task keeps its dense array well formed *)

Section task_inv.
Context (ri : RiskInput) (rm : RiskModel) (param : Param).
Local Abbreviation E := (length (hg_eids (hazard_getter ri))).
Local Abbreviation R := (num_rlzs (hazard_getter ri)).
Local Abbreviation K := (num_L rm * num_I param).

Lemma agg_step_wf l r indices losses a a' :
  Forall (Forall above_emin) losses →
  wf3 E R K a → agg_step rm param l r indices losses a = Ok a' → wf3 E R K a'.
Proof.
  intros Hl Ha H. unfold agg_step in H.
  eapply (foldM_inv (wf3 E R K)); [|exact Ha|exact H].
  intros s i s' _ Hs Hi. simpl in Hi.
  destruct (column losses i) as [col|] eqn:Hcol; [|done]. simpl in Hi.
  eapply iadd_at_wf; [exact Hs| |exact Hi].
  apply Forall_forall. intros x Hx.
  destruct (column_elem _ _ _ _ Hcol Hx) as (row & Hrow & Hxr).
  rewrite Forall_forall in Hl. specialize (Hl row Hrow).
  rewrite Forall_forall in Hl. by apply Hl.
Qed.

Lemma asset_step_wf l r lt indices lrs st st' aa :
  wf3 E R K (agg st) →
  asset_step ri rm param l r lt indices lrs st aa = Ok st' →
  wf3 E R K (agg st').
Proof.
  intros Ha H. unfold asset_step in H.
  destruct (lrs !! aa.1) as [ratios|]; [|done]. simpl in H.
  match type of H with (?c ≫= _) = _ => destruct c as [ac|]; [|done] end. simpl in H.
  match type of H with (?c ≫= _) = _ => destruct c as [avg'|]; [|done] end. simpl in H.
  match type of H with (?c ≫= _) = _ => destruct c as [agg'|] eqn:Hagg; [|done] end.
  simpl in H. simplify_eq. simpl.
  eapply agg_step_wf; [|exact Ha|exact Hagg].
  apply Forall_fmap, Forall_true. intros row. apply Forall_fmap, Forall_true.
  intros x. apply mul_above_emin.
Qed.

Lemma output_step_wf st st' out :
  wf3 E R K (agg st) → output_step ri rm param st out = Ok st' →
  wf3 E R K (agg st').
Proof.
  intros Ha H. unfold output_step in H. case_decide; [by simplify_eq|].
  eapply (foldM_inv (λ st, wf3 E R K (agg st))); [|exact Ha|exact H].
  intros s [l [lrs|]] s' _ Hs Hl; unfold loss_type_step in Hl; simpl in Hl;
    [|by simplify_eq].
  destruct (loss_types rm !! l) as [lt|]; [|done]. simpl in Hl.
  match type of Hl with (?c ≫= _) = _ => destruct c as [indices|]; [|done] end.
  simpl in Hl.
  eapply (foldM_inv (λ st, wf3 E R K (agg st))); [|exact Hs|exact Hl].
  intros ???? Hs1 H1. by eapply asset_step_wf.
Qed.

Lemma task_loop_wf outputs st :
  task_loop ri rm param outputs = Ok st → wf3 E R K (agg st).
Proof.
  intros H. eapply (foldM_inv (λ st, wf3 E R K (agg st))); [| |exact H].
  - intros ???? Hs H1. by eapply output_step_wf.
  - apply wf3_zeros3.
Qed.
End task_inv.

Lemma wf3_no_neg_zero E R K a : wf3 E R K a → no_neg_zero a.
Proof. intros [_ H] p Hp. by destruct (H p _ Hp). Qed.

Lemma event_based_risk_sparse ri rm param outputs result :
  event_based_risk ri rm param outputs = Ok result →
  ∃ st, task_loop ri rm param outputs = Ok st ∧
    res_agglosses result = sparse (agg st).
Proof.
  intros H. unfold event_based_risk in H.
  destruct (task_loop ri rm param outputs) as [st|] eqn:Hst; [|done]. simpl in H.
  destruct (take3 (agg st) (nonzero (agg st))) as [vals|] eqn:Hv; [|done].
  simpl in H. simplify_eq. simpl. exists st. split; [done|].
  by apply take3_Ok in Hv as [-> _].
Qed.

(** C3. Sparsity round trip: for the dense array [agg] that the task
    [event_based_risk] has built when it returns, the result holds
    [(idx, agg[idx])] with [idx = agg.nonzero()], and adding these values at
    these positions into a zero array of the same shape gives [agg] back,
    cell by cell. *)
Theorem sparsity_round_trip ri rm param outputs result :
  event_based_risk ri rm param outputs = Ok result →
  ∃ st, task_loop ri rm param outputs = Ok st ∧
    res_agglosses result = sparse (agg st) ∧
    iadd_at (zeros3 (length (hg_eids (hazard_getter ri)))
               (num_rlzs (hazard_getter ri)) (num_L rm * num_I param))
      (res_agglosses result).1 (res_agglosses result).2 = Ok (agg st).
Proof.
  intros (st & Hst & Hs)%event_based_risk_sparse. exists st.
  split; [done|]. split; [done|]. rewrite Hs.
  pose proof (task_loop_wf _ _ _ _ _ Hst) as Hwf.
  apply sparse_roundtrip; [apply Hwf|by eapply wf3_no_neg_zero].
Qed.

Lemma sparsity_round_trip_witness :
  ∃ st, task_loop (ex_riskinput [0]) ex_riskmodel ex_param ex_outputs0 = Ok st ∧
    res_agglosses ex_result0 = sparse (agg st) ∧
    iadd_at (zeros3 2 1 1) (res_agglosses ex_result0).1
      (res_agglosses ex_result0).2 = Ok (agg st).
Proof.
  apply (sparsity_round_trip (ex_riskinput [0]) ex_riskmodel ex_param
           ex_outputs0 ex_result0).
  vm_compute. reflexivity.
Defined.

(** ** The event loss table *)

Lemma elem_of_enumerate {A} (l : list A) i x :
  (i, x) ∈ enumerate l ↔ l !! i = Some x.
Proof.
  unfold enumerate. rewrite elem_of_lookup_imap. split.
  - by intros (j & y & [= -> ->] & H).
  - intros H. by exists i, x.
Qed.

Lemma elem_of_losses_by_event eids agglosses rec :
  rec ∈ losses_by_event eids agglosses ↔
  ∃ i r e plane lossv,
    eids !! i = Some e ∧ agglosses !! i = Some plane ∧
    plane !! r = Some lossv ∧ F32.truthy (F32.sum lossv) = true ∧
    rec = {| eid := e; rlzi := U16 r; loss := lossv |}.
Proof.
  unfold losses_by_event. rewrite list_elem_of_bind. split.
  - intros ([e plane] & H & Hz). simpl in H.
    apply list_elem_of_lookup in Hz as [i Hz].
    apply lookup_zip_Some in Hz as [He Hp].
    apply list_elem_of_bind in H as ([r lossv] & H & Hr).
    apply elem_of_enumerate in Hr. simpl in H.
    destruct (F32.truthy (F32.sum lossv)) eqn:Ht; [|by apply elem_of_nil in H].
    apply list_elem_of_singleton in H. by exists i, r, e, plane, lossv.
  - intros (i & r & e & plane & lossv & He & Hp & Hr & Ht & ->).
    exists (e, plane). split.
    + simpl. apply list_elem_of_bind. exists (r, lossv). split.
      * simpl. rewrite Ht. by apply list_elem_of_singleton.
      * by apply elem_of_enumerate.
    + apply (list_elem_of_lookup_2 _ i). by apply lookup_zip_Some.
Qed.

Lemma U16_small r : (N.of_nat r < 65536)%N → U16 r = N.of_nat r.
Proof. intros H. unfold U16. by apply N.mod_small. Qed.

Lemma add_zeros x y : F32.is_zero x → F32.is_zero y → F32.is_zero (F32.add x y).
Proof. intros [[] ->] [[] ->]; by eexists. Qed.

Lemma foldl_add_zeros xs : ∀ z,
  F32.is_zero z → Forall F32.is_zero xs → F32.is_zero (foldl F32.add z xs).
Proof.
  induction xs as [|x xs IH]; intros z Hz Hxs; [done|].
  inversion_clear Hxs as [|?? Hx Hxs']. simpl. apply IH; [|done].
  by apply add_zeros.
Qed.

Lemma add8_zeros r : Forall F32.is_zero r → F32.is_zero (F32.add8 r).
Proof.
  intros Hr. unfold F32.add8.
  do 8 (destruct r as [|? r]; [by exists false|];
        apply Forall_cons in Hr as [? Hr]).
  destruct r; [|by exists false]. repeat apply add_zeros; done.
Qed.

Lemma zip_with_add_zeros acc row :
  Forall F32.is_zero acc → Forall F32.is_zero row →
  Forall F32.is_zero (zip_with F32.add acc row).
Proof.
  intros Hacc. revert row.
  induction Hacc as [|a acc Ha Hacc IH]; intros [|x row] Hrow; simpl;
    try constructor.
  - inversion_clear Hrow. by apply add_zeros.
  - inversion_clear Hrow. by apply IH.
Qed.

Lemma block_sum_zeros xs : Forall F32.is_zero xs → F32.is_zero (F32.block_sum xs).
Proof.
  intros Hxs. unfold F32.block_sum.
  apply foldl_add_zeros; [|by apply Forall_drop].
  apply add8_zeros.
  assert (Forall F32.is_zero (drop 8 xs)) as Hd by (by apply Forall_drop).
  assert (Forall F32.is_zero (take 8 xs)) as Ht by (by apply Forall_take).
  revert Hd Ht. generalize (drop 8 xs) (take 8 xs) (length xs / 8 - 1).
  intros l acc k. revert l acc.
  induction k as [|k IH]; intros l acc Hl Hacc; [done|].
  simpl. apply IH; [by apply Forall_drop|].
  apply zip_with_add_zeros; [done|by apply Forall_take].
Qed.

Lemma pairwise_sum_zeros fuel : ∀ xs,
  Forall F32.is_zero xs → F32.is_zero (F32.pairwise_sum fuel xs).
Proof.
  induction fuel as [|fuel IH]; intros xs Hxs; simpl.
  - case_decide; [apply foldl_add_zeros; [by exists false|done]|].
    case_decide; by apply block_sum_zeros.
  - case_decide; [apply foldl_add_zeros; [by exists false|done]|].
    case_decide; [by apply block_sum_zeros|].
    apply add_zeros; apply IH; [by apply Forall_take|by apply Forall_drop].
Qed.

Lemma sum_zeros xs : Forall F32.is_zero xs → F32.is_zero (F32.sum xs).
Proof.
  intros Hxs. unfold F32.sum. apply add_zeros; [by exists false|].
  by apply pairwise_sum_zeros.
Qed.

(** ** The summation of numpy *)

Lemma pairwise_sum_small fuel xs :
  length xs ≤ 128 →
  F32.pairwise_sum fuel xs =
    if decide (length xs < 8) then F32.naive_sum xs else F32.block_sum xs.
Proof.
  intros Hn. destruct fuel; cbn [F32.pairwise_sum];
    repeat case_decide; done || lia.
Qed.

(** below 8 elements the sum is the one in index order *)
Lemma sum_short xs :
  length xs < 8 → F32.sum xs = F32.add F32.zero (foldl F32.add F32.zero xs).
Proof.
  intros Hn. unfold F32.sum. rewrite pairwise_sum_small by lia.
  by rewrite decide_True by lia.
Qed.

(** the splitting of [pairwise_sum] ends before the fuel does: any fuel
    from the length of the vector on gives the same sum *)
Lemma pairwise_sum_fuel fuel : ∀ fuel' xs,
  length xs ≤ fuel → length xs ≤ fuel' →
  F32.pairwise_sum fuel xs = F32.pairwise_sum fuel' xs.
Proof.
  induction fuel as [|fuel IH]; intros fuel' xs Hf Hf'.
  { by rewrite !pairwise_sum_small by lia. }
  destruct (decide (length xs ≤ 128)) as [Hn|Hn].
  { by rewrite !pairwise_sum_small by lia. }
  destruct fuel' as [|fuel']; [lia|]. cbn [F32.pairwise_sum].
  rewrite !(decide_False (P := length xs < 8)) by lia.
  rewrite !(decide_False (P := length xs ≤ 128)) by lia.
  pose proof (Nat.mod_upper_bound (length xs / 2) 8) as Hm.
  assert (64 ≤ length xs / 2) as Hhalf
    by (apply Nat.div_le_lower_bound; lia).
  assert (length xs / 2 < length xs) as Hlt
    by (apply Nat.div_lt; lia).
  f_equal; apply IH; rewrite ?length_take, ?length_drop; lia.
Qed.

(** from 8 elements on the sum is not the one in index order: with
    [2^24] followed by eight ones, every addition in index order is lost
    to rounding, while the partial sums of the pairwise summation keep
    them *)
Lemma sum_pairwise_example :
  let xs := F32.of_Z 16777216 :: replicate 8 (F32.of_Z 1) in
  F32.sum xs = F32.of_Z 16777224 ∧
  foldl F32.add F32.zero xs = F32.of_Z 16777216.
Proof. split; vm_compute; reflexivity. Qed.

(** sortedness of a comprehension *)
Lemma StronglySorted_bind {A B} (RA : relation A) (RB : relation B)
    (f : A → list B) l :
  StronglySorted RA l →
  (∀ x, x ∈ l → StronglySorted RB (f x)) →
  (∀ x y b1 b2, x ∈ l → y ∈ l → RA x y → b1 ∈ f x → b2 ∈ f y → RB b1 b2) →
  StronglySorted RB (l ≫= f).
Proof.
  intros Hl Hf HR. induction Hl as [|x l Hl IH Hx]; csimpl; [constructor|].
  apply StronglySorted_app_2.
  - intros b1 b2 Hb1 Hb2. apply list_elem_of_bind in Hb2 as (y & Hb2 & Hy).
    eapply (HR x y); [by left|by right| |done..].
    rewrite Forall_forall in Hx. by apply Hx.
  - apply Hf. by left.
  - apply IH.
    + intros y Hy. apply Hf. by right.
    + intros y z b1 b2 Hy Hz. apply HR; by right.
Qed.

Lemma StronglySorted_zip_fst {A B} (R : relation A) (l : list A) (k : list B) :
  StronglySorted R l → StronglySorted (λ a b, R a.1 b.1) (zip l k).
Proof.
  intros Hl. revert k. induction Hl as [|x l Hl IH Hx]; intros [|y k]; simpl;
    try constructor; [done|].
  apply Forall_forall. intros [x' y'] Hin.
  apply list_elem_of_lookup in Hin as [i Hi].
  apply lookup_zip_Some in Hi as [Hi _]. simpl.
  eapply Forall_lookup_1 in Hx; eauto.
Qed.

Lemma StronglySorted_imap_fst {A} (l : list A) n :
  StronglySorted (λ a b : nat * A, a.1 < b.1) (imap (λ i x, (n + i, x)) l).
Proof.
  revert n. induction l as [|x l IH]; intros n; [constructor|].
  rewrite imap_cons. constructor.
  - rewrite (imap_ext _ (λ i x, (S n + i, x))); [apply IH|].
    intros i y _. simpl. f_equal. lia.
  - apply Forall_forall. intros [j y] Hin.
    apply elem_of_lookup_imap in Hin as (i & z & [= -> ->] & _). simpl. lia.
Qed.

Lemma StronglySorted_enumerate {A} (l : list A) :
  StronglySorted (λ a b : nat * A, a.1 < b.1) (enumerate l).
Proof. apply (StronglySorted_imap_fst l 0). Qed.

Lemma StronglySorted_le_lt (l : list N) :
  StronglySorted N.le l → NoDup l → StronglySorted N.lt l.
Proof.
  induction 1 as [|x l Hl IH Hx]; intros Hnd; [constructor|].
  apply NoDup_cons in Hnd as [Hx' Hnd]. constructor; [by apply IH|].
  apply Forall_forall. intros y Hy. rewrite Forall_forall in Hx.
  specialize (Hx y Hy). assert (x ≠ y) by (by intros ->). lia.
Qed.

Lemma py_sorted_sorted l : NoDup l → StronglySorted N.lt (py_sorted l).
Proof.
  intros Hnd. apply StronglySorted_le_lt.
  - apply StronglySorted_merge_sort; [apply _|]. intros x y. lia.
  - unfold py_sorted. by rewrite merge_sort_Permutation.
Qed.

Lemma losses_by_event_sorted eids agglosses :
  StronglySorted N.lt eids →
  Forall (λ plane, (N.of_nat (length plane) ≤ 65536)%N) agglosses →
  StronglySorted elt_lt (losses_by_event eids agglosses).
Proof.
  intros He Hr. unfold losses_by_event.
  eapply StronglySorted_bind; [by apply StronglySorted_zip_fst| |].
  - intros [e plane] Hin. simpl.
    assert (N.of_nat (length plane) ≤ 65536)%N as Hlen.
    { apply list_elem_of_lookup in Hin as [i Hi].
      apply lookup_zip_Some in Hi as [_ Hi].
      by eapply (Forall_lookup_1 _ _ _ _ Hr). }
    eapply StronglySorted_bind; [apply StronglySorted_enumerate| |].
    + intros [r lossv] _. simpl. case_match; repeat constructor.
    + intros [r1 l1] [r2 l2] b1 b2 H1%elem_of_enumerate H2%elem_of_enumerate Hlt.
      simpl in *. intros Hb1 Hb2.
      destruct (F32.truthy (F32.sum l1)); [|by apply elem_of_nil in Hb1].
      destruct (F32.truthy (F32.sum l2)); [|by apply elem_of_nil in Hb2].
      apply list_elem_of_singleton in Hb1 as ->.
      apply list_elem_of_singleton in Hb2 as ->.
      right. simpl. split; [done|].
      apply lookup_lt_Some in H1, H2. rewrite !U16_small by lia. lia.
  - intros [e1 p1] [e2 p2] b1 b2 _ _ Hlt Hb1 Hb2. simpl in *.
    apply list_elem_of_bind in Hb1 as ([r1 l1] & Hb1 & _).
    apply list_elem_of_bind in Hb2 as ([r2 l2] & Hb2 & _). simpl in *.
    destruct (F32.truthy (F32.sum l1)); [|by apply elem_of_nil in Hb1].
    destruct (F32.truthy (F32.sum l2)); [|by apply elem_of_nil in Hb2].
    apply list_elem_of_singleton in Hb1 as ->.
    apply list_elem_of_singleton in Hb2 as ->. by left.
Qed.

(** ** The [ebr] task keeps positive losses only *)

Lemma cube_Forall_get P (c : Cube) p cell :
  cube_Forall P c → get3 c p = Some cell → Forall (Forall P) cell.
Proof.
  destruct p as [[o l] r]. intros Hc H. unfold get3 in H.
  destruct (c !! o) as [plane|] eqn:Ho; [|done]. simpl in H.
  destruct (plane !! l) as [row|] eqn:Hl; [|done]. simpl in H.
  pose proof (Forall_lookup_1 _ _ _ _ Hc Ho) as Hp.
  pose proof (Forall_lookup_1 _ _ _ _ Hp Hl) as Hr.
  by eapply (Forall_lookup_1 _ _ _ _ Hr).
Qed.

Lemma cube_Forall_set P (c : Cube) p cell :
  cube_Forall P c → Forall (Forall P) cell → cube_Forall P (set3 c p cell).
Proof.
  destruct p as [[o l] r]. intros Hc H. unfold set3.
  apply Forall_alter; [done|]. intros plane _ Hp.
  apply Forall_alter; [done|]. intros row _ Hr.
  by apply Forall_insert.
Qed.

Lemma cube_append_Forall P (c c' : Cube) p x :
  cube_Forall P c → Forall P x → cube_append c p x = Ok c' → cube_Forall P c'.
Proof.
  intros Hc Hx H. unfold cube_append in H.
  destruct (get3 c p) as [cell|] eqn:Hg; [|done]. simpl in H. simplify_eq.
  apply cube_Forall_set; [done|]. apply Forall_app. split; [|by constructor].
  by eapply cube_Forall_get.
Qed.

Lemma ebr_positive lts rlzs outputs c :
  ebr lts rlzs outputs = Ok c →
  cube_Forall (λ rec, F32.gt0 (rloss rec) = true) c.
Proof.
  set (P := λ rec, F32.gt0 (rloss rec) = true).
  intros H. unfold ebr in H.
  match type of H with (?c ≫= _) = _ => destruct c as [losses|] eqn:Hl; [|done] end.
  simpl in H. simplify_eq.
  assert (cube_Forall P losses) as Hc.
  { eapply (foldM_inv (cube_Forall P)); [| |exact Hl].
    - intros s obr s' _ Hs Ho.
      eapply (foldM_inv (cube_Forall P)); [|exact Hs|exact Ho].
      intros s1 [rlz out] s1' _ Hs1 H1. unfold ebr_output in H1. simpl in H1.
      match type of H1 with (?c ≫= _) = _ => destruct c as [lt|]; [|done] end.
      simpl in H1.
      eapply (foldM_inv (cube_Forall P)); [|exact Hs1|exact H1].
      intros s2 [[rid loss] ins] s2' _ Hs2 H2. unfold ebr_rupture in H2.
      match type of H2 with (?c ≫= _) = _ => destruct c as [s3|] eqn:H3; [|done] end.
      simpl in H2.
      assert (cube_Forall P s3) as Hs3.
      { destruct (F32.gt0 loss) eqn:Hg; [|by simplify_eq].
        eapply cube_append_Forall; [exact Hs2| |exact H3]. by repeat constructor. }
      destruct (F32.gt0 ins) eqn:Hg; [|by simplify_eq].
      eapply cube_append_Forall; [exact Hs3| |exact H2]. by repeat constructor.
    - unfold cube. repeat apply Forall_replicate. constructor. }
  unfold cube_Forall in *. apply Forall_fmap. eapply Forall_impl; [exact Hc|].
  intros plane Hp. apply Forall_fmap. eapply Forall_impl; [exact Hp|].
  intros row Hr. apply Forall_fmap. eapply Forall_impl; [exact Hr|].
  intros cell Hcell. simpl. unfold compact. destruct cell as [|a cell]; [constructor|].
  constructor; [|constructor]. apply Forall_forall. intros x Hx.
  apply list_elem_of_join in Hx as (arr & Hx & Harr).
  rewrite Forall_forall in Hcell. specialize (Hcell arr Harr).
  rewrite Forall_forall in Hcell. by apply Hcell.
Qed.

Lemma bind_nil_all {A B} (f : A → list B) l :
  (∀ x, x ∈ l → f x = []) → l ≫= f = [].
Proof.
  induction l as [|x l IH]; intros Hf; [done|].
  rewrite bind_cons, (Hf x) by (by left). simpl. apply IH.
  intros y Hy. apply Hf. by right.
Qed.

(** a comprehension to which one position only contributes *)
Lemma bind_only {A B} (f : A → list B) l i x :
  l !! i = Some x → (∀ j y, l !! j = Some y → j ≠ i → f y = []) →
  l ≫= f = f x.
Proof.
  intros Hi Hother. rewrite <- (take_drop_middle l i x Hi) at 1.
  rewrite bind_app, bind_cons.
  rewrite (bind_nil_all f (take i l)), (bind_nil_all f (drop (S i) l)).
  - by rewrite app_nil_r.
  - intros y Hy. apply list_elem_of_lookup in Hy as [k Hk].
    rewrite lookup_drop in Hk. apply (Hother _ _ Hk). lia.
  - intros y Hy. apply list_elem_of_lookup in Hy as [k Hk].
    apply lookup_take_Some in Hk as [Hk Hlt]. apply (Hother _ _ Hk). lia.
Qed.

Lemma filter_mbind {A B} (P : B → Prop) `{!∀ x, Decision (P x)}
    (f : A → list B) l :
  filter P (l ≫= f) = l ≫= (λ x, filter P (f x)).
Proof.
  induction l as [|x l IH]; [done|].
  by rewrite !bind_cons, filter_app, IH.
Qed.

(** the records of the table for one event and one realization *)
Lemma losses_by_event_filter eids agglosses i e plane r lossv :
  NoDup eids → (N.of_nat (length plane) ≤ 65536)%N →
  eids !! i = Some e → agglosses !! i = Some plane → plane !! r = Some lossv →
  filter (λ rec, eid rec = e ∧ rlzi rec = N.of_nat r)
    (losses_by_event eids agglosses) =
  if F32.truthy (F32.sum lossv)
  then [{| eid := e; rlzi := N.of_nat r; loss := lossv |}] else [].
Proof.
  intros Hnd Hlen He Hp Hr. unfold losses_by_event.
  rewrite filter_mbind. rewrite (bind_only _ _ i (e, plane)).
  - cbn [fst snd]. rewrite filter_mbind.
    rewrite (bind_only _ _ r (r, lossv)).
    + cbn [fst snd]. apply lookup_lt_Some in Hr as Hlt.
      rewrite U16_small by lia.
      destruct (F32.truthy (F32.sum lossv)); [|done].
      by rewrite filter_cons_True.
    + unfold enumerate. by rewrite list_lookup_imap, Hr.
    + intros j [j' l'] Hj Hne. unfold enumerate in Hj.
      rewrite list_lookup_imap in Hj.
      destruct (plane !! j) as [l''|] eqn:Hl; [|done]. simpl in Hj.
      simplify_eq. cbn [fst snd].
      destruct (F32.truthy (F32.sum l')); [|done].
      rewrite filter_cons_False; [done|]. cbn [eid rlzi].
      apply lookup_lt_Some in Hl. rewrite U16_small by lia.
      intros [_ Heq]. apply Nat2N.inj in Heq. done.
  - by apply lookup_zip_Some.
  - intros j [e' plane'] Hj Hne. apply lookup_zip_Some in Hj as [He' Hp'].
    cbn [fst snd]. rewrite filter_mbind. apply bind_nil_all.
    intros [r' l'] _. cbn [fst snd].
    destruct (F32.truthy (F32.sum l')); [|done].
    rewrite filter_cons_False; [done|]. cbn [eid rlzi].
    intros [-> _]. apply Hne. by eapply NoDup_lookup.
Qed.

(** C2. Sparse filtering: for an event of the (distinct) event ids and its
    plane of the aggregate array, the table [losses_by_event] has a record for
    (event, realization) if and only if the sum of the loss vector of the pair
    is nonzero, and then it has exactly one, which carries the loss vector;
    every record of the event is the one of a realization whose loss vector
    has a nonzero sum; if all the losses of the event are zero, no record
    carries its id; and every record that the task [ebr] returns has a loss
    that is strictly positive. The number of realizations fits the [U16]
    field. *)
Theorem sparse_filtering eids agglosses i e plane
    (Hnd : NoDup eids) (Hlen : (N.of_nat (length plane) ≤ 65536)%N)
    (He : eids !! i = Some e) (Hp : agglosses !! i = Some plane) :
  (∀ r lossv, plane !! r = Some lossv →
     ((∃ rec, rec ∈ losses_by_event eids agglosses ∧
              eid rec = e ∧ rlzi rec = N.of_nat r) ↔
      F32.truthy (F32.sum lossv) = true) ∧
     filter (λ rec, eid rec = e ∧ rlzi rec = N.of_nat r)
       (losses_by_event eids agglosses) =
     if F32.truthy (F32.sum lossv)
     then [{| eid := e; rlzi := N.of_nat r; loss := lossv |}] else []) ∧
  (∀ rec, rec ∈ losses_by_event eids agglosses → eid rec = e →
     ∃ r, plane !! r = Some (loss rec) ∧ rlzi rec = N.of_nat r ∧
          F32.truthy (F32.sum (loss rec)) = true) ∧
  (Forall (Forall F32.is_zero) plane →
     ∀ rec, rec ∈ losses_by_event eids agglosses → eid rec ≠ e) ∧
  (∀ lts rlzs outputs c p cell arr rec,
     ebr lts rlzs outputs = Ok c → get3 c p = Some cell →
     arr ∈ cell → rec ∈ arr → F32.gt0 (rloss rec) = true).
Proof.
  split; [|split; [|split]].
  - intros r lossv Hr.
    pose proof (losses_by_event_filter _ _ _ _ _ _ _ Hnd Hlen He Hp Hr) as Hf.
    split; [|done]. split.
    + intros (rec & Hin & Heid & Hrl).
      assert (rec ∈ filter (λ rec, eid rec = e ∧ rlzi rec = N.of_nat r)
                      (losses_by_event eids agglosses)) as Hin'
        by (by apply list_elem_of_filter).
      rewrite Hf in Hin'. destruct (F32.truthy (F32.sum lossv)); [done|].
      by apply elem_of_nil in Hin'.
    + intros Ht. rewrite Ht in Hf.
      exists {| eid := e; rlzi := N.of_nat r; loss := lossv |}.
      assert ({| eid := e; rlzi := N.of_nat r; loss := lossv |} ∈
              filter (λ rec, eid rec = e ∧ rlzi rec = N.of_nat r)
                (losses_by_event eids agglosses)) as Hin
        by (rewrite Hf; by left).
      apply list_elem_of_filter in Hin as [_ Hin]. done.
  - intros rec Hin <-.
    apply elem_of_losses_by_event in Hin
      as (i' & r' & e' & plane' & lossv' & He' & Hp' & Hr' & Ht & ->).
    simpl in *. pose proof (NoDup_lookup _ _ _ _ Hnd He He') as ->.
    simplify_eq. exists r'. split; [done|]. split; [|done].
    apply lookup_lt_Some in Hr'. apply U16_small. lia.
  - intros Hz rec Hin <-.
    apply elem_of_losses_by_event in Hin
      as (i' & r' & e' & plane' & lossv' & He' & Hp' & Hr' & Ht & ->).
    simpl in *. pose proof (NoDup_lookup _ _ _ _ Hnd He He') as ->.
    simplify_eq. pose proof (Forall_lookup_1 _ _ _ _ Hz Hr') as Hl.
    apply sum_zeros in Hl. apply truthy_false in Hl. congruence.
  - intros lts rlzs outputs c p cell arr rec H Hc Harr Hrec.
    apply ebr_positive in H. pose proof (cube_Forall_get _ _ _ _ H Hc) as Hf.
    rewrite Forall_forall in Hf. specialize (Hf arr Harr).
    rewrite Forall_forall in Hf. by apply Hf.
Qed.

Lemma sparse_filtering_witness :
  filter (λ rec, eid rec = 7%N ∧ rlzi rec = N.of_nat 0)
    (losses_by_event [5; 7]%N (c_agglosses ex_calc)) =
    [{| eid := 7; rlzi := 0; loss := [F32.of_Z 30] |}] ∧
  (∀ rec, rec ∈ losses_by_event [5; 7]%N (c_agglosses ex_calc) → eid rec ≠ 5%N).
Proof.
  assert (NoDup [5; 7]%N) as Hnd
    by (apply NoDup_ListNoDup; repeat constructor; simpl; intuition discriminate).
  assert (N.of_nat 1 ≤ 65536)%N as Hlen by (vm_compute; discriminate).
  destruct (sparse_filtering [5; 7]%N (c_agglosses ex_calc) 1 7%N
              [[F32.of_Z 30]] Hnd Hlen eq_refl eq_refl) as (H1 & _ & _ & _).
  destruct (sparse_filtering [5; 7]%N (c_agglosses ex_calc) 0 5%N
              [[F32.zero]] Hnd Hlen eq_refl eq_refl) as (_ & _ & H2 & _).
  split.
  - exact (proj2 (H1 0 [F32.of_Z 30] eq_refl)).
  - apply H2. repeat constructor. by exists false.
Defined.

(** ** [save_losses] keeps the shape of the accumulators *)

Lemma iadd_at_shape E R K (a a' : Arr3) idx vals :
  has_shape E R K a → iadd_at a idx vals = Ok a' → has_shape E R K a'.
Proof.
  intros Hs H. unfold iadd_at in H.
  destruct (take3 a idx) as [old|]; [|done]. simpl in H.
  case_decide; [|done]. simplify_eq. by apply has_shape_put3.
Qed.

Lemma save_losses_frame c dic c' :
  save_losses c dic = Ok c' →
  c_eids c' = c_eids c ∧ c_R c' = c_R c ∧ c_A c' = c_A c ∧
  c_E c' = c_E c ∧ c_eps_shape c' = c_eps_shape c ∧
  riskmodel_ c' = riskmodel_ c ∧ vals c' = vals c ∧
  datastore c' = datastore c ∧
  save_agglosses (c_agglosses c) (res_agglosses dic) = Ok (c_agglosses c').
Proof.
  intros H. unfold save_losses in H.
  destruct (save_agglosses _ _) as [a|]; [|done]. simpl in H.
  match type of H with (?c ≫= _) = _ => destruct c as [d|]; [|done] end.
  simpl in H. by simplify_eq.
Qed.

Lemma combine_all_frame c results c' E R K :
  combine_all c results = Ok c' → has_shape E R K (c_agglosses c) →
  c_eids c' = c_eids c ∧ c_R c' = c_R c ∧ c_A c' = c_A c ∧
  c_eps_shape c' = c_eps_shape c ∧ has_shape E R K (c_agglosses c').
Proof.
  intros H Hs.
  eapply (foldM_inv (λ c', c_eids c' = c_eids c ∧ c_R c' = c_R c ∧
    c_A c' = c_A c ∧ c_eps_shape c' = c_eps_shape c ∧
    has_shape E R K (c_agglosses c'))); [| |exact H].
  - intros s dic s' _ (H1 & H2 & H3 & H4 & Hs') Hd.
    apply save_losses_frame in Hd as (E1 & E2 & E3 & _ & E4 & _ & _ & _ & Ha).
    rewrite E1, E2, E3, E4. do 4 (split; [done|]). by eapply iadd_at_shape.
  - done.
Qed.

Lemma has_shape_planes E R K (a : Arr3) :
  has_shape E R K a → Forall (λ plane, length plane = R) a.
Proof. intros [_ H]. eapply Forall_impl; [exact H|]. by intros ? [? _]. Qed.

(** C4. The records of [losses_by_event] are in ascending order of
    [(eid, rlzi)]: after [pre_execute] and any sequence of task results, the
    event ids of the calculator are the sorted event ids, the epsilons are
    asked for as many events, the aggregate array has one plane per event,
    and each record carries the id of the event of its plane. The event ids
    are distinct and the number of realizations fits the [U16] field. *)
Theorem elt_ascending oq env c results c'
    (Hpre : pre_execute oq env = Ok c)
    (Hcomb : combine_all c results = Ok c')
    (Hnd : NoDup (c_eids c)) (HR : (N.of_nat (c_R c) ≤ 65536)%N) :
  StronglySorted elt_lt (losses_by_event (c_eids c') (c_agglosses c')) ∧
  (∃ events, c_eids c' = py_sorted events) ∧
  StronglySorted N.lt (c_eids c') ∧
  c_eps_shape c' = (c_A c', length (c_eids c')) ∧
  length (c_agglosses c') = length (c_eids c') ∧
  (∀ rec, rec ∈ losses_by_event (c_eids c') (c_agglosses c') →
     ∃ i, c_eids c' !! i = Some (eid rec) ∧ i < length (c_agglosses c')).
Proof.
  unfold pre_execute in Hpre.
  destruct (find_parent oq env) as [parent|]; [|done]. simpl in Hpre.
  set (evs := match parent with
              | Some p => hz_events_eid p | None => env_events env end).
  assert (c_eids c = py_sorted evs ∧ c_eps_shape c = (c_A c, length (c_eids c)) ∧
    has_shape (length (c_eids c)) (c_R c)
      (num_L (env_riskmodel env) * ((if oq_insured_losses oq then 1 else 0) + 1))
      (c_agglosses c)) as (Heids & Heps & Hshape).
  { simplify_eq. simpl. subst evs. destruct parent; repeat split;
      try apply has_shape_zeros3; by rewrite ?length_replicate. }
  destruct (combine_all_frame _ _ _ _ _ _ Hcomb Hshape)
    as (He' & HR' & HA' & Heps' & Hshape').
  assert (StronglySorted N.lt (c_eids c')) as Hsorted.
  { rewrite He', Heids. apply py_sorted_sorted.
    rewrite Heids in Hnd. unfold py_sorted in Hnd.
    by rewrite merge_sort_Permutation in Hnd. }
  split; [|split; [|split; [|split; [|split]]]].
  - apply losses_by_event_sorted; [done|].
    eapply Forall_impl; [by eapply has_shape_planes|]. by intros ? ->.
  - exists evs. by rewrite He'.
  - done.
  - by rewrite Heps', HA', He'.
  - rewrite He'. by destruct Hshape' as [-> _].
  - intros rec (i & r & e & plane & lossv & Hi & Hp & _ & _ & ->)%elem_of_losses_by_event.
    exists i. split; [done|]. by eapply lookup_lt_Some.
Qed.

Lemma elt_ascending_witness :
  StronglySorted elt_lt (losses_by_event (c_eids ex_calc) (c_agglosses ex_calc)).
Proof.
  apply (elt_ascending (ex_oq 1) ex_env ex_calc0 [ex_result0; ex_result1] ex_calc).
  - vm_compute. reflexivity.
  - vm_compute. reflexivity.
  - apply NoDup_ListNoDup; repeat constructor; simpl; intuition discriminate.
  - vm_compute. discriminate.
Defined.

(** ** Absent loss ratios *)

(** C5. When the array of loss ratios of a loss type is absent ([None]),
    the step of the task for this loss type leaves the accumulators (the
    aggregate array, the average losses, the curves) as they are: an output
    is processed as if its absent entries were not there. *)
Theorem absent_ratios_skipped ri rm param out st l :
  loss_type_step ri rm param out st (l, None) = Ok st ∧
  output_step ri rm param st out =
    if decide (length (out_eids out) = 0) then Ok st
    else foldM (loss_type_step ri rm param out) st
           (filter (λ lr, is_Some lr.2) (enumerate (out_ratios out))).
Proof.
  split; [done|]. unfold output_step. case_decide; [done|].
  apply foldM_filter. intros s [l' [x|]] Hx; [|done].
  destruct Hx. by eexists.
Qed.

(** An absent array of loss ratios is not an array of zeros: with the ratios
    absent the accumulators stay as they are, with zero ratios the asset gets
    an entry in the average losses *)
Example absent_is_not_zero :
  let out ratios :=
    {| out_eids := [5]%N; out_rlzi := 0; out_assets := [ex_asset 1 20];
       out_ratios := [ratios] |} in
  let st := task_init (ex_riskinput [1]) ex_riskmodel ex_param in
  output_step (ex_riskinput [1]) ex_riskmodel ex_param st (out None) = Ok st ∧
  (avg <$> output_step (ex_riskinput [1]) ex_riskmodel ex_param st
             (out (Some [[[F32.zero]]]))) =
    Ok {[(0, 0) := AccDict {[1 := F32.zero]}]}.
Proof. split; vm_compute; reflexivity. Qed.

(** ** The size of the epsilons *)

Lemma length_all_ruptures rbt : length (all_ruptures rbt) = size rbt.
Proof.
  unfold all_ruptures.
  by rewrite length_fmap, merge_sort_Permutation, length_map_to_list.
Qed.

(** C7 (as amended). The number of epsilons asked for each asset is the
    minimum of the number of ruptures and of [epsilon_sampling], whatever the
    number of assets: when there are more ruptures than the cap, it is the
    cap. *)
Theorem epsilon_samples A sescollection cap n total
    (H : size_epsilons A sescollection cap = Ok (n, total)) :
  ∃ rbt, rup_by_tag sescollection = Ok rbt ∧
    n = size rbt `min` cap ∧ total = n * A ∧
    (cap < size rbt → n = cap).
Proof.
  unfold size_epsilons in H.
  destruct (rup_by_tag sescollection) as [rbt|]; [|done]. simpl in H.
  rewrite length_all_ruptures in H. simplify_eq.
  exists rbt. repeat split; lia.
Qed.

Lemma epsilon_samples_witness :
  ∃ rbt, rup_by_tag ex_sescollection = Ok rbt ∧
    2 = size rbt `min` 2 ∧ 2 = 2 * 1 ∧ (2 < size rbt → 2 = 2).
Proof.
  apply (epsilon_samples 1 ex_sescollection 2 2 2). vm_compute. reflexivity.
Defined.

(** C7, as stated, fails: with one asset, three ruptures and a cap of two,
    two epsilons are asked for the asset, more than [min(A, cap) = 1]. *)
Lemma epsilon_samples_exceed_assets :
  size_epsilons 1 ex_sescollection 2 = Ok (2, 2) ∧ ¬ (2 ≤ 1 `min` 2).
Proof. split; [vm_compute; reflexivity|simpl; lia]. Qed.

(** ** Parent parameters *)

(** C8. With a [hazard_calculation_id] that is true as a condition (an id
    other than [None] and 0), when the investigation time or the
    minimum intensity of the parent calculation differs from the one of the
    job, [pre_execute] raises an exception and no calculator state is
    produced; without a GMF file in the inputs the exception is the
    [ValueError] of the parameter check, of the investigation time if that
    one differs and else of the minimum intensity; with a GMF file it is
    the [AssertionError] of the first branch. *)
Theorem parent_mismatch oq env
    (Hhc : hc_given oq = true)
    (Hne : F64.ne (investigation_time (hz_oqparam (env_parent env)))
             (investigation_time oq) = true ∨
           dict_ne (minimum_intensity (hz_oqparam (env_parent env)))
             (minimum_intensity oq) = true) :
  ∃ e, pre_execute oq env = Raise e ∧
    (¬ ("gmfs" ∈ oq_inputs oq) → ∃ msg, e = ValueError msg) ∧
    e = if decide ("gmfs" ∈ oq_inputs oq)
        then AssertionError "You cannot use --hc together with gmfs_file"
        else if F64.ne (investigation_time (hz_oqparam (env_parent env)))
                  (investigation_time oq)
        then ValueError "The parent calculation was using investigation_time"
        else ValueError "The parent calculation was using minimum_intensity".
Proof.
  unfold pre_execute, find_parent. rewrite Hhc.
  destruct (decide ("gmfs" ∈ oq_inputs oq)) as [Hg|Hg].
  - eexists. split; [done|]. split; [by intros []|done].
  - destruct (F64.ne _ _) eqn:H1.
    + eexists. split; [done|]. eauto.
    + destruct Hne as [|H2]; [done|]. rewrite H2. eexists. split; [done|]. eauto.
Qed.

Lemma parent_mismatch_witness :
  ∃ e, pre_execute (ex_oq 50) ex_env = Raise e ∧
    (¬ ("gmfs" ∈ oq_inputs (ex_oq 50)) → ∃ msg, e = ValueError msg).
Proof.
  destruct (parent_mismatch (ex_oq 50) ex_env) as (e & H1 & H2 & _).
  - reflexivity.
  - left. vm_compute. reflexivity.
  - exists e. split; [exact H1|exact H2].
Defined.

(** ** Too short an effective investigation time *)

(** C9. When the effective investigation time
    [investigation_time * ses_per_logic_tree_path] is below 2, [post_execute]
    stores the event loss table, logs a warning and returns: the datastore is
    the one [before_export] leaves after the table is stored, so nothing of
    the aggregate curves is written. *)
Theorem insufficient_time_skip before_export set_rlzs_stats build c
    (Hlt : F64.ltb (eff_time (oqparam c)) (F64.of_Z 2) = true) :
  let elt := LossesByEvent (losses_by_event (c_eids c) (c_agglosses c)) in
  ∃ c', post_execute before_export set_rlzs_stats build c = Ok c' ∧
    datastore c' = before_export (<["losses_by_event" := elt]> (datastore c)) ∧
    c_log c' = c_log c ++
      [(INFO, "Saving event loss table");
       (WARN, "eff_time is too small to compute agg_curves")] ∧
    ((∀ ds k, k ≠ "realizations" → before_export ds !! k = ds !! k) →
       datastore c' !! "losses_by_event" = Some elt ∧
       datastore c' !! "agg_curves-rlzs" = datastore c !! "agg_curves-rlzs" ∧
       datastore c' !! "agg_curves-stats" = datastore c !! "agg_curves-stats").
Proof.
  intros elt. unfold post_execute, postproc.
  cbn [with_datastore oqparam]. rewrite Hlt.
  eexists. split; [done|]. cbn [with_datastore datastore c_log].
  split; [done|]. split.
  { by rewrite <- app_assoc. }
  intros Hb. rewrite !Hb by done. rewrite lookup_insert_eq.
  by rewrite !lookup_insert_ne.
Qed.

Lemma insufficient_time_skip_witness :
  ∃ c', post_execute id id (λ _, (Opaque [], None)) ex_calc = Ok c' ∧
    datastore c' =
      id (<["losses_by_event" :=
             LossesByEvent (losses_by_event (c_eids ex_calc) (c_agglosses ex_calc))]>
            (datastore ex_calc)) ∧
    c_log c' = c_log ex_calc ++
      [(INFO, "Saving event loss table");
       (WARN, "eff_time is too small to compute agg_curves")].
Proof.
  destruct (insufficient_time_skip id id (λ _, (Opaque [], None)) ex_calc)
    as (c' & H1 & H2 & H3 & _).
  - vm_compute. reflexivity.
  - exists c'. split; [exact H1|]. split; [exact H2|exact H3].
Defined.

(** ** Average losses *)

Lemma foldl_zip_with_lookup_None (m : list (list F32.t)) i : ∀ acc : list F32.t,
  acc !! i = None → foldl (zip_with F32.add) acc m !! i = None.
Proof.
  induction m as [|row m IH]; intros acc Ha; [done|]. simpl. apply IH.
  apply lookup_ge_None. apply lookup_ge_None in Ha.
  rewrite length_zip_with. lia.
Qed.

Lemma foldl_zip_with_lookup_Some (m : list (list F32.t)) i s :
  ∀ (acc : list F32.t) (a : F32.t), acc !! i = Some a →
  foldl (zip_with F32.add) acc m !! i = Some s ↔
  ∃ col, column m i = Ok col ∧ s = foldl F32.add a col.
Proof.
  induction m as [|row m IH]; intros acc a Ha; simpl.
  - rewrite Ha. split; [intros [= <-]; by exists []|].
    intros (col & [= <-] & ->). done.
  - unfold column. simpl. destruct (row !! i) as [x|] eqn:Hx; simpl.
    + rewrite (IH (zip_with F32.add acc row) (F32.add a x)); last first.
      { apply lookup_zip_with_Some. by exists a, x. }
      unfold column. split.
      * intros (col & -> & ->). by exists (x :: col).
      * intros (col & Hc & ->).
        destruct (traverse _ m) as [col'|]; [|done]. simpl in Hc.
        simplify_eq. by exists col'.
    + rewrite foldl_zip_with_lookup_None; last first.
      { apply lookup_ge_None. apply lookup_ge_None in Hx.
        rewrite length_zip_with. lia. }
      split; [done|]. by intros (col & ? & _).
Qed.

(** an entry of [m.sum(axis=0)] is the sum of a column of [m] *)
Lemma sum_axis0_lookup_Some n (m : list (list F32.t)) i s :
  sum_axis0 n m !! i = Some s ↔
  i < n ∧ ∃ col, column m i = Ok col ∧ s = column_sum n col.
Proof.
  unfold sum_axis0, column_sum. case_decide as Hn.
  - subst n. destruct (column m 0) as [col|e] eqn:Hc.
    + destruct i as [|i]; simpl.
      * split; [intros [= <-]; split; [lia|by exists col]|].
        intros (_ & col' & Hc' & ->). congruence.
      * rewrite lookup_nil. split; [done|]. intros [Hi _]. lia.
    + split; [by rewrite lookup_nil|]. intros (Hi & col & Hc' & _).
      assert (i = 0) as -> by lia. congruence.
  - destruct (decide (i < n)) as [Hi|Hi].
    + rewrite (foldl_zip_with_lookup_Some m i s _ F32.zero)
        by (by apply lookup_replicate_2).
      unfold F32.naive_sum.
      split; [intros H; split; [done|exact H]|intros [_ H]; exact H].
    + rewrite foldl_zip_with_lookup_None
        by (apply lookup_ge_None; rewrite length_replicate; lia).
      split; [done|]. by intros [? _].
Qed.

Lemma column_total n (m : list (list F32.t)) i :
  Forall (λ row, length row = n) m → i < n → ∃ col, column m i = Ok col.
Proof.
  intros Hm Hi. unfold column.
  induction Hm as [|row m Hrow Hm [col IH]]; simpl; [by eexists|].
  destruct (lookup_lt_is_Some_2 row i) as [x Hx]; [lia|].
  rewrite Hx. simpl. rewrite IH. simpl. by eexists.
Qed.

Lemma sum_axis0_lookup n (m : list (list F32.t)) i :
  Forall (λ row, length row = n) m → i < n →
  ∃ col, column m i = Ok col ∧ sum_axis0 n m !! i = Some (column_sum n col).
Proof.
  intros Hm Hi. destruct (column_total n m i Hm Hi) as [col Hc].
  exists col. split; [done|]. apply sum_axis0_lookup_Some. eauto.
Qed.

Lemma same_kind_refl a : same_kind a a.
Proof. by destruct a. Qed.

Lemma same_kind_trans a b c : same_kind a b → same_kind b c → same_kind a c.
Proof. by destruct a, b, c. Qed.

Lemma acc_upd_kind a b cur x : same_kind a b → acc_upd a cur x = acc_upd b cur x.
Proof. by destruct a, b. Qed.

(** [lba[aid] += x] changes the entry of [aid] only *)
Lemma lba_add_spec lba aid x lba' :
  lba_add lba aid x = Ok lba' →
  same_kind lba lba' ∧
  acc_get lba' aid = acc_upd lba (acc_get lba aid) x ∧
  ∀ aid', aid' ≠ aid → acc_get lba' aid' = acc_get lba aid'.
Proof.
  destruct lba as [d|a]; simpl; intros H.
  - destruct (d !! aid) eqn:Hd; simplify_eq; simpl;
      (split; [done|]); rewrite lookup_insert_eq; (split; [done|]);
      intros aid' Hne; by rewrite lookup_insert_ne.
  - destruct (a !! aid) as [y|] eqn:Hy; simplify_eq/=. split; [done|]. split.
    + rewrite list_lookup_insert_eq; [done|]. by eapply lookup_lt_Some.
    + intros aid' Hne. by rewrite list_lookup_insert_ne.
Qed.

(** a loop whose steps update an entry by a list of contributions each *)
Lemma foldM_contribs {A S} (f : S → A → res S) (Inv : S → Prop)
    (get : S → option spec_float)
    (upd : option spec_float → F32.t → option spec_float)
    (contrib : A → list F32.t) l :
  (∀ s x s', Inv s → f s x = Ok s' →
     Inv s' ∧ get s' = foldl upd (get s) (contrib x)) →
  ∀ s s', Inv s → foldM f s l = Ok s' →
    Inv s' ∧ get s' = foldl upd (get s) (l ≫= contrib).
Proof.
  intros Hf. induction l as [|x l IH]; intros s s' Hs H; simpl in H.
  - by simplify_eq.
  - destruct (f s x) as [s1|] eqn:Hx; [|done]. simpl in H.
    destruct (Hf _ _ _ Hs Hx) as [Hs1 Hg1].
    destruct (IH _ _ Hs1 H) as [Hs' Hg']. split; [done|].
    rewrite bind_cons, foldl_app, <- Hg1. done.
Qed.

Section contributions_spec.
Context (ri : RiskInput) (rm : RiskModel) (param : Param).
Context (key : nat * nat) (aid : nat).

Local Abbreviation accum := (avg_accum ri param).
Local Abbreviation kinds :=
  (map_Forall (λ (_ : nat * nat) (lba : AvgAcc), same_kind accum lba)).
Local Abbreviation entry avg := (acc_get (avg_get accum avg key) aid).

Lemma avg_get_kind (avg : gmap (nat * nat) AvgAcc) (k : nat * nat) :
  kinds avg → same_kind accum (avg_get accum avg k).
Proof.
  intros Hk. unfold avg_get. destruct (avg !! k) as [lba|] eqn:Hl; simpl.
  - by eapply Hk.
  - apply same_kind_refl.
Qed.

Lemma avg_step_contribs (l r aid0 : nat) (ratios : list (list F32.t))
    (avg avg' : gmap (nat * nat) AvgAcc) :
  kinds avg → avg_step ri rm param l r aid0 ratios avg = Ok avg' →
  kinds avg' ∧
  entry avg' = foldl (acc_upd accum) (entry avg)
    (if decide (aid0 = aid) then ratios_contribs rm param key l r ratios else []).
Proof.
  intros Hk H. unfold avg_step in H.
  pose (contrib := λ i : nat,
    if decide (aid0 = aid) then
      if decide ((l + num_L rm * i, r) = key) then
        match column ratios i with
        | Ok col => [F32.mul (column_sum (num_I param) col) (ses_ratio param)]
        | Raise _ => []
        end
      else []
    else []).
  assert (kinds avg' ∧
          entry avg' = foldl (acc_upd accum) (entry avg)
                         (seq 0 (num_I param) ≫= contrib)) as [Hk' He].
  2:{ split; [done|]. rewrite He. f_equal. unfold contrib, ratios_contribs.
      case_decide; [done|]. generalize (seq 0 (num_I param)).
      intros js. by induction js. }
  refine (foldM_contribs _ kinds (λ avg, entry avg) (acc_upd accum) contrib
            _ _ _ _ Hk H).
  clear avg avg' Hk H. intros s i s' Hs Hb.
  simpl in Hb. rewrite list_lookup_fmap in Hb.
  destruct (sum_axis0 (num_I param) ratios !! i) as [s0|] eqn:Hs0; [|done].
  apply sum_axis0_lookup_Some in Hs0 as (_ & col & Hcol & ->).
  simpl in Hb.
  destruct (lba_add _ _ _) as [lba'|] eqn:Hadd; [|done]. simpl in Hb.
  simplify_eq. apply lba_add_spec in Hadd as (Hkind & Heq & Hne).
  pose proof (avg_get_kind s (l + num_L rm * i, r) Hs) as Hlba. split.
  - apply map_Forall_insert_2; [|done]. by eapply same_kind_trans.
  - unfold contrib, avg_get.
    destruct (decide ((l + num_L rm * i, r) = key)) as [<-|Hkey].
    + rewrite lookup_insert_eq. simpl. case_decide as Haid.
      * subst aid0. rewrite Hcol. simpl. rewrite Heq.
        symmetry. by apply acc_upd_kind.
      * simpl. by apply Hne.
    + rewrite lookup_insert_ne by done. by case_decide.
Qed.

Lemma asset_step_contribs (Havg : avg_losses param = true)
    (l r : nat) (lt : string) (indices : list nat)
    (lrs : list (list (list F32.t))) (st st' : TaskState) (aa : nat * Asset) :
  kinds (avg st) → asset_step ri rm param l r lt indices lrs st aa = Ok st' →
  kinds (avg st') ∧
  entry (avg st') = foldl (acc_upd accum) (entry (avg st))
    (asset_contribs rm param key aid l r lrs aa).
Proof.
  intros Hk H. unfold asset_step in H. unfold asset_contribs.
  destruct (lrs !! aa.1) as [ratios|]; [|done]. simpl in H.
  match type of H with (?c ≫= _) = _ => destruct c as [ac|]; [|done] end.
  simpl in H. rewrite Havg in H.
  destruct (avg_step _ _ _ _ _ _ _ _) as [avg'|] eqn:Hav; [|done]. simpl in H.
  match type of H with (?c ≫= _) = _ => destruct c as [agg'|]; [|done] end.
  simpl in H. simplify_eq. simpl.
  by apply avg_step_contribs in Hav.
Qed.

Lemma output_step_contribs (Havg : avg_losses param = true)
    (st st' : TaskState) (out : Output) :
  kinds (avg st) → output_step ri rm param st out = Ok st' →
  kinds (avg st') ∧
  entry (avg st') = foldl (acc_upd accum) (entry (avg st))
    (output_contribs rm param key aid out).
Proof.
  intros Hk H. unfold output_step in H. unfold output_contribs.
  case_decide; [by simplify_eq|].
  refine (foldM_contribs _ (λ st, kinds (avg st)) (λ st, entry (avg st))
            (acc_upd accum) (loss_type_contribs rm param key aid out)
            _ _ _ _ Hk H).
  clear Hk H. intros s [l [lrs|]] s' Hs Hl; unfold loss_type_step in Hl;
    unfold loss_type_contribs; simpl in *; [|by simplify_eq].
  destruct (loss_types rm !! l) as [lt|]; [|done]. simpl in Hl.
  match type of Hl with (?c ≫= _) = _ => destruct c as [indices|]; [|done] end.
  simpl in Hl.
  refine (foldM_contribs _ (λ st, kinds (avg st)) (λ st, entry (avg st))
            (acc_upd accum) _ _ _ _ _ Hs Hl).
  intros s1 aa s2 Hs1 Ha. by eapply asset_step_contribs.
Qed.

Lemma task_loop_contribs (Havg : avg_losses param = true)
    (outputs : list Output) (st : TaskState) :
  task_loop ri rm param outputs = Ok st →
  entry (avg st) = foldl (acc_upd accum) (acc_get accum aid)
    (avg_contribs rm param key aid outputs).
Proof.
  intros H. unfold task_loop in H.
  refine (proj2 (foldM_contribs _ (λ st, kinds (avg st)) (λ st, entry (avg st))
            (acc_upd accum) (output_contribs rm param key aid)
            _ _ _ _ _ H)).
  - intros s out s' Hs Ho. by apply output_step_contribs.
  - simpl. apply map_Forall_empty.
Qed.
End contributions_spec.

(** C6. With average losses enabled, the average losses that the task
    returns hold, for every cell [(l + L * i, r)] and every asset ordinal,
    what the contributions of the shard leave in the accumulator when they
    are added one after the other to the entry of the ordinal (an entry of a
    dict is created by the first one): for each output with events, each of
    its loss types with ratios and each of its assets, the contribution to
    the entry of the ordinal of the asset is the sum over the events of the
    loss ratios [ratios[:, i]] multiplied by [ses_ratio]. *)
Theorem average_loss_contribution ri rm param outputs result key aid
    (Havg : avg_losses param = true)
    (Hrun : event_based_risk ri rm param outputs = Ok result) :
  acc_get (avg_get (avg_accum ri param) (res_avglosses result) key) aid =
    foldl (acc_upd (avg_accum ri param)) (acc_get (avg_accum ri param) aid)
      (avg_contribs rm param key aid outputs).
Proof.
  unfold event_based_risk in Hrun.
  destruct (task_loop ri rm param outputs) as [st|] eqn:Hst; [|done].
  simpl in Hrun.
  destruct (take3 (agg st) (nonzero (agg st))) as [vals|]; [|done].
  simpl in Hrun. simplify_eq. simpl.
  by apply task_loop_contribs.
Qed.

Lemma average_loss_contribution_witness :
  acc_get (avg_get (avg_accum (ex_riskinput [0]) ex_param)
             (res_avglosses ex_result0) (0, 0)) 0 =
    foldl (acc_upd (avg_accum (ex_riskinput [0]) ex_param))
      (acc_get (avg_accum (ex_riskinput [0]) ex_param) 0)
      (avg_contribs ex_riskmodel ex_param (0, 0) 0 ex_outputs0) ∧
  avg_contribs ex_riskmodel ex_param (0, 0) 0 ex_outputs0 =
    [F32.mul (F32.sum [F32.of_Z 0; F32.of_Z 1]) (F32.of_Z 1)].
Proof.
  assert (event_based_risk (ex_riskinput [0]) ex_riskmodel ex_param ex_outputs0
          = Ok ex_result0) as Hrun by (vm_compute; reflexivity).
  split.
  - exact (average_loss_contribution (ex_riskinput [0]) ex_riskmodel ex_param
             ex_outputs0 ex_result0 (0, 0) 0 eq_refl Hrun).
  - vm_compute. reflexivity.
Defined.

(** with dicts the average losses of an asset never fail *)
Lemma avg_step_total (ri : RiskInput) (rm : RiskModel) (param : Param)
    (l r aid : nat) (ratios : list (list F32.t))
    (avg : gmap (nat * nat) AvgAcc) :
  by_site ri = true →
  Forall (λ row, length row = num_I param) ratios →
  map_Forall (λ _ lba, ∃ d, lba = AccDict d) avg →
  ∃ avg', avg_step ri rm param l r aid ratios avg = Ok avg'.
Proof.
  intros Hsite Hshape Hdict. unfold avg_step.
  destruct (foldM_total
    (λ avg : gmap (nat * nat) AvgAcc, map_Forall (λ _ lba, ∃ d, lba = AccDict d) avg)
    (λ avg i,
       let lba := avg_get (avg_accum ri param) avg (l + num_L rm * i, r) in
       x ← or_raise IndexError
             (((λ s, F32.mul s (ses_ratio param)) <$>
                 sum_axis0 (num_I param) ratios) !! i);
       lba' ← lba_add lba aid x;
       Ok (<[(l + num_L rm * i, r) := lba']> avg))
    (seq 0 (num_I param)) avg) as (avg' & H & _); [done| |by eexists].
  intros s i Hi%elem_of_seq Hs. simpl.
  destruct (sum_axis0_lookup _ _ i Hshape) as (col & _ & Hsum); [lia|].
  rewrite list_lookup_fmap, Hsum. simpl.
  assert (∃ d, avg_get (avg_accum ri param) s (l + num_L rm * i, r) = AccDict d)
    as [d ->].
  { unfold avg_get, avg_accum. rewrite Hsite. simpl.
    destruct (s !! _) as [lba|] eqn:Hl; simpl; [by eapply Hs|by eexists]. }
  simpl. destruct (d !! aid); simpl; eexists; (split; [done|]);
    apply map_Forall_insert_2; eauto.
Qed.

(** ** The average losses saved by [save_losses] *)

Lemma add_zero_r x z : x ≠ F32.neg_zero → F32.is_zero z → F32.add x z = x.
Proof. intros Hx [sz ->]. by destruct x as [[]|[]| |sx mx ex], sz. Qed.

Lemma mul_zero_finite v :
  F32.is_finite v = true → F32.is_zero (F32.mul F32.zero v).
Proof. destruct v as [s|s| |s m e]; try done; intros _; by eexists. Qed.

Lemma save_avg_spec c aids (d d' : Arr3) li r ratios :
  save_avg c aids d (li, r, ratios) = Ok d' →
  ∃ vs lt,
    loss_types (riskmodel_ c) !!
      (if decide (li < num_L (riskmodel_ c)) then li
       else li - num_L (riskmodel_ c)) = Some lt ∧
    vals c !! lt = Some vs ∧
    (aids ≠ [] → ∃ m, ratios = AccDict m) ∧
    (∀ a, a ∈ aids → is_Some (vs !! a)) ∧
    iadd_at d ((λ aid, (aid, r, li)) <$> aids) (contribution ratios vs <$> aids)
      = Ok d' ∧
    ∀ q, get3 d' q =
      if decide (q ∈ (λ aid, (aid, r, li)) <$> aids)
      then const (F32.add (cell d q) (contribution ratios vs q.1.1)) <$> get3 d q
      else get3 d q.
Proof.
  intros H. unfold save_avg in H.
  destruct (loss_types _ !! _) as [lt|] eqn:Hlt; [|done]. simpl in H.
  destruct (vals c !! lt) as [vs|] eqn:Hvs; [|done]. simpl in H.
  match type of H with (?c ≫= _) = _ => destruct c as [arr|] eqn:Harr; [|done] end.
  simpl in H. exists vs, lt. split; [done|]. split; [done|].
  assert (aids ≠ [] → ∃ m, ratios = AccDict m) as Hdict.
  { intros Hne. destruct ratios as [m|arr']; [by eexists|].
    destruct aids; [done|]. by simpl in Harr. }
  assert (∀ a, a ∈ aids → is_Some (vs !! a)) as Hin.
  { apply traverse_Ok in Harr. intros a Ha.
    apply list_elem_of_lookup in Ha as [i Ha].
    destruct (Forall2_lookup_l _ _ _ _ _ Harr Ha) as (y & _ & Hy).
    destruct (ratios_get ratios a); [|done]. simpl in Hy.
    destruct (vs !! a); [by eexists|done]. }
  apply (traverse_Ok_fmap _ (contribution ratios vs)) in Harr as ->; last first.
  { intros a y Hy. unfold contribution.
    destruct ratios as [m|?]; [|done]. simpl in *.
    destruct (vs !! a); [|done]. simpl in Hy. by simplify_eq. }
  do 3 (split; [done|]). intros q.
  unfold iadd_at in H.
  destruct (take3 d _) as [old|] eqn:Hold; [|done]. simpl in H.
  case_decide; [|done]. simplify_eq. apply take3_Ok in Hold as [-> _].
  rewrite <- list_fmap_compose.
  rewrite zip_with_fmap_same.
  rewrite (list_fmap_compose (λ aid, (aid, r, li))
             (λ p, F32.add (cell d p) (contribution ratios vs p.1.1))).
  apply get3_put3_fmap.
Qed.

Lemma save_avg_wf c aids (d d' : Arr3) kv A R K :
  wf3 A R K d → save_avg c aids d kv = Ok d' → wf3 A R K d'.
Proof.
  destruct kv as [[li r] ratios]. intros Hd H.
  apply save_avg_spec in H as (vs & lt & _ & _ & _ & _ & H & _).
  eapply iadd_at_wf; [exact Hd| |exact H].
  apply Forall_fmap, Forall_true. intros a. apply mul_above_emin.
Qed.

Lemma save_losses_dset c dic c' :
  save_losses c dic = Ok c' →
  foldM (λ dset kv,
      match dset with
      | Some d => Some <$> (save_avg c (res_aids dic) d kv)
      | None => Raise (AttributeError "dset")
      end) (c_dset c) (map_to_list (res_avglosses dic)) = Ok (c_dset c').
Proof.
  intros H. unfold save_losses in H.
  destruct (save_agglosses _ _) as [a|]; [|done]. simpl in H.
  match type of H with (?c ≫= _) = _ => destruct c as [d|]; [|done] end.
  simpl in H. by simplify_eq.
Qed.

Lemma save_losses_dset_wf c dic c' :
  dset_wf (c_dset c) → save_losses c dic = Ok c' → dset_wf (c_dset c').
Proof.
  intros Hwf H%save_losses_dset.
  eapply (foldM_inv dset_wf); [|exact Hwf|exact H].
  intros [d|] kv s' _ Hs Hstep; [|done].
  destruct (save_avg c (res_aids dic) d kv) as [d'|] eqn:Hd; [|done].
  simpl in Hstep. simplify_eq. intros ? [= <-].
  destruct (Hs d eq_refl) as (A & R & K & Hd0). exists A, R, K.
  by eapply save_avg_wf.
Qed.

Lemma reachable_dset_wf oq env c0 results c :
  pre_execute oq env = Ok c0 → combine_all c0 results = Ok c →
  dset_wf (c_dset c).
Proof.
  intros Hpre Hcomb.
  eapply (foldM_inv (λ c, dset_wf (c_dset c))); [| |exact Hcomb].
  - intros s dic s' _ Hs Hd. by eapply save_losses_dset_wf.
  - unfold pre_execute in Hpre.
    destruct (find_parent oq env) as [parent|]; [|done]. simpl in Hpre.
    simplify_eq. simpl. intros d Hd. destruct (oq_avg_losses oq); [|done].
    simplify_eq. do 3 eexists. apply wf3_zeros3.
Qed.

(** C10. Applying a task result with [save_losses] changes the dataset of
    the average losses only in the rows of the assets of the result: a cell
    of another asset is unchanged, and an asset of the result that the sparse
    ratios of a key do not hold contributes a zero ([ratios.get(aid, 0)]
    times its finite value) that leaves the cell as it was. The calculator is
    one reached from [pre_execute] by saving task results. *)
Theorem avg_losses_frame oq env c0 results c dic c' d d'
    (Hpre : pre_execute oq env = Ok c0)
    (Hcomb : combine_all c0 results = Ok c)
    (Hsave : save_losses c dic = Ok c')
    (Hd : c_dset c = Some d) (Hd' : c_dset c' = Some d')
    (Hfin : ∀ lt vs a v,
       vals c !! lt = Some vs → vs !! a = Some v → F32.is_finite v = true) :
  (∀ a r li, a ∉ res_aids dic → get3 d' (a, r, li) = get3 d (a, r, li)) ∧
  (∀ a r li ratios,
     a ∈ res_aids dic → res_avglosses dic !! (li, r) = Some ratios →
     acc_get ratios a = None →
     ∃ vs lt v,
       vals c !! lt = Some vs ∧ vs !! a = Some v ∧
       F32.is_zero (contribution ratios vs a) ∧
       get3 d' (a, r, li) = get3 d (a, r, li)).
Proof.
  pose proof (reachable_dset_wf _ _ _ _ _ Hpre Hcomb) as Hwf.
  destruct (Hwf d Hd) as (A & R & K & [_ Hcells]).
  apply save_losses_dset in Hsave. rewrite Hd, Hd' in Hsave.
  set (step := λ (dset : option Arr3) (kv : nat * nat * AvgAcc),
      match dset with
      | Some d => Some <$> (save_avg c (res_aids dic) d kv)
      | None => Raise (AttributeError "dset")
      end) in Hsave.
  assert (∀ p (s s' : option Arr3) kv, step s kv = Ok s' →
    p ∉ (λ aid, (aid, kv.1.2, kv.1.1)) <$> res_aids dic →
    (s' ≫= λ d, get3 d p) = (s ≫= λ d, get3 d p)) as Hother.
  { intros p [s|] s' [[li r] ratios] Hs Hp; [|done]. unfold step in Hs.
    destruct (save_avg _ _ _ _) as [s1|] eqn:H1; [|done]. simpl in Hs.
    simplify_eq. simpl.
    apply save_avg_spec in H1 as (vs & lt & _ & _ & _ & _ & _ & H1).
    rewrite H1. by rewrite decide_False. }
  split.
  - intros a r li Ha.
    apply (foldM_never (λ s : option Arr3, s ≫= λ d, get3 d (a, r, li)) step)
      in Hsave; [done|].
    intros s kv s' _ Hs. eapply Hother; [done|].
    intros (a' & [= -> _ _] & Ha')%list_elem_of_fmap. done.
  - intros a r li ratios Ha Hr Hnone.
    apply elem_of_map_to_list in Hr.
    pose (Q := λ o o' : option F32.t, ∃ vs lt v,
      vals c !! lt = Some vs ∧ vs !! a = Some v ∧
      F32.is_zero (contribution ratios vs a) ∧
      o' = const (F32.add (default F32.zero o) (contribution ratios vs a)) <$> o).
    assert (Q (Some d ≫= λ d, get3 d (a, r, li)) (Some d' ≫= λ d, get3 d (a, r, li)))
      as (vs & lt & v & Hvs & Hv & Hz & Hq).
    { apply (foldM_once (λ s : option Arr3, s ≫= λ d, get3 d (a, r, li)) step Q
               (li, r, ratios) (map_to_list (res_avglosses dic)) (Some d) (Some d'));
        [apply NoDup_map_to_list|done| | |done].
      - intros s [[li' r'] ratios'] s' Hin Hne Hs. eapply Hother; [done|].
        intros (a' & [= -> -> ->] & Ha')%list_elem_of_fmap. apply Hne.
        apply elem_of_map_to_list in Hin, Hr. simpl in *. congruence.
      - intros [s|] s' Hs; [|done]. unfold step in Hs.
        destruct (save_avg _ _ _ _) as [s1|] eqn:H1; [|done]. simpl in Hs.
        simplify_eq.
        apply save_avg_spec in H1 as (vs & lt & _ & Hvs & _ & Hin & _ & H1).
        destruct (Hin a Ha) as [v Hv]. exists vs, lt, v.
        split; [done|]. split; [done|]. split.
        + unfold contribution. rewrite Hnone, Hv. simpl.
          apply mul_zero_finite. by eapply Hfin.
        + change (get3 s1 (a, r, li) =
            const (F32.add (default F32.zero (get3 s (a, r, li)))
                     (contribution ratios vs a)) <$> get3 s (a, r, li)).
          rewrite H1. rewrite decide_True; [done|].
          apply list_elem_of_fmap. by exists a. }
    exists vs, lt, v. do 3 (split; [done|]).
    change (get3 d' (a, r, li) =
      const (F32.add (default F32.zero (get3 d (a, r, li)))
               (contribution ratios vs a)) <$> get3 d (a, r, li)) in Hq.
    rewrite Hq.
    destruct (get3 d (a, r, li)) as [x|] eqn:Hx; [|done]. simpl. f_equal.
    apply add_zero_r; [|done]. by destruct (Hcells _ _ Hx).
Qed.

Lemma avg_losses_frame_witness :
  ∃ vs lt v,
    vals ex_calc0 !! lt = Some vs ∧ vs !! 1 = Some v ∧
    F32.is_zero (contribution (AccDict {[0 := F32.of_Z 1]}) vs 1) ∧
    get3 [[[F32.of_Z 10]]; [[F32.zero]]] (1, 0, 0) =
    get3 [[[F32.zero]]; [[F32.zero]]] (1, 0, 0).
Proof.
  assert (∀ lt vs a v, vals ex_calc0 !! lt = Some vs → vs !! a = Some v →
            F32.is_finite v = true) as Hfin.
  { intros lt vs a v Hvs Hv. change (vals ex_calc0)
      with ({["structural" := [F32.of_Z 10; F32.of_Z 20]]} : gmap string (list F32.t)) in Hvs.
    apply lookup_singleton_Some in Hvs as [<- <-].
    destruct a as [|[|a]]; simpl in Hv; by simplify_eq. }
  destruct (avg_losses_frame (ex_oq 1) ex_env ex_calc0 [] ex_calc0 ex_result01
    (with_accumulators ex_calc0 [[[F32.zero]]; [[F32.of_Z 10]]]
       (Some [[[F32.of_Z 10]]; [[F32.zero]]]) 1)
    [[[F32.zero]]; [[F32.zero]]] [[[F32.of_Z 10]]; [[F32.zero]]]) as [_ H].
  - vm_compute. reflexivity.
  - reflexivity.
  - vm_compute. reflexivity.
  - reflexivity.
  - reflexivity.
  - exact Hfin.
  - apply (H 1 0 0 (AccDict {[0 := F32.of_Z 1]})).
    + vm_compute. apply list_elem_of_In. simpl. tauto.
    + vm_compute. reflexivity.
    + reflexivity.
Defined.

(** ** Two sparse results commute on a zero array *)

Lemma add_comm x y : F32.add x y = F32.add y x.
Proof.
  destruct x as [[]|[]| |sx mx ex], y as [[]|[]| |sy my ey]; try done.
  unfold F32.add, SFadd. by rewrite Z.min_comm, Z.add_comm.
Qed.

Lemma wf3_falsy E R K (a : Arr3) p :
  wf3 E R K a → is_Some (get3 a p) → p ∉ nonzero a → cell a p = F32.zero.
Proof.
  intros [_ Hc] [x Hx] Hp. unfold cell. rewrite Hx. simpl.
  destruct (F32.truthy x) eqn:Ht.
  - destruct Hp. apply elem_of_nonzero. eauto.
  - apply truthy_false in Ht as [[] ->]; [|done]. by destruct (Hc p _ Hx) as [? _].
Qed.

Lemma wf3_truthy (a : Arr3) p :
  p ∈ nonzero a → F32.truthy (cell a p) = true ∧ is_Some (get3 a p).
Proof.
  intros (x & Hx & Ht)%elem_of_nonzero. unfold cell. rewrite Hx. eauto.
Qed.

Lemma save_sparse_spec E R K (a b : Arr3) :
  has_shape E R K a → has_shape E R K b →
  ∃ c, save_agglosses a (sparse b) = Ok c ∧ has_shape E R K c ∧
    ∀ p, get3 c p =
      if decide (p ∈ nonzero b)
      then Some (F32.add (cell a p) (cell b p)) else get3 a p.
Proof.
  intros Ha Hb. unfold save_agglosses, sparse. simpl.
  assert (∀ p, p ∈ nonzero b → is_Some (get3 a p)) as Hin.
  { intros [[e r] k] [_ Hp]%wf3_truthy.
    apply (has_shape_get3 E R K); [done|]. by apply (has_shape_get3 E R K b). }
  rewrite iadd_at_cells by done. eexists. split; [done|].
  split; [by apply has_shape_put3|]. intros p. rewrite get3_put3_fmap.
  case_decide as Hp; [|done]. by destruct (Hin p Hp) as [x ->].
Qed.

Lemma save_sparse_zeros E R K (a : Arr3) :
  wf3 E R K a → save_agglosses (zeros3 E R K) (sparse a) = Ok a.
Proof.
  intros Ha. apply sparse_roundtrip; [apply Ha|by eapply wf3_no_neg_zero].
Qed.

Lemma save_sparse_comm E R K (a b : Arr3) :
  wf3 E R K a → wf3 E R K b →
  ∃ c, foldM save_agglosses (zeros3 E R K) [sparse a; sparse b] = Ok c ∧
       foldM save_agglosses (zeros3 E R K) [sparse b; sparse a] = Ok c.
Proof.
  intros Ha Hb. simpl. rewrite !save_sparse_zeros by done. simpl.
  destruct (save_sparse_spec E R K a b) as (c1 & -> & Hs1 & H1);
    [apply Ha|apply Hb|].
  destruct (save_sparse_spec E R K b a) as (c2 & -> & Hs2 & H2);
    [apply Hb|apply Ha|].
  simpl. exists c1. split; [done|]. do 2 f_equal.
  apply (has_shape_ext E R K); [done..|]. intros p. rewrite H1, H2.
  destruct (get3 a p) as [x|] eqn:Hx; last first.
  { assert (get3 b p = None) as Hy.
    { destruct (get3 b p) eqn:Hy; [|done].
      assert (is_Some (get3 a p)) as [? ?]; [|congruence].
      destruct p as [[e r] k]. apply (has_shape_get3 E R K); [apply Ha|].
      apply (has_shape_get3 E R K b); [apply Hb|by rewrite Hy]. }
    rewrite !decide_False; [by rewrite Hy| |].
    - intros [_ [? ?]]%wf3_truthy. congruence.
    - intros [_ [? ?]]%wf3_truthy. congruence. }
  assert (is_Some (get3 b p)) as Hsb.
  { destruct p as [[e r] k]. apply (has_shape_get3 E R K); [apply Hb|].
    apply (has_shape_get3 E R K a); [apply Ha|by rewrite Hx]. }
  assert (is_Some (get3 a p)) as Hsa by (by rewrite Hx).
  destruct (decide (p ∈ nonzero a)) as [Hpa|Hpa],
    (decide (p ∈ nonzero b)) as [Hpb|Hpb].
  - by rewrite add_comm.
  - rewrite (wf3_falsy E R K b p Hb Hsb Hpb).
    rewrite add_zero_l by (by apply wf3_truthy). unfold cell. by rewrite Hx.
  - rewrite (wf3_falsy E R K a p Ha Hsa Hpa).
    rewrite add_zero_l by (by apply wf3_truthy). unfold cell.
    by destruct Hsb as [y ->].
  - pose proof (wf3_falsy E R K a p Ha Hsa Hpa) as Ea.
    pose proof (wf3_falsy E R K b p Hb Hsb Hpb) as Eb.
    unfold cell in Ea, Eb. destruct Hsb as [y Hy]. rewrite Hx in *. rewrite Hy in *.
    simpl in *. congruence.
Qed.

(** ** Aggregation of the cubes of losses *)

Lemma ndenumerate_inj {A} (c : list (list (list A))) x y :
  x ∈ ndenumerate c → y ∈ ndenumerate c → x.1 = y.1 → x = y.
Proof.
  destruct x as [p x], y as [q y]. simpl.
  intros Hx%elem_of_ndenumerate Hy%elem_of_ndenumerate ->. congruence.
Qed.

Lemma agg_spec (acc losses acc' : Cube) p :
  agg_ acc losses = Ok acc' →
  get3 acc' p = (λ cell, cell ++ default [] (get3 losses p)) <$> get3 acc p.
Proof.
  intros H. unfold agg_ in H.
  destruct (get3 losses p) as [arrays|] eqn:Hp; simpl.
  - apply (foldM_once (λ s : Cube, get3 s p) _
             (λ o o', o' = (λ cell, cell ++ arrays) <$> o) (p, arrays)) in H;
      [done| | | |].
    + eapply NoDup_fmap_1, NoDup_ndenumerate.
    + by apply elem_of_ndenumerate.
    + intros s [q x] s' Hin Hne Hs. simpl in Hs.
      destruct (get3 s q) as [cell|]; [|done]. simpl in Hs. simplify_eq.
      simpl. apply get3_set3_ne. intros ->. apply Hne.
      apply ndenumerate_inj with losses; [done|by apply elem_of_ndenumerate|done].
    + intros s s' Hs. simpl in Hs.
      destruct (get3 s p) as [cell|] eqn:Hc; [|done]. simpl in Hs.
      simplify_eq. by rewrite get3_set3_eq, Hc.
  - apply (foldM_never (λ s : Cube, get3 s p)) in H.
    + rewrite H. destruct (get3 acc p); [|done]. simpl. by rewrite app_nil_r.
    + intros s [q x] s' Hin Hs. simpl in Hs.
      destruct (get3 s q) as [cell|]; [|done]. simpl in Hs. simplify_eq.
      simpl. apply get3_set3_ne. intros ->. apply elem_of_ndenumerate in Hin. congruence.
Qed.

Lemma agg_is_Some (acc losses acc' : Cube) p :
  agg_ acc losses = Ok acc' →
  is_Some (get3 acc' p) ↔ is_Some (get3 acc p).
Proof. intros H. rewrite (agg_spec _ _ _ _ H). apply fmap_is_Some. Qed.

Lemma agg_fits (acc losses acc' : Cube) : agg_ acc losses = Ok acc' → fits acc losses.
Proof.
  intros H p [arrays Hp]. unfold agg_ in H.
  apply (foldM_once (λ s : Cube, get3 s p) _
           (λ o o', is_Some o) (p, arrays)) in H; [done| | | |].
  - eapply NoDup_fmap_1, NoDup_ndenumerate.
  - by apply elem_of_ndenumerate.
  - intros s [q x] s' Hin Hne Hs. simpl in Hs.
    destruct (get3 s q) as [cell|]; [|done]. simpl in Hs. simplify_eq.
    simpl. apply get3_set3_ne. intros ->. apply Hne.
    apply ndenumerate_inj with losses; [done|by apply elem_of_ndenumerate|done].
  - intros s s' Hs. simpl in Hs. by destruct (get3 s p).
Qed.

Lemma agg_total (acc losses : Cube) :
  fits acc losses → ∃ acc', agg_ acc losses = Ok acc'.
Proof.
  intros Hfit. unfold agg_.
  destruct (foldM_total
    (λ s : Cube, ∀ p, is_Some (get3 s p) ↔ is_Some (get3 acc p))
    (λ (acc : Cube) (ia : Idx3 * list (list loss_rec)),
       cell ← or_raise IndexError (get3 acc ia.1);
       Ok (set3 acc ia.1 (cell ++ ia.2)))
    (ndenumerate losses) acc) as (acc' & H & _); [done| |by eexists].
  intros s [p x] Hin Hs. simpl.
  apply elem_of_ndenumerate in Hin.
  destruct (get3 s p) as [cell|] eqn:Hc; last first.
  { assert (is_Some (get3 s p)) as [? ?]; [|congruence].
    apply Hs, Hfit. by rewrite Hin. }
  simpl. eexists. split; [done|]. intros q. rewrite <- Hs.
  destruct (decide (p = q)) as [->|Hne].
  - rewrite get3_set3_eq. apply fmap_is_Some.
  - by rewrite get3_set3_ne.
Qed.

Lemma fits_agg (acc x acc' y : Cube) :
  agg_ acc x = Ok acc' → fits acc' y ↔ fits acc y.
Proof.
  intros H. unfold fits. split; intros Hf p Hp.
  - apply (agg_is_Some _ _ _ _ H). by apply Hf.
  - apply (agg_is_Some _ _ _ _ H). by apply Hf.
Qed.

Lemma reduce_agg_spec (acc : Cube) xs c :
  reduce_agg acc xs = Ok c →
  Forall (fits acc) xs ∧
  ∀ p, get3 c p =
    (λ cell, cell ++ mjoin ((λ x : Cube, default [] (get3 x p)) <$> xs))
      <$> get3 acc p.
Proof.
  revert acc. induction xs as [|x xs IH]; intros acc H;
    unfold reduce_agg in H; simpl in H.
  - assert (c = acc) as -> by congruence. split; [constructor|].
    intros p. destruct (get3 acc p); simpl; [|done]. by rewrite app_nil_r.
  - destruct (agg_ acc x) as [a1|] eqn:H1; [|done]. simpl in H.
    destruct (IH _ H) as [Hf Hc]. split.
    + constructor; [by eapply agg_fits|].
      eapply Forall_impl; [exact Hf|]. intros y.
      apply (proj1 (fits_agg _ _ _ y H1)).
    + intros p. rewrite Hc, (agg_spec _ _ _ _ H1).
      destruct (get3 acc p); [|done]. simpl. by rewrite app_assoc.
Qed.

Lemma reduce_agg_total (acc : Cube) xs :
  Forall (fits acc) xs → ∃ c, reduce_agg acc xs = Ok c.
Proof.
  revert acc. induction xs as [|x xs IH]; intros acc Hf;
    unfold reduce_agg; simpl; [by eexists|].
  apply Forall_cons in Hf as [Hx Hf].
  destruct (agg_total _ _ Hx) as [a1 H1]. rewrite H1. simpl. apply IH.
  eapply Forall_impl; [exact Hf|]. intros y.
  apply (proj2 (fits_agg _ _ _ y H1)).
Qed.

Lemma reduce_agg_Permutation (acc : Cube) xs ys c :
  xs ≡ₚ ys → reduce_agg acc xs = Ok c →
  ∃ c', reduce_agg acc ys = Ok c' ∧
    ∀ p, option_Forall2 (≡ₚ) (get3 c p) (get3 c' p).
Proof.
  intros Hperm H. apply reduce_agg_spec in H as [Hf Hc].
  destruct (reduce_agg_total acc ys) as [c' H']; [by rewrite <- Hperm|].
  exists c'. split; [done|]. apply reduce_agg_spec in H' as [_ Hc'].
  intros p. rewrite Hc, Hc'. destruct (get3 acc p); constructor.
  by rewrite Hperm.
Qed.

(** ** The order of the shard results *)

(** C1 (as amended). Combining shard results does not depend on the
    grouping: for [agg] and for the aggregate array, applying a sequence of
    results is applying a first group and then the rest. The order matters up
    to this: for [agg], a reordering of the results leaves in every cell the
    same arrays, in another order; for the aggregate array, two task results
    applied to the zero array in either order give the identical array. *)
Theorem combine_order (acc : Cube) xs ys c ri1 ri2 rm param outs1 outs2 r1 r2
    (Hperm : xs ≡ₚ ys) (Hred : reduce_agg acc xs = Ok c)
    (HE : length (hg_eids (hazard_getter ri1)) =
          length (hg_eids (hazard_getter ri2)))
    (HR : num_rlzs (hazard_getter ri1) = num_rlzs (hazard_getter ri2))
    (H1 : event_based_risk ri1 rm param outs1 = Ok r1)
    (H2 : event_based_risk ri2 rm param outs2 = Ok r2) :
  let zeros := zeros3 (length (hg_eids (hazard_getter ri1)))
                 (num_rlzs (hazard_getter ri1)) (num_L rm * num_I param) in
  (∀ l1 l2, reduce_agg acc (l1 ++ l2) = reduce_agg acc l1 ≫= λ a, reduce_agg a l2) ∧
  (∀ a l1 l2, foldM save_agglosses a (l1 ++ l2) =
              foldM save_agglosses a l1 ≫= λ a', foldM save_agglosses a' l2) ∧
  (∃ c', reduce_agg acc ys = Ok c' ∧
     ∀ p, option_Forall2 (≡ₚ) (get3 c p) (get3 c' p)) ∧
  (∃ a, foldM save_agglosses zeros [res_agglosses r1; res_agglosses r2] = Ok a ∧
        foldM save_agglosses zeros [res_agglosses r2; res_agglosses r1] = Ok a).
Proof.
  intros zeros. split; [|split; [|split]].
  - intros l1 l2. apply foldM_app.
  - intros a l1 l2. apply foldM_app.
  - by eapply reduce_agg_Permutation.
  - apply event_based_risk_sparse in H1 as (st1 & Hst1 & ->).
    apply event_based_risk_sparse in H2 as (st2 & Hst2 & ->).
    apply task_loop_wf in Hst1, Hst2. rewrite <- HE, <- HR in Hst2.
    by apply save_sparse_comm.
Qed.

Lemma combine_order_witness :
  (∃ c', reduce_agg (cube NUM_OUTPUTS 1 1 []) [ex_cube 2 4; ex_cube 1 3] = Ok c' ∧
     ∀ p, option_Forall2 (≡ₚ)
            (get3 (ex_reduced [ex_cube 1 3; ex_cube 2 4]) p) (get3 c' p)) ∧
  (∃ a, foldM save_agglosses (zeros3 2 1 1)
          [res_agglosses ex_result0; res_agglosses ex_result1] = Ok a ∧
        foldM save_agglosses (zeros3 2 1 1)
          [res_agglosses ex_result1; res_agglosses ex_result0] = Ok a).
Proof.
  pose proof (combine_order (cube NUM_OUTPUTS 1 1 [])
    [ex_cube 1 3; ex_cube 2 4] [ex_cube 2 4; ex_cube 1 3]
    (ex_reduced [ex_cube 1 3; ex_cube 2 4])
    (ex_riskinput [0]) (ex_riskinput [1]) ex_riskmodel ex_param
    ex_outputs0 ex_outputs1 ex_result0 ex_result1) as H.
  destruct H as (_ & _ & Hc & Ha).
  - apply perm_swap.
  - vm_compute. reflexivity.
  - reflexivity.
  - reflexivity.
  - vm_compute. reflexivity.
  - vm_compute. reflexivity.
  - split; [exact Hc|exact Ha].
Defined.

(** C1, as stated, fails: two results of [ebr] aggregated in the two orders
    give cells that list the arrays in different orders, and three results
    added in two orders to one cell of the aggregate array give 16777216 and
    16777218, since the float32 addition is not associative. *)
Lemma combine_order_dependent :
  let a1 := [{| rup_id := 1; rloss := F32.of_Z 3 |}] in
  let a2 := [{| rup_id := 2; rloss := F32.of_Z 4 |}] in
  (reduce_agg (cube NUM_OUTPUTS 1 1 []) [ex_cube 1 3; ex_cube 2 4]
     = Ok [[[ [a1; a2] ]]; [[ [] ]]] ∧
   reduce_agg (cube NUM_OUTPUTS 1 1 []) [ex_cube 2 4; ex_cube 1 3]
     = Ok [[[ [a2; a1] ]]; [[ [] ]]] ∧
   reduce_agg (cube NUM_OUTPUTS 1 1 []) [ex_cube 1 3; ex_cube 2 4] ≠
   reduce_agg (cube NUM_OUTPUTS 1 1 []) [ex_cube 2 4; ex_cube 1 3]) ∧
  (foldM save_agglosses (zeros3 1 1 1)
     [ex_sparse 16777216; ex_sparse 1; ex_sparse 1]
     = Ok [[[F32.of_Z 16777216]]] ∧
   foldM save_agglosses (zeros3 1 1 1)
     [ex_sparse 1; ex_sparse 1; ex_sparse 16777216]
     = Ok [[[F32.of_Z 16777218]]] ∧
   foldM save_agglosses (zeros3 1 1 1)
     [ex_sparse 16777216; ex_sparse 1; ex_sparse 1] ≠
   foldM save_agglosses (zeros3 1 1 1)
     [ex_sparse 1; ex_sparse 1; ex_sparse 16777216]).
Proof.
  repeat split; try (vm_compute; reflexivity); vm_compute; discriminate.
Qed.

(** * More properties of the calculators *)

(** ** More on the [event_based_risk] task *)

Lemma NoDup_nonzero (a : Arr3) : NoDup (nonzero a).
Proof.
  unfold nonzero. rewrite <- (list_fmap_id (mjoin _)).
  apply (NoDup_join_imap _ id (λ p : Idx3, p.1.1)).
  - intros e plane [[e' r] k] H.
    apply list_elem_of_join in H as (l2 & H2 & H).
    apply elem_of_lookup_imap in H as (r' & row & -> & _).
    apply list_elem_of_join in H2 as (l3 & H3 & H).
    apply elem_of_lookup_imap in H as (k' & x & -> & _).
    destruct (F32.truthy x); [|by apply elem_of_nil in H3].
    by apply list_elem_of_singleton in H3 as [= -> _ _].
  - intros e plane. apply (NoDup_join_imap _ id (λ p : Idx3, p.1.2)).
    + intros r row [[e' r'] k] H.
      apply list_elem_of_join in H as (l3 & H3 & H).
      apply elem_of_lookup_imap in H as (k' & x & -> & _).
      destruct (F32.truthy x); [|by apply elem_of_nil in H3].
      by apply list_elem_of_singleton in H3 as [= _ -> _].
    + intros r row. apply (NoDup_join_imap _ id (λ p : Idx3, p.2)).
      * intros k x p H. destruct (F32.truthy x); [|by apply elem_of_nil in H].
        by apply list_elem_of_singleton in H as ->.
      * intros k x. rewrite list_fmap_id.
        destruct (F32.truthy x); [apply NoDup_singleton|constructor].
Qed.

(** X1. The sparse aggregate losses [(idx, agg[idx])] that the task
    [event_based_risk] returns are well formed: no position occurs twice,
    there is one value per position, every value is nonzero, and every
    position lies inside the shape [(E, R, L * I)] of the dense array. *)
Theorem result_agglosses_sparse ri rm param outputs result
    (Hrun : event_based_risk ri rm param outputs = Ok result) :
  let idx := (res_agglosses result).1 in
  let vals := (res_agglosses result).2 in
  NoDup idx ∧ length vals = length idx ∧
  Forall (λ v, F32.truthy v = true) vals ∧
  Forall (λ p : Idx3,
    p.1.1 < length (hg_eids (hazard_getter ri)) ∧
    p.1.2 < num_rlzs (hazard_getter ri) ∧
    p.2 < num_L rm * num_I param) idx.
Proof.
  apply event_based_risk_sparse in Hrun as (st & Hst & ->).
  apply task_loop_wf in Hst as [Hshape _]. simpl.
  split; [apply NoDup_nonzero|]. split; [by rewrite length_fmap|]. split.
  - apply Forall_fmap, Forall_forall. intros p Hp. simpl.
    by apply wf3_truthy in Hp as [? _].
  - apply Forall_forall. intros [[e r] k] Hp. simpl.
    apply wf3_truthy in Hp as [_ Hp].
    by apply (has_shape_get3 _ _ _ _ _ _ _ Hshape) in Hp.
Qed.

Lemma result_agglosses_sparse_witness :
  NoDup (res_agglosses ex_result0).1 ∧
  length (res_agglosses ex_result0).2 = length (res_agglosses ex_result0).1.
Proof.
  destruct (result_agglosses_sparse (ex_riskinput [0]) ex_riskmodel ex_param
              ex_outputs0 ex_result0) as (H1 & H2 & _).
  - vm_compute. reflexivity.
  - by split.
Defined.

Lemma get3_put3_notin (a : Arr3) idx vals q :
  q ∉ idx → get3 (put3 a idx vals) q = get3 a q.
Proof.
  unfold put3. revert a vals. induction idx as [|p idx IH]; intros a vals Hq; [done|].
  destruct vals as [|v vals]; [done|]. simpl.
  apply not_elem_of_cons in Hq as [Hne Hq].
  rewrite IH by done. by apply get3_set3_ne.
Qed.

Lemma iadd_at_notin (a a' : Arr3) idx vals q :
  iadd_at a idx vals = Ok a' → q ∉ idx → get3 a' q = get3 a q.
Proof.
  unfold iadd_at. intros H Hq.
  destruct (take3 a idx) as [old|]; [|done]. simpl in H.
  case_decide; [|done]. simplify_eq. by apply get3_put3_notin.
Qed.

Section task_more.
Context (ri : RiskInput) (rm : RiskModel) (param : Param).

Lemma asset_step_Ok l r lt indices lrs st st' aa :
  asset_step ri rm param l r lt indices lrs st aa = Ok st' →
  ∃ ratios, lrs !! aa.1 = Some ratios ∧
    match builder param, all_curves st with
    | Some b, Some ac =>
        Some <$> (curves_step ri param b r lt (ordinal aa.2) (value aa.2 lt) ratios ac)
    | _, _ => Ok (all_curves st)
    end = Ok (all_curves st') ∧
    (if avg_losses param
     then avg_step ri rm param l r (ordinal aa.2) ratios (avg st)
     else Ok (avg st)) = Ok (avg st') ∧
    agg_step rm param l r indices
      ((λ row : list F32.t, F32.mul (value aa.2 lt) <$> row) <$> ratios) (agg st)
    = Ok (agg st').
Proof.
  intros H. unfold asset_step in H.
  destruct (lrs !! aa.1) as [ratios|]; [|done]. simpl in H. exists ratios.
  split; [done|].
  match type of H with (?c ≫= _) = _ => destruct c as [ac|]; [|done] end. simpl in H.
  match type of H with (?c ≫= _) = _ => destruct c as [avg'|]; [|done] end. simpl in H.
  match type of H with (?c ≫= _) = _ => destruct c as [agg'|] eqn:Hagg; [|done] end.
  simpl in H. by simplify_eq.
Qed.

(** what the loop over the loss types of an output does, seen from the
    steps of its assets *)
Lemma output_step_inv (P : TaskState → Prop) st st' out :
  (∀ l lt lrs indices st st' aa,
     loss_types rm !! l = Some lt →
     traverse (λ eid, or_raise KeyError (eid2idx (hazard_getter ri) !! eid))
       (out_eids out) = Ok indices →
     P st →
     asset_step ri rm param l (out_rlzi out) lt indices lrs st aa = Ok st' →
     P st') →
  P st → output_step ri rm param st out = Ok st' → P st'.
Proof.
  intros Hstep Hs H. unfold output_step in H. case_decide; [by simplify_eq|].
  eapply (foldM_inv P); [|exact Hs|exact H].
  intros s [l [lrs|]] s' _ Hs1 Hl; unfold loss_type_step in Hl; simpl in Hl;
    [|by simplify_eq].
  destruct (loss_types rm !! l) as [lt|] eqn:Hlt; [|done]. simpl in Hl.
  match type of Hl with (?c ≫= _) = _ => destruct c as [indices|] eqn:Hidx; [|done] end.
  simpl in Hl.
  eapply (foldM_inv P); [|exact Hs1|exact Hl].
  intros ???? Hs2 H2. by eapply Hstep.
Qed.

Lemma agg_step_notin l r indices losses a a' q :
  agg_step rm param l r indices losses a = Ok a' →
  (q.1.2 ≠ r ∨ q.1.1 ∉ indices) → get3 a' q = get3 a q.
Proof.
  intros H Hq. unfold agg_step in H.
  eapply (foldM_never (λ a, get3 a q)); [|exact H].
  intros s i s' _ Hi. simpl in Hi.
  destruct (column losses i) as [col|]; [|done]. simpl in Hi.
  eapply iadd_at_notin; [exact Hi|].
  intros (e & -> & He)%list_elem_of_fmap. simpl in Hq. by destruct Hq.
Qed.

Lemma task_loop_off outputs st :
  task_loop ri rm param outputs = Ok st →
  (avg_losses param = false → avg st = ∅) ∧
  (is_Some (all_curves st) ↔ is_Some (builder param)).
Proof.
  intros Hst.
  set (P := λ st, (avg_losses param = false → avg st = ∅) ∧
            (is_Some (all_curves st) ↔ is_Some (builder param))).
  eapply (foldM_inv P); [| |exact Hst].
  - intros s out s' _ Hs Hout. eapply (output_step_inv P); [|exact Hs|exact Hout].
    clear. intros l lt lrs indices s s' aa _ _ [Havg Hc] Ha.
    apply asset_step_Ok in Ha as (ratios & _ & Hac & Hav & _). split.
    + intros Hoff. rewrite Hoff in Hav. simplify_eq. rewrite <- Hav. by apply Havg.
    + rewrite <- Hc. destruct (builder param) as [b|], (all_curves s) as [ac|];
        try (injection Hac as <-; done).
      destruct (curves_step _ _ _ _ _ _ _ _ _); [|done].
      injection Hac as <-. by split; intros _; eexists.
  - split; [done|]. simpl. destruct (builder param); simpl; [|done].
    by split; intros _; eexists.
Qed.

Lemma event_based_risk_Ok outputs result :
  event_based_risk ri rm param outputs = Ok result →
  ∃ st, task_loop ri rm param outputs = Ok st ∧
    result = {| res_aids := aids ri; res_agglosses := sparse (agg st);
                res_avglosses := avg st; res_curves := all_curves st |}.
Proof.
  intros Hrun. unfold event_based_risk in Hrun.
  destruct (task_loop ri rm param outputs) as [st|] eqn:Hst; [|done]. simpl in Hrun.
  destruct (take3 (agg st) (nonzero (agg st))) as [vals|] eqn:Hv; [|done].
  simpl in Hrun. simplify_eq. exists st. split; [done|].
  by apply take3_Ok in Hv as [-> _].
Qed.
End task_more.

(** X2. An output of the risk model changes the aggregate losses of its own
    realization and of its own events only: a cell [(e, r, k)] of the dense
    array keeps its value when [r] is not the realization of the output, or
    when [e] is not the index of any of its event ids. *)
Theorem output_step_frame ri rm param st st' out e r k
    (Hstep : output_step ri rm param st out = Ok st')
    (Hout : r ≠ out_rlzi out ∨
            ∀ eid, eid ∈ out_eids out → eid2idx (hazard_getter ri) !! eid ≠ Some e) :
  get3 (agg st') (e, r, k) = get3 (agg st) (e, r, k).
Proof.
  eapply (output_step_inv ri rm param (λ s, get3 (agg s) (e, r, k) = get3 (agg st) (e, r, k)));
    [|done|exact Hstep].
  intros l lt lrs indices s s' aa _ Hidx Hs Ha.
  apply asset_step_Ok in Ha as (ratios & _ & _ & _ & Ha).
  rewrite <- Hs. eapply agg_step_notin; [exact Ha|]. simpl.
  destruct Hout as [Hr|He]; [by left|]. right. intros Hin.
  apply traverse_Ok in Hidx.
  apply list_elem_of_lookup in Hin as [j Hj].
  destruct (Forall2_lookup_r _ _ _ _ _ Hidx Hj) as (eid & Heid & Hf).
  destruct (eid2idx (hazard_getter ri) !! eid) as [e'|] eqn:He'; [|done].
  simpl in Hf. simplify_eq. eapply He; [|exact He'].
  by eapply list_elem_of_lookup_2.
Qed.

Lemma output_step_frame_witness :
  ∃ st',
    output_step (ex_riskinput [1]) ex_riskmodel ex_param
      (task_init (ex_riskinput [1]) ex_riskmodel ex_param)
      {| out_eids := [7]%N; out_rlzi := 0; out_assets := [ex_asset 1 20];
         out_ratios := [Some [[[F32.of_Z 1]]]] |} = Ok st' ∧
    get3 (agg st') (0, 0, 0) =
    get3 (agg (task_init (ex_riskinput [1]) ex_riskmodel ex_param)) (0, 0, 0).
Proof.
  eexists. split; [vm_compute; reflexivity|].
  apply (output_step_frame (ex_riskinput [1]) ex_riskmodel ex_param
           (task_init (ex_riskinput [1]) ex_riskmodel ex_param) _
           {| out_eids := [7]%N; out_rlzi := 0; out_assets := [ex_asset 1 20];
              out_ratios := [Some [[[F32.of_Z 1]]]] |} 0 0 0).
  - vm_compute. reflexivity.
  - right. intros eid Heid. apply list_elem_of_singleton in Heid. subst eid.
    vm_compute. discriminate.
Defined.

(** X3. What is switched off stays empty: the result carries the asset ids
    of the risk input; without [avg_losses] its average losses are the empty
    dictionary; and it has a buffer of curves exactly when the parameters
    hold a builder. *)
Theorem disabled_outputs ri rm param outputs result
    (Hrun : event_based_risk ri rm param outputs = Ok result) :
  res_aids result = aids ri ∧
  (avg_losses param = false → res_avglosses result = ∅) ∧
  (builder param = None → res_curves result = None) ∧
  (is_Some (builder param) → is_Some (res_curves result)).
Proof.
  apply event_based_risk_Ok in Hrun as (st & Hst & ->). simpl.
  apply task_loop_off in Hst as [H1 H2].
  split; [done|]. split; [done|]. split; [|by intros ?; apply H2].
  intros Hb. destruct (all_curves st); [|done].
  destruct H2 as [H2 _]. rewrite Hb in H2. by destruct H2.
Qed.

Lemma disabled_outputs_witness :
  res_aids ex_result0 = [0] ∧ res_curves ex_result0 = None.
Proof.
  destruct (disabled_outputs (ex_riskinput [0]) ex_riskmodel ex_param
              ex_outputs0 ex_result0) as (H1 & _ & H2 & _).
  - vm_compute. reflexivity.
  - split; [exact H1|]. apply H2. reflexivity.
Defined.

Lemma foldM_Ok_elem {A S} (P : S → Prop) (f : S → A → res S) l : ∀ s s' x,
  (∀ s x s', P s → f s x = Ok s' → P s') →
  P s → foldM f s l = Ok s' → x ∈ l → ∃ s1 s2, P s1 ∧ f s1 x = Ok s2.
Proof.
  induction l as [|y l IH]; intros s s' x Hstep Hs H Hx; [by apply elem_of_nil in Hx|].
  simpl in H. destruct (f s y) as [s1|] eqn:Hy; [|done]. simpl in H.
  apply elem_of_cons in Hx as [->|Hx]; [by eauto|].
  eapply IH; [exact Hstep| |exact H|exact Hx]. by eapply Hstep.
Qed.

Section array_mode.
Context (ri : RiskInput) (rm : RiskModel) (param : Param).
Context (Hsite : by_site ri = false) (Havg : avg_losses param = true).

Lemma avg_step_arr l r aid ratios avg avg' :
  (arr_inv ri) avg → avg_step ri rm param l r aid ratios avg = Ok avg' →
  aid < length (aids ri) ∧ (arr_inv ri) avg'.
Proof.
  intros Hinv H. unfold avg_step in H.
  assert (Hbody : ∀ s i s', (arr_inv ri) s →
    (let lba := avg_get (avg_accum ri param) s (l + num_L rm * i, r) in
     x ← or_raise IndexError
           (((λ s, F32.mul s (ses_ratio param)) <$> sum_axis0 (num_I param) ratios) !! i);
     lba' ← lba_add lba aid x;
     Ok (<[(l + num_L rm * i, r) := lba']> s)) = Ok s' →
    aid < length (aids ri) ∧ (arr_inv ri) s').
  { intros s i s' Hs Hb. simpl in Hb.
    destruct (_ !! i) as [x|]; [|done]. simpl in Hb.
    assert (∃ a, avg_get (avg_accum ri param) s (l + num_L rm * i, r) = AccArr a ∧
                 length a = length (aids ri)) as (a & Ha & Hlen).
    { unfold avg_get. destruct (s !! _) as [v|] eqn:Hv; simpl.
      - by apply (Hs _ _ Hv).
      - unfold avg_accum. rewrite Hsite, Havg. simpl. eexists. split; [done|].
        by rewrite length_replicate. }
    rewrite Ha in Hb. simpl in Hb.
    destruct (a !! aid) as [y|] eqn:Hy; [|done]. simpl in Hb. simplify_eq. split.
    - rewrite <- Hlen. by eapply lookup_lt_Some.
    - apply map_Forall_insert_2; [|done]. eexists. split; [done|].
      by rewrite length_insert. }
  split.
  - destruct (foldM_Ok_elem (arr_inv ri) _ _ _ _ 0 (λ s x s' Hs Hx, proj2 (Hbody s x s' Hs Hx))
                Hinv H) as (s1 & s2 & Hs1 & Hs2).
    { apply elem_of_seq. unfold num_I. lia. }
    by destruct (Hbody _ _ _ Hs1 Hs2).
  - eapply (foldM_inv (arr_inv ri)); [|exact Hinv|exact H].
    intros s i s' _ Hs Hb. by destruct (Hbody _ _ _ Hs Hb).
Qed.

Lemma asset_step_arr l r lt indices lrs st st' aa :
  (arr_inv ri) (avg st) → asset_step ri rm param l r lt indices lrs st aa = Ok st' →
  ordinal aa.2 < length (aids ri) ∧ (arr_inv ri) (avg st').
Proof.
  intros Hinv (ratios & _ & _ & Hav & _)%asset_step_Ok.
  rewrite Havg in Hav. by eapply avg_step_arr.
Qed.

Lemma output_step_arr st st' out :
  (arr_inv ri) (avg st) → output_step ri rm param st out = Ok st' → (arr_inv ri) (avg st').
Proof.
  intros Hinv H. eapply (output_step_inv ri rm param (λ st, (arr_inv ri) (avg st)));
    [|exact Hinv|exact H].
  intros l lt lrs indices s s' aa _ _ Hs Ha. by eapply asset_step_arr.
Qed.

Lemma task_loop_arr outputs st :
  task_loop ri rm param outputs = Ok st → (arr_inv ri) (avg st).
Proof.
  intros H. eapply (foldM_inv (λ st, (arr_inv ri) (avg st))); [| |exact H].
  - intros s out s' _ Hs Hout. by eapply output_step_arr.
  - simpl. apply map_Forall_empty.
Qed.

Lemma task_loop_ordinals outputs st out l lrs asset :
  task_loop ri rm param outputs = Ok st →
  out ∈ outputs → out_eids out ≠ [] →
  out_ratios out !! l = Some (Some lrs) → asset ∈ out_assets out →
  ordinal asset < length (aids ri).
Proof.
  intros H Hout Heids Hl Hasset.
  destruct (foldM_Ok_elem (λ st, (arr_inv ri) (avg st)) _ _ _ _ out
              (λ s x s', output_step_arr s s' x) (map_Forall_empty _) H Hout) as (s1 & s2 & Hs1 & Hs2).
  unfold output_step in Hs2. case_decide as Hlen.
  { by apply nil_length_inv in Hlen. }
  assert (Hlt : ∀ s x s', (arr_inv ri) (avg s) →
            loss_type_step ri rm param out s x = Ok s' → (arr_inv ri) (avg s')).
  { intros s [l' [lrs'|]] s' Hs Hx; unfold loss_type_step in Hx; simpl in Hx;
      [|by simplify_eq].
    destruct (loss_types rm !! l') as [lt|]; [|done]. simpl in Hx.
    match type of Hx with (?c ≫= _) = _ => destruct c as [indices|]; [|done] end.
    simpl in Hx. eapply (foldM_inv (λ st, (arr_inv ri) (avg st))); [|exact Hs|exact Hx].
    intros ???? Hs' Ha. by eapply asset_step_arr. }
  destruct (foldM_Ok_elem (λ st, (arr_inv ri) (avg st)) _ _ _ _ (l, Some lrs)
              Hlt Hs1 Hs2) as (s3 & s4 & Hs3 & Hs4).
  { by apply elem_of_enumerate. }
  unfold loss_type_step in Hs4. simpl in Hs4.
  destruct (loss_types rm !! l) as [lt|]; [|done]. simpl in Hs4.
  match type of Hs4 with (?c ≫= _) = _ => destruct c as [indices|]; [|done] end.
  simpl in Hs4.
  apply list_elem_of_lookup in Hasset as [a Ha].
  destruct (foldM_Ok_elem (λ st, (arr_inv ri) (avg st)) _ _ _ _ (a, asset)
              (λ s x s' Hs Hx, proj2 (asset_step_arr _ _ _ _ _ _ _ _ Hs Hx))
              Hs3 Hs4) as (s5 & s6 & Hs5 & Hs6).
  { by apply elem_of_enumerate. }
  by destruct (asset_step_arr _ _ _ _ _ _ _ _ Hs5 Hs6).
Qed.
End array_mode.

(** X4. When the risk input is not by site and the average losses are on,
    the accumulators of the average losses are arrays of [len(aids)] numbers
    that are indexed by the ordinal of the asset: if the task returns, every
    asset of every output that it went through (an output with events, for
    loss ratios that are not [None]) has an ordinal below [len(aids)], and
    every value of [avglosses] is such an array. *)
Theorem array_mode_ordinals ri rm param outputs result out l lrs asset
    (Hsite : by_site ri = false) (Havg : avg_losses param = true)
    (Hrun : event_based_risk ri rm param outputs = Ok result)
    (Hout : out ∈ outputs) (Heids : out_eids out ≠ [])
    (Hl : out_ratios out !! l = Some (Some lrs))
    (Hasset : asset ∈ out_assets out) :
  ordinal asset < length (aids ri) ∧
  map_Forall (λ _ v, ∃ a, v = AccArr a ∧ length a = length (aids ri))
    (res_avglosses result).
Proof.
  apply event_based_risk_Ok in Hrun as (st & Hst & ->). simpl. split.
  - by eapply task_loop_ordinals.
  - by eapply task_loop_arr.
Qed.

Lemma array_mode_ordinals_witness :
  ordinal (ex_asset 0 10) < length (aids ex_riskinput_arr).
Proof.
  destruct (array_mode_ordinals ex_riskinput_arr ex_riskmodel ex_param
              ex_outputs0 ex_result_arr
              {| out_eids := [5; 7]%N; out_rlzi := 0;
                 out_assets := [ex_asset 0 10];
                 out_ratios := [Some [[[F32.of_Z 0]; [F32.of_Z 1]]]] |}
              0 [[[F32.of_Z 0]; [F32.of_Z 1]]] (ex_asset 0 10)) as [H _].
  - reflexivity.
  - reflexivity.
  - vm_compute. reflexivity.
  - apply list_elem_of_singleton. reflexivity.
  - simpl. discriminate.
  - reflexivity.
  - apply list_elem_of_singleton. reflexivity.
  - exact H.
Defined.

(** X5. [save_losses] has no use for arrays of average losses: it asks
    them for [get]. A result whose average losses are arrays, with assets and
    with at least one entry, makes [save_losses] raise, whatever the
    calculator. *)
Theorem array_mode_not_saved ri rm param outputs result c
    (Hsite : by_site ri = false) (Havg : avg_losses param = true)
    (Hrun : event_based_risk ri rm param outputs = Ok result)
    (Haids : aids ri ≠ []) (Hne : res_avglosses result ≠ ∅) :
  ∃ e, save_losses c result = Raise e.
Proof.
  destruct (save_losses c result) as [c'|e] eqn:Hsave; [|by eexists].
  exfalso. apply event_based_risk_Ok in Hrun as (st & Hst & ->).
  simpl in Hne. apply task_loop_arr in Hst; [|done..].
  apply save_losses_dset in Hsave. simpl in Hsave.
  apply map_choose in Hne as (k & v & Hkv).
  destruct (Hst _ _ Hkv) as (a & -> & _).
  apply elem_of_map_to_list in Hkv.
  destruct (foldM_Ok_elem (λ _, True) _ _ _ _ _ (λ _ _ _ _ _, I) I Hsave Hkv)
    as ([d|] & s2 & _ & Hs); [|done].
  destruct k as [li r].
  destruct (save_avg c (aids ri) d (li, r, AccArr a)) as [d'|] eqn:Hd; [|done].
  apply save_avg_spec in Hd as (vs & lt & _ & _ & Hdict & _).
  by destruct (Hdict Haids).
Qed.

Lemma array_mode_not_saved_witness :
  ∃ e, save_losses ex_calc0 ex_result_arr = Raise e.
Proof.
  apply (array_mode_not_saved ex_riskinput_arr ex_riskmodel ex_param
           ex_outputs0 ex_result_arr ex_calc0).
  - reflexivity.
  - reflexivity.
  - vm_compute. reflexivity.
  - simpl. discriminate.
  - vm_compute. discriminate.
Defined.

(** ** More on [EbrCalculator] *)

Lemma save_losses_fields c dic c' :
  save_losses c dic = Ok c' →
  c' = with_accumulators c (c_agglosses c') (c_dset c') (c_taskno c + 1).
Proof.
  intros H. unfold save_losses in H.
  destruct (save_agglosses _ _) as [a|]; [|done]. simpl in H.
  match type of H with (?m ≫= _) = _ => destruct m as [d|]; [|done] end.
  simpl in H. by simplify_eq.
Qed.

Lemma combine_all_fields c results : ∀ c',
  combine_all c results = Ok c' →
  c' = with_accumulators c (c_agglosses c') (c_dset c')
         (c_taskno c + length results).
Proof.
  unfold combine_all. revert c. induction results as [|r results IH]; intros c c' H.
  - simpl in H. simplify_eq. destruct c'. unfold with_accumulators. simpl.
    by rewrite Nat.add_0_r.
  - simpl in H. destruct (save_losses c r) as [c1|] eqn:H1; [|done]. simpl in H.
    apply IH in H. apply save_losses_fields in H1.
    rewrite H. rewrite H1 at 1. unfold with_accumulators. simpl. f_equal.
    rewrite H1. simpl. lia.
Qed.

Lemma pre_execute_shape oq env c :
  pre_execute oq env = Ok c →
  c_agglosses c = zeros3 (c_E c) (c_R c)
    (num_L (riskmodel_ c) * num_I (param_ c)) ∧
  c_E c = length (c_eids c) ∧
  c_dset c = (if avg_losses (param_ c)
              then Some (zeros3 (c_A c) (c_R c)
                           (num_L (riskmodel_ c) * num_I (param_ c)))
              else None) ∧
  c_taskno c = 0 ∧ avg_losses (param_ c) = oq_avg_losses oq.
Proof.
  unfold pre_execute. intros H.
  destruct (find_parent oq env) as [parent|]; [|done]. simpl in H.
  by simplify_eq.
Qed.

Lemma reachable_agglosses oq env c0 results c :
  pre_execute oq env = Ok c0 → combine_all c0 results = Ok c →
  has_shape (c_E c) (c_R c) (num_L (riskmodel_ c) * num_I (param_ c))
    (c_agglosses c).
Proof.
  intros Hpre Hcomb.
  pose proof (combine_all_fields _ _ _ Hcomb) as Hc.
  apply pre_execute_shape in Hpre as (Ha & _).
  eapply combine_all_frame in Hcomb as (_ & _ & _ & _ & Hs);
    [|rewrite Ha; apply has_shape_zeros3].
  rewrite Hc at 1 2 3 4. exact Hs.
Qed.



(** X7. The calculator accepts the aggregate losses of its tasks: after
    [pre_execute] and any number of results, the sparse aggregate losses of a
    task that ran with the risk model and the parameters of the calculator,
    over its [E] events and [R] realizations, are added to [agglosses]
    without an error; the shape is kept, the cells at the positions of the
    result get the sum, and the other cells are left as they are. *)
Theorem result_accepted oq env c0 results c ri outputs r
    (Hpre : pre_execute oq env = Ok c0)
    (Hcomb : combine_all c0 results = Ok c)
    (Hrun : event_based_risk ri (riskmodel_ c) (param_ c) outputs = Ok r)
    (HE : length (hg_eids (hazard_getter ri)) = c_E c)
    (HR : num_rlzs (hazard_getter ri) = c_R c) :
  ∃ st a',
    task_loop ri (riskmodel_ c) (param_ c) outputs = Ok st ∧
    save_agglosses (c_agglosses c) (res_agglosses r) = Ok a' ∧
    has_shape (c_E c) (c_R c) (num_L (riskmodel_ c) * num_I (param_ c)) a' ∧
    ∀ p, get3 a' p =
      if decide (p ∈ (res_agglosses r).1)
      then Some (F32.add (cell (c_agglosses c) p) (cell (agg st) p))
      else get3 (c_agglosses c) p.
Proof.
  pose proof (reachable_agglosses _ _ _ _ _ Hpre Hcomb) as Hs.
  apply event_based_risk_sparse in Hrun as (st & Hst & Hr).
  pose proof (task_loop_wf _ _ _ _ _ Hst) as [Hst' _]. rewrite HE, HR in Hst'.
  destruct (save_sparse_spec _ _ _ _ _ Hs Hst') as (a' & Ha' & Hsh & Hget).
  exists st, a'. rewrite Hr. done.
Qed.

Lemma result_accepted_witness :
  ∃ st a',
    task_loop (ex_riskinput [1]) ex_riskmodel ex_param ex_outputs1 = Ok st ∧
    save_agglosses (c_agglosses ex_calc1) (res_agglosses ex_result1) = Ok a'.
Proof.
  assert (pre_execute (ex_oq 1) ex_env = Ok ex_calc0) as H1
    by (vm_compute; reflexivity).
  assert (combine_all ex_calc0 [ex_result0] = Ok ex_calc1) as H2
    by (vm_compute; reflexivity).
  assert (event_based_risk (ex_riskinput [1]) (riskmodel_ ex_calc1)
            (param_ ex_calc1) ex_outputs1 = Ok ex_result1) as H3
    by (vm_compute; reflexivity).
  destruct (result_accepted (ex_oq 1) ex_env ex_calc0 [ex_result0] ex_calc1
              (ex_riskinput [1]) ex_outputs1 ex_result1 H1 H2 H3 eq_refl eq_refl)
    as (st & a' & H4 & H5 & _).
  exists st, a'. split; [exact H4|exact H5].
Defined.

Lemma save_avg_other c aids (d d' : Arr3) li r ratios a r' li' :
  save_avg c aids d (li, r, ratios) = Ok d' → (li', r') ≠ (li, r) →
  get3 d' (a, r', li') = get3 d (a, r', li').
Proof.
  intros (vs & lt & _ & _ & _ & _ & _ & H)%save_avg_spec Hne. rewrite H.
  rewrite decide_False; [done|].
  intros (aid & [= -> -> ->] & _)%list_elem_of_fmap. done.
Qed.

Lemma save_avg_opt_Ok c aids dset kv s' :
  save_avg_opt c aids dset kv = Ok s' →
  ∃ d d', dset = Some d ∧ s' = Some d' ∧ save_avg c aids d kv = Ok d'.
Proof.
  destruct dset as [d|]; [|done]. simpl.
  destruct (save_avg c aids d kv) as [d'|] eqn:H; [|done]. simpl.
  intros [= <-]. by exists d, d'.
Qed.

(** X8. What [save_losses] does to the dataset of the average losses, cell
    by cell: for a key [(li, r)] that the result does not have, the cells
    [(a, r, li)] are left as they are; for a key [(li, r)] with the ratios
    [ratios], the loss type and the values [vs] of the assets are found, and
    the cell of every asset [a] of the result grows by
    [ratios.get(a, 0) * vs[a]]. *)
Theorem save_losses_avg c dic c' d d' li r
    (Hsave : save_losses c dic = Ok c')
    (Hd : c_dset c = Some d) (Hd' : c_dset c' = Some d') :
  match res_avglosses dic !! (li, r) with
  | None => ∀ a, get3 d' (a, r, li) = get3 d (a, r, li)
  | Some ratios =>
      ∃ lt vs,
        loss_types (riskmodel_ c) !!
          (if decide (li < num_L (riskmodel_ c)) then li
           else li - num_L (riskmodel_ c)) = Some lt ∧
        vals c !! lt = Some vs ∧
        ∀ a, a ∈ res_aids dic →
          get3 d' (a, r, li) =
          (λ x, F32.add x (contribution ratios vs a)) <$> get3 d (a, r, li)
  end.
Proof.
  apply save_losses_dset in Hsave. rewrite Hd, Hd' in Hsave.
  change (foldM (save_avg_opt c (res_aids dic)) (Some d)
            (map_to_list (res_avglosses dic)) = Ok (Some d')) in Hsave.
  destruct (res_avglosses dic !! (li, r)) as [ratios|] eqn:Hk.
  - apply elem_of_map_to_list in Hk.
    destruct (foldM_Ok_elem (λ _, True) _ _ _ _ _ (λ _ _ _ _ _, I) I Hsave Hk)
      as (s1 & s2 & _ & Hs).
    apply save_avg_opt_Ok in Hs as (d1 & d2 & -> & -> & Hs).
    apply save_avg_spec in Hs as (vs & lt & Hlt & Hvs & _).
    exists lt, vs. split; [done|]. split; [done|]. intros a Ha.
    refine (foldM_once (λ s : option Arr3, match s with Some d => get3 d (a, r, li) | None => None end)
             (save_avg_opt c (res_aids dic))
             (λ v v', v' = (λ x, F32.add x (contribution ratios vs a)) <$> v)
             (li, r, ratios) _ (Some d) (Some d')
             (NoDup_map_to_list _) Hk _ _ Hsave).
    + intros s [[li' r'] ratios'] s' Hin Hne
        (e1 & e2 & -> & -> & He)%save_avg_opt_Ok.
      change (get3 e2 (a, r, li) = get3 e1 (a, r, li)).
      eapply save_avg_other; [exact He|]. intros [= -> ->]. apply Hne.
      apply elem_of_map_to_list in Hin, Hk. by simplify_eq.
    + intros s s' (e1 & e2 & -> & -> & He)%save_avg_opt_Ok.
      change (get3 e2 (a, r, li) =
              (λ x, F32.add x (contribution ratios vs a)) <$> get3 e1 (a, r, li)).
      apply save_avg_spec in He as (vs' & lt' & Hlt' & Hvs' & _ & _ & _ & He).
      simplify_eq. rewrite He. rewrite decide_True.
      * unfold cell. by destruct (get3 e1 (a, r, li)).
      * apply list_elem_of_fmap. by exists a.
  - intros a.
    refine (foldM_never (λ s : option Arr3, match s with Some d => get3 d (a, r, li) | None => None end)
             (save_avg_opt c (res_aids dic)) _ (Some d) (Some d') _ Hsave).
    intros s [[li' r'] ratios'] s' Hin (e1 & e2 & -> & -> & He)%save_avg_opt_Ok.
    change (get3 e2 (a, r, li) = get3 e1 (a, r, li)).
    eapply save_avg_other; [exact He|]. intros [= -> ->].
    apply elem_of_map_to_list in Hin. by simplify_eq.
Qed.

Lemma save_losses_avg_witness :
  ∃ lt vs,
    vals ex_calc0 !! lt = Some vs ∧
    ∀ a, a ∈ res_aids ex_result0 →
      get3 [[[F32.of_Z 10]]; [[F32.zero]]] (a, 0, 0) =
      (λ x, F32.add x (contribution (AccDict {[0 := F32.of_Z 1]}) vs a)) <$>
        get3 [[[F32.zero]]; [[F32.zero]]] (a, 0, 0).
Proof.
  assert (save_losses ex_calc0 ex_result0 = Ok ex_calc1) as H1
    by (vm_compute; reflexivity).
  pose proof (save_losses_avg ex_calc0 ex_result0 ex_calc1
                [[[F32.zero]]; [[F32.zero]]] [[[F32.of_Z 10]]; [[F32.zero]]] 0 0
                H1 eq_refl eq_refl) as H.
  assert (res_avglosses ex_result0 !! (0, 0) =
          Some (AccDict {[0 := F32.of_Z 1]})) as Hk by (vm_compute; reflexivity).
  destruct (res_avglosses ex_result0 !! (0, 0)) as [ratios|]; [|discriminate Hk].
  injection Hk as ->.
  destruct H as (lt & vs & _ & Hvs & H).
  exists lt, vs. split; [exact Hvs|exact H].
Defined.



Lemma length_bind_le {A B} (f : A → list B) (l : list A) n :
  (∀ x, x ∈ l → length (f x) ≤ n) → length (l ≫= f) ≤ length l * n.
Proof.
  induction l as [|x l IH]; intros H; csimpl; [done|].
  rewrite length_app.
  assert (length (f x) ≤ n) by (apply H; by left).
  assert (length (l ≫= f) ≤ length l * n) by (apply IH; intros y Hy; apply H; by right).
  lia.
Qed.

Lemma py_sorted_le l : StronglySorted N.le (py_sorted l).
Proof. apply StronglySorted_merge_sort; [apply _|]. intros x y. lia. Qed.

Lemma losses_by_event_zeros eids (a : Arr3) :
  (∀ p x, get3 a p = Some x → F32.is_zero x) → losses_by_event eids a = [].
Proof.
  intros Hz. destruct (losses_by_event eids a) as [|rec l] eqn:Hl; [done|].
  assert (rec ∈ losses_by_event eids a) as Hin by (rewrite Hl; by left).
  apply elem_of_losses_by_event in Hin
    as (i & r & e & plane & lossv & _ & Hp & Hr & Ht & _).
  assert (F32.is_zero (F32.sum lossv)) as Hs.
  { apply sum_zeros, Forall_forall. intros x Hx.
    apply list_elem_of_lookup in Hx as [k Hk]. apply (Hz (i, r, k)).
    simpl. rewrite Hp. simpl. rewrite Hr. done. }
  apply truthy_false in Hs. congruence.
Qed.

Lemma find_parent_Ok oq env parent :
  find_parent oq env = Ok parent →
  parent = if decide ("gmfs" ∈ oq_inputs oq) then None
           else if hc_given oq
                then Some (env_parent env) else Some (env_ebcalc env).
Proof.
  unfold find_parent. intros H. case_decide.
  - destruct (hc_given oq); by simplify_eq.
  - destruct (hc_given oq); [|by simplify_eq].
    repeat case_match; try done. by simplify_eq.
Qed.

(** a [hazard_calculation_id] of 0 counts as none: no parent is checked
    and the events are those of the pre-calculator *)
Lemma find_parent_zero oq env :
  "gmfs" ∉ oq_inputs oq → hazard_calculation_id oq = Some 0 →
  find_parent oq env = Ok (Some (env_ebcalc env)).
Proof.
  intros Hg H0. unfold find_parent, hc_given. rewrite H0.
  by rewrite decide_False.
Qed.

(** X10. The events of [pre_execute]: the event ids are those of the
    calculator itself for a file of GMFs, those of the parent calculation
    for a [hazard_calculation_id] that is true as a condition (not [None]
    and not 0), and else those of the pre-calculator; they
    are kept with their repetitions and put in ascending order, which fixes
    the list whatever the stored order is; [E] is their number, the epsilons
    are asked for [(A, E)], the aggregate losses are zeros of shape
    [(E, R, L * I)], and the event loss table of a calculator that has not
    seen any result is empty. *)
Theorem pre_execute_eids oq env c
    (Hpre : pre_execute oq env = Ok c) :
  let events :=
    if decide ("gmfs" ∈ oq_inputs oq) then env_events env
    else if hc_given oq
         then hz_events_eid (env_parent env)
         else hz_events_eid (env_ebcalc env) in
  c_eids c ≡ₚ events ∧ StronglySorted N.le (c_eids c) ∧
  (∀ l, l ≡ₚ events → StronglySorted N.le l → l = c_eids c) ∧
  c_E c = length events ∧ c_eps_shape c = (env_A env, length events) ∧
  c_agglosses c = zeros3 (length events) (env_R env)
                    (num_L (env_riskmodel env) * num_I (param_ c)) ∧
  losses_by_event (c_eids c) (c_agglosses c) = [].
Proof.
  intros events.
  assert (c_eids c = py_sorted events) as Heids.
  { unfold pre_execute in Hpre.
    destruct (find_parent oq env) as [parent|] eqn:Hp; [|done].
    apply find_parent_Ok in Hp. simpl in Hpre. simplify_eq. simpl.
    subst events. case_decide; [done|]. by destruct (hc_given oq). }
  pose proof (pre_execute_shape _ _ _ Hpre) as (Ha & HE & _).
  assert (c_eids c ≡ₚ events) as Hperm.
  { rewrite Heids. unfold py_sorted. apply merge_sort_Permutation. }
  assert (length (c_eids c) = length events) as Hlen by (by rewrite Hperm).
  split; [done|]. split; [rewrite Heids; apply py_sorted_le|]. split.
  { intros l Hl Hs. rewrite Heids.
    apply (StronglySorted_unique N.le); [done|apply py_sorted_le|].
    by rewrite Hl, <- Heids, Hperm. }
  assert (c_R c = env_R env ∧ c_A c = env_A env ∧ riskmodel_ c = env_riskmodel env ∧
          c_eps_shape c = (c_A c, c_E c)) as (HR & HA & Hrm & Heps).
  { unfold pre_execute in Hpre. destruct (find_parent oq env); [|done].
    simpl in Hpre. by simplify_eq. }
  split; [congruence|]. split; [congruence|]. split; [congruence|].
  apply losses_by_event_zeros. intros [[e r] k] x Hx. rewrite Ha in Hx.
  exists false.
  assert (is_Some (get3 (zeros3 (c_E c) (c_R c)
            (num_L (riskmodel_ c) * num_I (param_ c))) (e, r, k))) as His by (by eexists).
  apply (has_shape_get3 _ _ _ _ _ _ _ (has_shape_zeros3 _ _ _)) in His as (? & ? & ?).
  rewrite get3_zeros3 in Hx by done. by simplify_eq.
Qed.

Lemma pre_execute_eids_witness :
  c_eids ex_calc0 ≡ₚ [7; 5]%N ∧
  losses_by_event (c_eids ex_calc0) (c_agglosses ex_calc0) = [].
Proof.
  destruct (pre_execute_eids (ex_oq 1) ex_env ex_calc0) as (H1 & _ & _ & _ & _ & _ & H2).
  - vm_compute. reflexivity.
  - split; [exact H1|exact H2].
Defined.

(** X11. The size of the event loss table: for aggregate losses of shape
    [(E, R, K)] the table has at most [min(len(eids), E) * R] records, and
    each record holds the [K] losses of one event and one realization below
    [R], with a sum that is not zero. *)
Theorem losses_by_event_bounds E R K eids (a : Arr3)
    (Hshape : has_shape E R K a) :
  length (losses_by_event eids a) ≤ (length eids `min` E) * R ∧
  ∀ rec, rec ∈ losses_by_event eids a →
    length (loss rec) = K ∧ F32.truthy (F32.sum (loss rec)) = true ∧
    ∃ i r, i < E ∧ r < R ∧ eids !! i = Some (eid rec) ∧ rlzi rec = U16 r ∧
           a !! i ≫= (.!! r) = Some (loss rec).
Proof.
  split.
  - unfold losses_by_event.
    etrans; [apply length_bind_le|].
    + intros [e plane] Hin. simpl.
      apply list_elem_of_lookup in Hin as [i Hi].
      apply lookup_zip_Some in Hi as [_ Hi].
      destruct Hshape as [_ Hpl].
      apply (Forall_lookup_1 _ _ _ _ Hpl) in Hi as [Hlen _].
      etrans; [apply (length_bind_le _ _ 1)|].
      * intros [r lossv] _. simpl. case_match; simpl; lia.
      * unfold enumerate. rewrite length_imap, Hlen, Nat.mul_1_r. done.
    + rewrite length_zip. destruct Hshape as [-> _]. done.
  - intros rec (i & r & e & plane & lossv & He & Hp & Hr & Ht & ->)%elem_of_losses_by_event.
    simpl. destruct Hshape as [HE Hpl].
    pose proof (Forall_lookup_1 _ _ _ _ Hpl Hp) as [HR Hrows].
    pose proof (Forall_lookup_1 _ _ _ _ Hrows Hr) as HK.
    split; [done|]. split; [done|]. exists i, r.
    apply lookup_lt_Some in Hp as Hi. apply lookup_lt_Some in Hr as Hr'.
    rewrite Hp. simpl. repeat split; try done; lia.
Qed.

Lemma losses_by_event_bounds_witness :
  length (losses_by_event (c_eids ex_calc) (c_agglosses ex_calc)) ≤ 2.
Proof.
  destruct (losses_by_event_bounds 2 1 1 (c_eids ex_calc) (c_agglosses ex_calc))
    as [H _].
  - vm_compute. repeat constructor.
  - exact H.
Defined.

(** ** [build_loss_tables] *)

Lemma foldM_Ok_Forall {A S} (P : S → Prop) (Q : A → Prop) (f : S → A → res S) l :
  ∀ s s',
  (∀ s x s', P s → f s x = Ok s' → P s' ∧ Q x) →
  P s → foldM f s l = Ok s' → Forall Q l.
Proof.
  induction l as [|x l IH]; intros s s' Hf Hs H; [constructor|].
  simpl in H. destruct (f s x) as [s1|] eqn:H1; [|done]. simpl in H.
  destruct (Hf _ _ _ Hs H1) as [Hs1 Hx]. constructor; [done|]. by eapply IH.
Qed.

Lemma add_row_Ok n L t i v t' :
  table_shape n L t → add_row t i v = Ok t' →
  i < n ∧ length v = L ∧ table_shape n L t' ∧
  ∀ j, t' !! j = if decide (j = i) then (λ row, zip_with F32.add row v) <$> t !! j
                 else t !! j.
Proof.
  intros [Hn Hrows] H. unfold add_row in H.
  destruct (t !! i) as [row|] eqn:Hi; [|done]. simpl in H.
  case_decide as Hlen; [|done]. simplify_eq.
  pose proof (Forall_lookup_1 _ _ _ _ Hrows Hi) as Hrow. simpl in Hrow.
  apply lookup_lt_Some in Hi as Hlt.
  split; [done|]. split; [congruence|]. split.
  - split; [by rewrite length_insert|]. apply Forall_insert; [done|].
    rewrite length_zip_with. lia.
  - intros j. case_decide as Hj.
    + subst j. rewrite list_lookup_insert_eq by done. by rewrite Hi.
    + by rewrite list_lookup_insert_ne.
Qed.

Lemma add_row_total n L t i v :
  table_shape n L t → i < n → length v = L → ∃ t', add_row t i v = Ok t'.
Proof.
  intros [Hn Hrows] Hi Hv. unfold add_row.
  destruct (lookup_lt_is_Some_2 t i) as [row Hrow]; [lia|]. rewrite Hrow. simpl.
  pose proof (Forall_lookup_1 _ _ _ _ Hrows Hrow).
  rewrite decide_True by congruence. by eexists.
Qed.

Section loss_tables.
Context (L R : nat) (events : list (N * N)) (serials : list N).

Lemma idx_by_ser_Some ser i :
  (idx_by_ser serials) !! ser = Some i → serials !! i = Some ser.
Proof.
  intros H. apply elem_of_list_to_map_2 in H.
  apply elem_of_reverse, list_elem_of_fmap in H as ([j x] & [= -> ->] & H).
  by apply elem_of_enumerate in H.
Qed.

Lemma idx_by_ser_is_Some ser : is_Some ((idx_by_ser serials) !! ser) ↔ ser ∈ serials.
Proof.
  split.
  - intros [i Hi]. apply idx_by_ser_Some in Hi. by eapply list_elem_of_lookup_2.
  - intros Hin. apply not_eq_None_Some. intros Hn.
    apply not_elem_of_list_to_map in Hn. apply Hn.
    rewrite fmap_reverse. apply elem_of_reverse.
    apply list_elem_of_lookup in Hin as [i Hi].
    apply list_elem_of_fmap. exists (ser, i). split; [done|].
    apply list_elem_of_fmap. exists (i, ser). split; [done|].
    by apply elem_of_enumerate.
Qed.

Lemma idx_by_ser_NoDup ser i :
  NoDup serials → (idx_by_ser serials) !! ser = Some i ↔ serials !! i = Some ser.
Proof.
  intros Hnd. split; [apply idx_by_ser_Some|]. intros Hi.
  destruct (proj2 (idx_by_ser_is_Some ser)) as [j Hj];
    [by eapply list_elem_of_lookup_2|].
  rewrite Hj. f_equal. apply idx_by_ser_Some in Hj.
  by eapply NoDup_lookup.
Qed.

Lemma rup_by_eid_NoDup e rup :
  NoDup events.*1 → (rup_by_eid events) !! e = Some rup ↔ (e, rup) ∈ events.
Proof.
  intros Hnd. unfold rup_by_eid. rewrite <- elem_of_list_to_map.
  - apply elem_of_reverse.
  - by rewrite fmap_reverse, reverse_Permutation.
Qed.

Lemma build_loss_tables_fold recs :
  build_loss_tables L R events serials recs =
  foldM (loss_tables_step events serials)
    (replicate (length serials) (replicate L F32.zero),
     replicate R (replicate L F32.zero)) recs.
Proof. done. Qed.

Lemma tables_inv_init :
  (tables_inv L R serials) (replicate (length serials) (replicate L F32.zero),
              replicate R (replicate L F32.zero)).
Proof.
  split; simpl; (split; [by rewrite length_replicate|]);
    apply Forall_replicate; by rewrite length_replicate.
Qed.

Lemma loss_tables_step_Ok tl rec tl' :
  (tables_inv L R serials) tl → (loss_tables_step events serials) tl rec = Ok tl' →
  (tables_inv L R serials) tl' ∧
  (∃ i, (rup_row events serials) rec = Some i ∧ i < length serials ∧
     ∀ j, tl'.1 !! j = if decide (j = i)
                       then (λ row, zip_with F32.add row (loss rec)) <$> tl.1 !! j
                       else tl.1 !! j) ∧
  N.to_nat (rlzi rec) < R ∧ length (loss rec) = L ∧
  ∀ j, tl'.2 !! j = if decide (j = N.to_nat (rlzi rec))
                    then (λ row, zip_with F32.add row (loss rec)) <$> tl.2 !! j
                    else tl.2 !! j.
Proof.
  intros [H1 H2] H. unfold loss_tables_step in H. unfold rup_row.
  destruct ((rup_by_eid events) !! eid rec) as [rup|]; [|done]. simpl in H.
  destruct ((idx_by_ser serials) !! rup) as [i|] eqn:Hi; [|done]. simpl in H.
  destruct (add_row tl.1 i (loss rec)) as [tbl|] eqn:Ht; [|done]. simpl in H.
  destruct (add_row tl.2 _ (loss rec)) as [lbr|] eqn:Hl; [|done]. simpl in H.
  simplify_eq. simpl.
  apply (add_row_Ok _ _ _ _ _ _ H1) in Ht as (? & ? & ? & ?).
  apply (add_row_Ok _ _ _ _ _ _ H2) in Hl as (? & ? & ? & ?).
  split; [done|]. split; [by exists i|]. done.
Qed.

Lemma loss_tables_step_total tl rec i :
  (tables_inv L R serials) tl → (rup_row events serials) rec = Some i → N.to_nat (rlzi rec) < R →
  length (loss rec) = L →
  ∃ tl', (loss_tables_step events serials) tl rec = Ok tl' ∧ (tables_inv L R serials) tl'.
Proof.
  intros [H1 H2] Hrow Hr Hlen.
  unfold rup_row in Hrow. unfold loss_tables_step.
  destruct ((rup_by_eid events) !! eid rec) as [rup|]; [|done]. simpl in *.
  rewrite Hrow. simpl.
  destruct (add_row_total _ _ _ i (loss rec) H1) as [tbl Ht];
    [by eapply lookup_lt_Some, idx_by_ser_Some|done|].
  destruct (add_row_total _ _ _ (N.to_nat (rlzi rec)) (loss rec) H2) as [lbr Hl];
    [done..|].
  rewrite Ht. simpl. rewrite Hl. simpl. eexists. split; [done|].
  apply (add_row_Ok _ _ _ _ _ _ H1) in Ht as (? & ? & ? & ?).
  apply (add_row_Ok _ _ _ _ _ _ H2) in Hl as (? & ? & ? & ?).
  by split.
Qed.

Lemma loss_tables_fold_spec recs : ∀ tl tl',
  (tables_inv L R serials) tl → foldM (loss_tables_step events serials) tl recs = Ok tl' →
  (tables_inv L R serials) tl' ∧
  (∀ i, tl'.1 !! i =
     (λ row, add_up (λ rec, (rup_row events serials) rec = Some i) row recs) <$> tl.1 !! i) ∧
  (∀ r, tl'.2 !! r =
     (λ row, add_up (λ rec, N.to_nat (rlzi rec) = r) row recs) <$> tl.2 !! r).
Proof.
  induction recs as [|rec recs IH]; intros tl tl' Hinv H.
  { simpl in H. simplify_eq. split; [done|].
    split; intros i; unfold add_up; simpl; by destruct (_ !! i). }
  simpl in H. destruct ((loss_tables_step events serials) tl rec) as [tl1|] eqn:H1; [|done].
  simpl in H.
  apply (loss_tables_step_Ok _ _ _ Hinv) in H1
    as (Hinv1 & (i0 & Hi0 & _ & Ht) & _ & _ & Hl).
  destruct (IH _ _ Hinv1 H) as (Hinv' & Ht' & Hl'). split; [done|].
  split.
  - intros i. rewrite Ht', Ht. unfold add_up. rewrite filter_cons.
    case_decide as Hi; case_decide as Hi'; try congruence.
    rewrite <- option_fmap_compose. done.
  - intros r. rewrite Hl', Hl. unfold add_up. rewrite filter_cons.
    case_decide as Hi; case_decide as Hi'; try congruence.
    rewrite <- option_fmap_compose. done.
Qed.
End loss_tables.

(** X12. When [build_loss_tables] works: for events with distinct ids and
    records with [L] losses each, the tables are built if and only if each
    record has the id of a stored event whose rupture is among the serials,
    and a realization below [R]. *)
Theorem build_loss_tables_ok L R events serials recs
    (Hnd : NoDup events.*1)
    (Hlen : Forall (λ rec, length (loss rec) = L) recs) :
  (∃ tl, build_loss_tables L R events serials recs = Ok tl) ↔
  Forall (λ rec, (∃ rup, (eid rec, rup) ∈ events ∧ rup ∈ serials) ∧
                 N.to_nat (rlzi rec) < R) recs.
Proof.
  rewrite build_loss_tables_fold. split.
  - intros [tl H].
    eapply (foldM_Ok_Forall (tables_inv L R serials)); [|apply tables_inv_init|exact H].
    intros s rec s' Hs Hrec.
    apply (loss_tables_step_Ok _ _ _ _ _ _ _ Hs) in Hrec
      as (Hs' & (i & Hi & _) & Hr & _).
    split; [done|]. split; [|done].
    unfold rup_row in Hi. destruct (rup_by_eid events !! eid rec) as [rup|] eqn:He;
      [|done]. simpl in Hi.
    exists rup. split; [by apply rup_by_eid_NoDup|].
    apply idx_by_ser_is_Some. by eexists.
  - intros Hall.
    destruct (foldM_total (tables_inv L R serials) (loss_tables_step events serials) recs
                _ (tables_inv_init L R serials)) as (tl & Htl & _); [|by eexists].
    intros s rec Hin Hs.
    rewrite Forall_forall in Hall, Hlen.
    destruct (Hall _ Hin) as [(rup & He & Hser) Hr].
    apply idx_by_ser_is_Some in Hser as [i Hi].
    eapply (loss_tables_step_total _ _ _ _ _ _ i); [done| |done|by apply Hlen].
    unfold rup_row. apply rup_by_eid_NoDup in He; [|done]. rewrite He. done.
Qed.

Lemma build_loss_tables_ok_witness :
  ∃ tl, build_loss_tables 1 1 ex_events [1%N] ex_recs = Ok tl.
Proof.
  apply (build_loss_tables_ok 1 1 ex_events [1%N] ex_recs).
  - apply NoDup_ListNoDup; repeat constructor; simpl; intuition discriminate.
  - repeat constructor.
  - repeat constructor.
    exists 1%N. split; [apply list_elem_of_In; simpl; tauto|].
    apply list_elem_of_singleton. reflexivity.
Defined.

(** X13. What [build_loss_tables] returns, for events with distinct ids and
    distinct serials: a table with a row per rupture and a table with a row
    per realization, all rows of [L] numbers; the row of a rupture is the
    sum, in the order of the records and starting from zeros, of the losses
    of the records of its events, and the row of a realization is the sum of
    the losses of its records. *)
Theorem build_loss_tables_sums L R events serials recs tbl lbr
    (Hev : NoDup events.*1) (Hser : NoDup serials)
    (Hrun : build_loss_tables L R events serials recs = Ok (tbl, lbr)) :
  length tbl = length serials ∧ length lbr = R ∧
  (∀ i ser, serials !! i = Some ser →
     tbl !! i = Some (add_up (λ rec, (eid rec, ser) ∈ events)
                        (replicate L F32.zero) recs)) ∧
  (∀ r, r < R →
     lbr !! r = Some (add_up (λ rec, N.to_nat (rlzi rec) = r)
                        (replicate L F32.zero) recs)) ∧
  Forall (λ row, length row = L) (tbl ++ lbr).
Proof.
  rewrite build_loss_tables_fold in Hrun.
  apply (loss_tables_fold_spec L R events serials) in Hrun
    as ([[H1 H1'] [H2 H2']] & Ht & Hl); [|apply tables_inv_init].
  simpl in *. split; [done|]. split; [done|]. split; [|split].
  - intros i ser Hi. rewrite Ht.
    rewrite lookup_replicate_2 by (by eapply lookup_lt_Some). simpl. f_equal.
    unfold add_up. f_equal. f_equal. apply list_filter_iff. intros rec.
    unfold rup_row. split.
    + destruct (rup_by_eid events !! eid rec) as [rup|] eqn:He; [|done]. simpl.
      intros Hidx. apply idx_by_ser_Some in Hidx.
      apply rup_by_eid_NoDup in He; [|done]. congruence.
    + intros He. apply rup_by_eid_NoDup in He; [|done]. rewrite He. simpl.
      by apply idx_by_ser_NoDup.
  - intros r Hr. rewrite Hl. by rewrite lookup_replicate_2.
  - by apply Forall_app.
Qed.

Lemma build_loss_tables_sums_witness :
  [[F32.of_Z 30]] !! 0 =
  Some (add_up (λ rec, (eid rec, 1%N) ∈ ex_events) (replicate 1 F32.zero) ex_recs).
Proof.
  destruct (build_loss_tables_sums 1 1 ex_events [1%N] ex_recs
              [[F32.of_Z 30]] [[F32.of_Z 30]]) as (_ & _ & H & _).
  - apply NoDup_ListNoDup; repeat constructor; simpl; intuition discriminate.
  - apply NoDup_ListNoDup; repeat constructor; simpl; intuition discriminate.
  - vm_compute. reflexivity.
  - apply (H 0 1%N). reflexivity.
Defined.

(** ** More on the [ebr] task *)

Section rank3_more.
Context {A : Type}.
Implicit Types (c : list (list (list A))) (p q : Idx3).

Lemma get3_cube O L R (x : A) o l r :
  get3 (cube O L R x) (o, l, r) =
  if decide (o < O ∧ l < L ∧ r < R) then Some x else None.
Proof.
  unfold get3, cube.
  destruct (replicate O _ !! o) as [plane|] eqn:Ho; simpl.
  - apply lookup_replicate in Ho as [-> Ho].
    destruct (replicate L _ !! l) as [row|] eqn:Hl; simpl.
    + apply lookup_replicate in Hl as [-> Hl].
      destruct (replicate R x !! r) as [y|] eqn:Hr.
      * apply lookup_replicate in Hr as [-> Hr]. by rewrite decide_True.
      * apply lookup_replicate_None in Hr. rewrite decide_False; [done|lia].
    + apply lookup_replicate_None in Hl. rewrite decide_False; [done|lia].
  - apply lookup_replicate_None in Ho. rewrite decide_False; [done|lia].
Qed.

Lemma get3_fmap {B} (f : A → B) c p :
  get3 (fmap (M := list) (fmap (M := list) (fmap (M := list) f)) c) p
  = f <$> get3 c p.
Proof.
  destruct p as [[o l] r]. unfold get3. rewrite list_lookup_fmap.
  destruct (c !! o) as [plane|]; simpl; [|done]. rewrite list_lookup_fmap.
  destruct (plane !! l) as [row|]; simpl; [|done]. by rewrite list_lookup_fmap.
Qed.

Lemma get3_set3 c p q x :
  get3 (set3 c p x) q = if decide (q = p) then const x <$> get3 c q else get3 c q.
Proof.
  case_decide as H; [subst; apply get3_set3_eq|by apply get3_set3_ne].
Qed.
End rank3_more.

Lemma cube_append_get (c c' : Cube) p x :
  cube_append c p x = Ok c' →
  is_Some (get3 c p) ∧
  ∀ q, get3 c' q =
    if decide (q = p) then (λ cell, cell ++ [x]) <$> get3 c q else get3 c q.
Proof.
  unfold cube_append. intros H.
  destruct (get3 c p) as [cell|] eqn:Hp; [|done]. simpl in H. simplify_eq.
  split; [done|]. intros q. rewrite get3_set3. case_decide; [|done].
  subst. by rewrite Hp.
Qed.

Lemma size_list_to_map_le {K V} `{Countable K} (l : list (K * V)) :
  size (list_to_map l : gmap K V) ≤ length l.
Proof.
  induction l as [|[k v] l IH]; simpl; [by rewrite map_size_empty|].
  rewrite map_size_insert. case_match; unfold id; simpl in *; lia.
Qed.

Lemma size_loss_type_index lts : size (loss_type_index lts) ≤ length lts.
Proof.
  unfold loss_type_index. etrans; [apply size_list_to_map_le|].
  rewrite length_reverse, length_fmap. unfold enumerate. by rewrite length_imap.
Qed.

Lemma loss_type_index_Some lts name l :
  loss_type_index lts !! name = Some l → lts !! l = Some name.
Proof.
  intros H. apply elem_of_list_to_map_2 in H.
  apply elem_of_reverse, list_elem_of_fmap in H as ([j x] & [= -> ->] & H).
  by apply elem_of_enumerate in H.
Qed.

Section ebr_loops.
Context (lts : list string) (rlzs : list Realization).

Lemma ebr_Ok outputs c :
  ebr lts rlzs outputs = Ok c ↔
  ∃ losses, (ebr_loop lts rlzs) outputs = Ok losses ∧
    c = fmap (M := list) (fmap (M := list) (fmap (M := list) compact)) losses.
Proof.
  unfold ebr. fold (loss_type_index lts). fold ((ebr_loop lts rlzs) outputs).
  destruct ((ebr_loop lts rlzs) outputs) as [losses|]; simpl.
  - split; [intros [= <-]; by eexists|]. by intros (? & [= <-] & ->).
  - split; [done|]. by intros (? & ? & _).
Qed.

Lemma ebr_rupture_inv (P : Cube → Prop) lt ord c t c' :
  (∀ c p x c', P c → one_loss x → cube_append c p x = Ok c' → P c') →
  P c → ebr_rupture lt ord c t = Ok c' → P c'.
Proof.
  intros Happ Hc H. destruct t as [[rid loss] ins]. unfold ebr_rupture in H.
  match type of H with (?c ≫= _) = _ => destruct c as [s3|] eqn:H3; [|done] end.
  simpl in H.
  assert (P s3) as Hs3.
  { destruct (F32.gt0 loss) eqn:Hg; [|by simplify_eq].
    eapply Happ; [exact Hc| |exact H3]. by eexists _, _. }
  destruct (F32.gt0 ins) eqn:Hg; [|by simplify_eq].
  eapply Happ; [exact Hs3| |exact H]. by eexists _, _.
Qed.

Lemma ebr_output_inv (P : Cube → Prop) idx rup_ids c ro c' :
  (∀ c p x c', P c → one_loss x → cube_append c p x = Ok c' → P c') →
  P c → ebr_output idx rup_ids c ro = Ok c' → P c'.
Proof.
  intros Happ Hc H. unfold ebr_output in H.
  match type of H with (?c ≫= _) = _ => destruct c as [lt|]; [|done] end.
  simpl in H. eapply (foldM_inv P); [|exact Hc|exact H].
  intros s t s' _ Hs Ht. by eapply ebr_rupture_inv.
Qed.

Lemma ebr_loop_inv (P : Cube → Prop) outputs losses :
  (∀ c p x c', P c → one_loss x → cube_append c p x = Ok c' → P c') →
  P (cube NUM_OUTPUTS (size (loss_type_index lts)) (length rlzs) []) →
  (ebr_loop lts rlzs) outputs = Ok losses → P losses.
Proof.
  intros Happ H0 H. eapply (foldM_inv P); [|exact H0|exact H].
  intros s obr s' _ Hs Ho. eapply (foldM_inv P); [|exact Hs|exact Ho].
  intros s1 ro s1' _ Hs1 H1. by eapply ebr_output_inv.
Qed.

Lemma ebr_loop_shape outputs losses :
  (ebr_loop lts rlzs) outputs = Ok losses →
  ∀ o l r, is_Some (get3 losses (o, l, r)) ↔
    o < NUM_OUTPUTS ∧ l < size (loss_type_index lts) ∧ r < length rlzs.
Proof.
  intros H.
  eapply (ebr_loop_inv (λ c, ∀ o l r, is_Some (get3 c (o, l, r)) ↔
            o < NUM_OUTPUTS ∧ l < size (loss_type_index lts) ∧ r < length rlzs));
    [| |exact H].
  - intros c p x c' Hc _ [Hp Hget]%cube_append_get o l r.
    rewrite Hget. case_decide as Hq; [|apply Hc].
    rewrite fmap_is_Some. apply Hc.
  - intros o l r. rewrite get3_cube. case_decide; [by split|].
    split; [by intros []|done].
Qed.

Lemma ebr_loop_arrays outputs losses :
  (ebr_loop lts rlzs) outputs = Ok losses →
  ∀ p cell, get3 losses p = Some cell → Forall (λ arr, arr ≠ []) cell.
Proof.
  intros H.
  eapply (ebr_loop_inv (λ c, ∀ p cell, get3 c p = Some cell →
            Forall (λ arr, arr ≠ []) cell)); [| |exact H].
  - intros c p x c' Hc (rid & loss & -> & _) [Hp Hget]%cube_append_get q cell.
    rewrite Hget. case_decide as Hq; [|apply Hc].
    destruct (get3 c q) as [cell0|] eqn:Hq0; [|done]. simpl. intros [= <-].
    apply Forall_app. split; [by eapply Hc|]. by repeat constructor.
  - intros [[o l] r] cell. rewrite get3_cube. case_decide; [|done].
    intros [= <-]. constructor.
Qed.
End ebr_loops.

(** X14. The shape of the result of [ebr]: a cube with [NUM_OUTPUTS]
    outputs, as many loss types as there are distinct names (all of them if
    no name is repeated) and as many realizations as the association has;
    each cell holds no array or one array that is not empty; so the result
    fits in the accumulator of [execute]. *)
Theorem ebr_shape lts rlzs outputs c
    (Hrun : ebr lts rlzs outputs = Ok c) :
  (∀ o l r, is_Some (get3 c (o, l, r)) ↔
     o < NUM_OUTPUTS ∧ l < size (loss_type_index lts) ∧ r < length rlzs) ∧
  size (loss_type_index lts) ≤ length lts ∧
  (NoDup lts → size (loss_type_index lts) = length lts) ∧
  (∀ p cell, get3 c p = Some cell →
     cell = [] ∨ ∃ arr, cell = [arr] ∧ arr ≠ []) ∧
  fits (cube NUM_OUTPUTS (length lts) (length rlzs) []) c.
Proof.
  apply ebr_Ok in Hrun as (losses & Hl & ->).
  pose proof (size_loss_type_index lts) as Hsz.
  assert (Hshape : ∀ o l r,
    is_Some (get3 (fmap (M := list) (fmap (M := list) (fmap (M := list) compact))
                     losses) (o, l, r)) ↔
    o < NUM_OUTPUTS ∧ l < size (loss_type_index lts) ∧ r < length rlzs).
  { intros o l r. rewrite get3_fmap, fmap_is_Some.
    apply (ebr_loop_shape _ _ _ _ Hl). }
  split; [done|]. split; [done|]. split; [|split].
  - intros Hnd. unfold loss_type_index. rewrite map_size_list_to_map.
    + rewrite length_reverse, length_fmap. unfold enumerate. by rewrite length_imap.
    + rewrite fmap_reverse, reverse_Permutation, <- list_fmap_compose.
      unfold enumerate. rewrite fmap_imap.
      rewrite (imap_ext _ (λ _ x, x)) by done.
      change (NoDup (imap (const id) lts)). by rewrite imap_const, list_fmap_id.
  - intros p cell. rewrite get3_fmap.
    destruct (get3 losses p) as [cell0|] eqn:Hp; [|done]. simpl. intros [= <-].
    pose proof (ebr_loop_arrays _ _ _ _ Hl _ _ Hp) as Harr.
    destruct cell0 as [|a cell0]; [by left|]. right. eexists. split; [done|].
    inversion_clear Harr as [|?? Ha _]. simpl. by destruct a.
  - intros [[o l] r] (Ho & Hl' & Hr)%Hshape. rewrite get3_cube.
    rewrite decide_True; [done|]. lia.
Qed.

Lemma ebr_shape_witness :
  fits (cube NUM_OUTPUTS 1 1 []) ex_ebr.
Proof.
  destruct (ebr_shape ["structural"] [ex_rlz] [ex_out_by_rlz] ex_ebr)
    as (_ & _ & _ & _ & H).
  - vm_compute. reflexivity.
  - exact H.
Defined.

Lemma foldM_establish {A S} (Q : S → Prop) (f : S → A → res S) l x : ∀ s s',
  x ∈ l → (∀ s s', f s x = Ok s' → Q s') →
  (∀ s y s', Q s → f s y = Ok s' → Q s') →
  foldM f s l = Ok s' → Q s'.
Proof.
  induction l as [|y l IH]; intros s s' Hx Hq Hkeep H; [by apply elem_of_nil in Hx|].
  simpl in H. destruct (f s y) as [s1|] eqn:Hy; [|done]. simpl in H.
  apply elem_of_cons in Hx as [->|Hx].
  - eapply (foldM_inv Q); [|by eapply Hq|exact H]. intros ?????. by eapply Hkeep.
  - by eapply IH.
Qed.

Lemma foldM_Raise {A S} (f : S → A → res S) l e : ∀ s,
  foldM f s l = Raise e → ∃ s1 x, x ∈ l ∧ f s1 x = Raise e.
Proof.
  induction l as [|y l IH]; intros s H; [done|]. simpl in H.
  destruct (f s y) as [s1|e'] eqn:Hy; simpl in H.
  - destruct (IH _ H) as (s2 & x & Hx & Hf). exists s2, x. split; [by right|done].
  - simplify_eq. exists s, y. split; [by left|done].
Qed.

Lemma recorded_append c p x c' q rec :
  recorded c q rec → cube_append c p x = Ok c' → recorded c' q rec.
Proof.
  intros (cell & arr & Hq & Harr & Hrec) [_ Hget]%cube_append_get.
  unfold recorded. rewrite Hget, Hq. case_decide; simpl.
  - exists (cell ++ [x]), arr. split; [done|]. split; [|done].
    apply elem_of_app. by left.
  - by exists cell, arr.
Qed.

Lemma recorded_new c p rec c' :
  cube_append c p [rec] = Ok c' → recorded c' p rec.
Proof.
  intros [[cell Hp] Hget]%cube_append_get. unfold recorded.
  rewrite Hget, decide_True, Hp by done. simpl.
  exists (cell ++ [[rec]]), [rec]. split; [done|]. split.
  - apply elem_of_app. right. by left.
  - by left.
Qed.

Lemma ebr_rupture_recorded lt ord c rid loss ins c' :
  ebr_rupture lt ord c (rid, loss, ins) = Ok c' →
  (F32.gt0 loss = true →
     recorded c' (0, lt, ord) {| rup_id := U32 rid; rloss := loss |}) ∧
  (F32.gt0 ins = true →
     recorded c' (1, lt, ord) {| rup_id := U32 rid; rloss := ins |}).
Proof.
  intros H. unfold ebr_rupture in H.
  match type of H with (?c ≫= _) = _ => destruct c as [s3|] eqn:H3; [|done] end.
  simpl in H. split.
  - intros Hg. rewrite Hg in H3. apply recorded_new in H3.
    destruct (F32.gt0 ins); [|by simplify_eq]. by eapply recorded_append.
  - intros Hg. rewrite Hg in H. by apply recorded_new in H.
Qed.

Lemma ebr_loop_recorded lts rlzs outputs losses obr rlz out lt k row irow :
  ebr_loop lts rlzs outputs = Ok losses →
  obr ∈ outputs → (rlz, out) ∈ zip rlzs (outs obr) →
  loss_type_index lts !! out_loss_type out = Some lt →
  (rup_slice obr).1 + k < (rup_slice obr).2 →
  event_loss_per_asset out !! k = Some row →
  insured_loss_per_asset out !! k = Some irow →
  let rid := U32 ((rup_slice obr).1 + k) in
  (F32.gt0 (F32.sum row) = true →
     recorded losses (0, lt, rlz_ordinal rlz)
       {| rup_id := rid; rloss := F32.sum row |}) ∧
  (F32.gt0 (F32.sum irow) = true →
     recorded losses (1, lt, rlz_ordinal rlz)
       {| rup_id := rid; rloss := F32.sum irow |}).
Proof.
  intros H Hobr Hro Hlt Hk Hrow Hirow rid.
  set (Q := λ c : Cube,
    (F32.gt0 (F32.sum row) = true →
       recorded c (0, lt, rlz_ordinal rlz) {| rup_id := rid; rloss := F32.sum row |}) ∧
    (F32.gt0 (F32.sum irow) = true →
       recorded c (1, lt, rlz_ordinal rlz) {| rup_id := rid; rloss := F32.sum irow |})).
  assert (Happ : ∀ c p x c', Q c → one_loss x → cube_append c p x = Ok c' → Q c').
  { intros c p x c' [Q1 Q2] _ Ha.
    split; intros Hg; eapply recorded_append; eauto. }
  change (Q losses).
  eapply (foldM_establish Q); [exact Hobr| | |exact H].
  - intros s s' Hs.
    eapply (foldM_establish Q); [exact Hro| | |exact Hs].
    + intros s1 s1' Hs1. unfold ebr_output in Hs1. simpl in Hs1.
      rewrite Hlt in Hs1. simpl in Hs1.
      eapply (foldM_establish Q
                (ebr_rupture lt (rlz_ordinal rlz)) _
                ((rup_slice obr).1 + k, F32.sum row, F32.sum irow));
        [| | |exact Hs1].
      * apply (list_elem_of_lookup_2 _ k). unfold zip3.
        apply lookup_zip_Some. split; [apply lookup_zip_Some; split|].
        -- apply lookup_seq. split; [done|lia].
        -- by rewrite list_lookup_fmap, Hrow.
        -- by rewrite list_lookup_fmap, Hirow.
      * intros s2 s2' Hs2. by apply ebr_rupture_recorded in Hs2.
      * intros s2 t s2' Hs2 Ht. by eapply (ebr_rupture_inv Q).
    + intros s1 ro s1' Hs1 Hro'. by eapply (ebr_output_inv Q).
  - intros s obr' s' Hs Ho. eapply (foldM_inv Q); [|exact Hs|exact Ho].
    intros s1 ro s1' _ Hs1 H1. by eapply (ebr_output_inv Q).
Qed.

Lemma recorded_compact losses p rec :
  recorded losses p rec →
  ∃ arr, get3 (fmap (M := list) (fmap (M := list) (fmap (M := list) compact))
                 losses) p = Some [arr] ∧ rec ∈ arr.
Proof.
  intros (cell & arr & Hp & Harr & Hrec). rewrite get3_fmap, Hp. simpl.
  exists (mjoin cell). split.
  - destruct cell; [by apply elem_of_nil in Harr|done].
  - apply list_elem_of_join. by exists arr.
Qed.

(** X15. [ebr] drops no positive loss: for an output of a realization, a
    loss type known to the risk model and the [k]-th rupture of the slice,
    which has a row of losses and a row of insured losses, a total loss above
    zero is recorded, with the id of the rupture, in the one array of the
    cell [(0, lt, ordinal)], and a total insured loss above zero in the one
    array of the cell [(1, lt, ordinal)]. The total is the sum of the row
    over the assets as [sum(axis=1)] computes it along the contiguous axis,
    that is pairwise from 8 assets on. *)
Theorem ebr_complete lts rlzs outputs c obr rlz out lt k row irow
    (Hrun : ebr lts rlzs outputs = Ok c)
    (Hobr : obr ∈ outputs)
    (Hro : (rlz, out) ∈ zip rlzs (outs obr))
    (Hlt : loss_type_index lts !! out_loss_type out = Some lt)
    (Hk : (rup_slice obr).1 + k < (rup_slice obr).2)
    (Hrow : event_loss_per_asset out !! k = Some row)
    (Hirow : insured_loss_per_asset out !! k = Some irow) :
  let rid := U32 ((rup_slice obr).1 + k) in
  lts !! lt = Some (out_loss_type out) ∧
  (F32.gt0 (F32.sum row) = true →
     ∃ arr, get3 c (0, lt, rlz_ordinal rlz) = Some [arr] ∧
            {| rup_id := rid; rloss := F32.sum row |} ∈ arr) ∧
  (F32.gt0 (F32.sum irow) = true →
     ∃ arr, get3 c (1, lt, rlz_ordinal rlz) = Some [arr] ∧
            {| rup_id := rid; rloss := F32.sum irow |} ∈ arr).
Proof.
  intros rid. apply ebr_Ok in Hrun as (losses & Hl & ->).
  split; [by apply loss_type_index_Some|].
  destruct (ebr_loop_recorded _ _ _ _ _ _ _ _ _ _ _ Hl Hobr Hro Hlt Hk Hrow Hirow)
    as [H1 H2].
  split; intros Hg; apply recorded_compact; auto.
Qed.

Lemma ebr_complete_witness :
  ∃ arr, get3 ex_ebr (0, 0, 0) = Some [arr] ∧
    {| rup_id := 0; rloss := F32.of_Z 3 |} ∈ arr.
Proof.
  destruct (ebr_complete ["structural"] [ex_rlz] [ex_out_by_rlz] ex_ebr
              ex_out_by_rlz ex_rlz ex_rlz_output 0 0
              [F32.of_Z 1; F32.of_Z 2] [F32.zero; F32.zero]) as (_ & H & _).
  - vm_compute. reflexivity.
  - apply list_elem_of_singleton. reflexivity.
  - apply list_elem_of_singleton. reflexivity.
  - vm_compute. reflexivity.
  - simpl. lia.
  - reflexivity.
  - reflexivity.
  - apply H. vm_compute. reflexivity.
Defined.

(** X16. [agg] extends the accumulator, or fails with an [IndexError]: it
    returns if and only if the accumulator has a cell for each cell of the
    losses; then each cell of the accumulator is extended by the arrays of
    the same cell of the losses, and a cell that the losses do not have is
    left as it is. *)
Theorem agg_extends (acc losses : Cube) :
  ((∃ acc', agg_ acc losses = Ok acc') ↔ fits acc losses) ∧
  (∀ acc', agg_ acc losses = Ok acc' →
     ∀ p, get3 acc' p =
       (λ cell, cell ++ default [] (get3 losses p)) <$> get3 acc p) ∧
  (∀ e, agg_ acc losses = Raise e → e = IndexError).
Proof.
  split; [|split].
  - split; [intros [acc' H]; by eapply agg_fits|apply agg_total].
  - intros acc' H p. by apply agg_spec.
  - intros e H. unfold agg_ in H.
    apply foldM_Raise in H as (s1 & [p x] & _ & H). simpl in H.
    destruct (get3 s1 p); simpl in H; by simplify_eq.
Qed.

Lemma fits_cube (c : Cube) O L R :
  (∀ o l r, is_Some (get3 c (o, l, r)) → o < O ∧ l < L ∧ r < R) →
  fits (cube O L R []) c.
Proof.
  intros H [[o l] r] Hp. apply H in Hp. rewrite get3_cube.
  by rewrite decide_True.
Qed.

(** X17. The reduction of [execute] cannot fail on the results of the
    tasks: starting from the cube of empty lists for the loss types and the
    realizations of the calculator, the results of any number of [ebr] tasks
    are aggregated; each cell holds the arrays of the tasks in the order of
    their arrival, the shape is that of the accumulator, and every loss
    that is kept is positive. *)
Theorem execute_reduces lts rlzs (results : list Cube)
    (Hres : Forall (λ c, ∃ outputs, ebr lts rlzs outputs = Ok c) results) :
  ∃ acc,
    reduce_agg (cube NUM_OUTPUTS (length lts) (length rlzs) []) results = Ok acc ∧
    (∀ o l r, o < NUM_OUTPUTS → l < length lts → r < length rlzs →
       get3 acc (o, l, r) =
       Some (mjoin ((λ x : Cube, default [] (get3 x (o, l, r))) <$> results))) ∧
    (∀ o l r, is_Some (get3 acc (o, l, r)) →
       o < NUM_OUTPUTS ∧ l < length lts ∧ r < length rlzs) ∧
    (∀ p cell arr rec, get3 acc p = Some cell → arr ∈ cell → rec ∈ arr →
       F32.gt0 (rloss rec) = true).
Proof.
  destruct (reduce_agg_total (cube NUM_OUTPUTS (length lts) (length rlzs) []) results)
    as [acc Hacc].
  { eapply Forall_impl; [exact Hres|]. intros c [outputs Hc]. simpl.
    apply ebr_Ok in Hc as (losses & Hl & ->). apply fits_cube. intros o l r.
    rewrite get3_fmap, fmap_is_Some.
    intros (? & ? & ?)%(ebr_loop_shape _ _ _ _ Hl).
    pose proof (size_loss_type_index lts). lia. }
  exists acc. split; [done|].
  apply reduce_agg_spec in Hacc as [_ Hget]. split; [|split].
  - intros o l r Ho Hl Hr. rewrite Hget, get3_cube, decide_True by done. done.
  - intros o l r. rewrite Hget, fmap_is_Some, get3_cube.
    case_decide; [done|by intros []].
  - intros p cell arr rec. rewrite Hget.
    destruct (get3 (cube _ _ _ _) p) as [cell0|] eqn:Hp; [|done]. simpl.
    destruct p as [[o l] r]. rewrite get3_cube in Hp.
    case_decide; [|done]. simplify_eq. intros [= <-].
    change (arr ∈ mjoin ((λ x : Cube, default [] (get3 x (o, l, r))) <$> results) →
            rec ∈ arr → F32.gt0 (rloss rec) = true).
    intros (cell1 & Harr & Hc)%list_elem_of_join Hrec.
    apply list_elem_of_fmap in Hc as (x & -> & Hx).
    rewrite Forall_forall in Hres. destruct (Hres _ Hx) as [outputs Hebr].
    apply ebr_positive in Hebr.
    destruct (get3 x (o, l, r)) as [cellx|] eqn:Hcx; [|by apply elem_of_nil in Harr].
    change (arr ∈ cellx) in Harr. pose proof (cube_Forall_get _ _ _ _ Hebr Hcx) as Hf.
    rewrite Forall_forall in Hf. specialize (Hf _ Harr).
    rewrite Forall_forall in Hf. by apply Hf.
Qed.

Lemma execute_reduces_witness :
  ∃ acc, reduce_agg (cube NUM_OUTPUTS 1 1 []) [ex_ebr; ex_ebr] = Ok acc ∧
    get3 acc (0, 0, 0) =
    Some (mjoin ((λ x : Cube, default [] (get3 x (0, 0, 0))) <$> [ex_ebr; ex_ebr])).
Proof.
  destruct (execute_reduces ["structural"] [ex_rlz] [ex_ebr; ex_ebr])
    as (acc & H1 & H2 & _).
  - repeat constructor; exists [ex_out_by_rlz]; vm_compute; reflexivity.
  - exists acc. split; [exact H1|]. apply H2; simpl; unfold NUM_OUTPUTS; lia.
Defined.

(** ** The tables of losses of [EventBasedRiskCalculator] *)

Lemma length_resize n1 elt : length (resize n1 elt) = n1.
Proof.
  unfold resize. rewrite length_app, length_take, length_replicate. lia.
Qed.

Lemma set_slice_resize_0 losses elt :
  set_slice 0 losses (resize (0 + length losses) elt) = losses.
Proof.
  unfold set_slice. simpl. rewrite drop_ge; [by rewrite app_nil_r|].
  by rewrite length_resize.
Qed.

Lemma set_slice_resize n losses elt :
  set_slice n losses (resize (n + length losses) elt) =
  take n elt ++ replicate (n - length elt) elt_zero ++ losses.
Proof.
  unfold set_slice. rewrite drop_ge by (by rewrite length_resize).
  rewrite app_nil_r, app_assoc. f_equal. unfold resize.
  destruct (decide (n ≤ length elt)).
  - rewrite take_app_le by (rewrite length_take; lia).
    rewrite take_take. replace (n - length elt) with 0 by lia.
    rewrite app_nil_r. f_equal. lia.
  - rewrite (take_ge elt (n + _)) by lia. rewrite take_app_ge by lia.
    rewrite (take_ge elt n) by lia. f_equal.
    rewrite take_replicate. f_equal. lia.
Qed.

Section table_writes.
Context (name_exists : exn) (humansize : nat → string) (c : AggCalc).

Lemma save_cell_zero st ia st' :
  (∀ n, get3 (ps_acc st) ia.1 = Some n → n = 0) →
  EventBasedRiskCalculator.save_cell c st ia = Ok st' →
  ps_elt st' = put_write (ps_elt st) ((cell_write c) false ia) ∧
  ps_ins st' = put_write (ps_ins st) ((cell_write c) true ia) ∧
  ps_saved st' = ps_saved st + (if saved_cell c ia then nbytes (mjoin ia.2) else 0) ∧
  (∀ q, q ≠ ia.1 → get3 (ps_acc st') q = get3 (ps_acc st) q) ∧
  (saved_cell c ia = true →
     is_Some (cell_key c ia.1) ∧ is_Some (get3 (ps_acc st) ia.1)).
Proof.
  destruct ia as [[[i l] r] arrays]. intros Hn H.
  unfold EventBasedRiskCalculator.save_cell in H. unfold cell_write, saved_cell, cell_key.
  cbn [fst snd] in *.
  destruct arrays as [|a arrays].
  { simplify_eq. rewrite bool_decide_false by (intros Hne; by apply Hne).
    simpl. rewrite Nat.add_0_r. split_and?; done. }
  rewrite bool_decide_true by done. cbv beta iota in H.
  destruct (ac_loss_types c !! l) as [lt|]; [|done].
  destruct (ac_rlzs c !! r) as [rlz|]; [|done].
  destruct (get3 (ps_acc st) (i, l, r)) as [n|] eqn:Hacc; [|done].
  rewrite (Hn n eq_refl) in H. clear Hn. simpl in H. simpl.
  case_decide as Hi.
  - subst i. unfold EventBasedRiskCalculator.write_table in H.
    destruct (ps_elt st !! table_key lt (rlz_uid rlz)) as [elt|]; [|done].
    simpl in H. simplify_eq. simpl.
    pose proof (set_slice_resize_0 (a ++ mjoin arrays) elt) as Hs. simpl in Hs.
    rewrite Hs. split_and?; try done; try by eexists.
    intros q Hq. apply (get3_set3_ne (ps_acc st) (0, l, r) q). congruence.
  - rewrite (bool_decide_false (i = 0)) by done. simpl.
    destruct (ac_insured_losses c); simpl.
    + unfold EventBasedRiskCalculator.write_table in H.
      destruct (ps_ins st !! table_key lt (rlz_uid rlz)) as [elt|]; [|done].
      simpl in H. simplify_eq. simpl.
      pose proof (set_slice_resize_0 (a ++ mjoin arrays) elt) as Hs. simpl in Hs.
      rewrite Hs.
      rewrite (bool_decide_false (i = 0 ↔ false = false)) by (intros [_ ?]; auto).
      rewrite (bool_decide_true (i = 0 ↔ true = false)) by (by split).
      split_and?; try done; try by eexists.
      intros q Hq. apply (get3_set3_ne (ps_acc st) (i, l, r) q). congruence.
    + simplify_eq. rewrite Nat.add_0_r. split_and?; done.
Qed.

Lemma save_cells_zero l : ∀ st st',
  NoDup l.*1 →
  (∀ p n, p ∈ l.*1 → get3 (ps_acc st) p = Some n → n = 0) →
  foldM (EventBasedRiskCalculator.save_cell c) st l = Ok st' →
  ps_elt st' = foldl (λ m ia, put_write m ((cell_write c) false ia)) (ps_elt st) l ∧
  ps_ins st' = foldl (λ m ia, put_write m ((cell_write c) true ia)) (ps_ins st) l ∧
  ps_saved st' = ps_saved st + saved_bytes c l ∧
  Forall (λ ia, saved_cell c ia = true →
            is_Some (cell_key c ia.1) ∧ is_Some (get3 (ps_acc st) ia.1)) l.
Proof.
  induction l as [|ia l IH]; intros st st' Hnd Hz H.
  { simpl in H. simplify_eq. unfold saved_bytes. simpl.
    rewrite Nat.add_0_r. done. }
  simpl in H. destruct (EventBasedRiskCalculator.save_cell c st ia) as [st1|] eqn:H1; [|done]. simpl in H.
  rewrite fmap_cons in Hnd. apply NoDup_cons in Hnd as [Hia Hnd].
  apply save_cell_zero in H1 as (He & Hi & Hs & Hacc & Hsv).
  2:{ intros n. apply Hz. rewrite fmap_cons. by left. }
  destruct (IH st1 st' Hnd) as (He' & Hi' & Hs' & Hsv'); [|done|].
  { intros p n Hp. rewrite Hacc by (by intros ->).
    apply Hz. rewrite fmap_cons. by right. }
  simpl. rewrite He', Hi', Hs', He, Hi, Hs.
  split; [done|]. split; [done|]. split.
  { unfold saved_bytes. rewrite fmap_cons. simpl. lia. }
  constructor; [done|].
  rewrite Forall_forall in Hsv'. apply Forall_forall. intros ib Hib Hsb.
  destruct (Hsv' _ Hib Hsb) as [Hk Hg]. split; [done|].
  rewrite <- (Hacc ib.1); [done|]. intros Heq. apply Hia. rewrite <- Heq.
  apply list_elem_of_fmap. by exists ib.
Qed.
End table_writes.

Lemma NoDup_bind_lookup {A B} (f : A → list B) l i j x y b :
  NoDup (l ≫= f) → l !! i = Some x → l !! j = Some y →
  b ∈ f x → b ∈ f y → i = j.
Proof.
  revert i j. induction l as [|z l IH]; intros i j Hnd Hi Hj Hx Hy; [done|].
  rewrite bind_cons in Hnd. apply NoDup_app in Hnd as (_ & Hdis & Hnd).
  destruct i as [|i], j as [|j]; simpl in *; simplify_eq; try done.
  - exfalso. apply (Hdis b Hx). apply list_elem_of_bind. exists y.
    split; [done|]. by eapply list_elem_of_lookup_2.
  - exfalso. apply (Hdis b Hy). apply list_elem_of_bind. exists x.
    split; [done|]. by eapply list_elem_of_lookup_2.
  - f_equal. by eapply IH.
Qed.

Lemma NoDup_bind_inner {A B} (f : A → list B) l i x :
  NoDup (l ≫= f) → l !! i = Some x → NoDup (f x).
Proof.
  revert i. induction l as [|z l IH]; intros i Hnd Hi; [done|].
  rewrite bind_cons in Hnd. apply NoDup_app in Hnd as (Hz & _ & Hnd).
  destruct i as [|i]; simpl in *; simplify_eq; [done|]. by eapply IH.
Qed.

Lemma elem_of_table_keys lts rlzs key :
  key ∈ table_keys lts rlzs ↔
  ∃ l r lt rlz, lts !! l = Some lt ∧ rlzs !! r = Some rlz ∧
    key = table_key lt (rlz_uid rlz).
Proof.
  unfold table_keys. rewrite list_elem_of_bind. split.
  - intros (lt & (rlz & Hk & Hr)%list_elem_of_bind & Hl).
    apply list_elem_of_singleton in Hk.
    apply list_elem_of_lookup in Hl as [l Hl]. apply list_elem_of_lookup in Hr as [r Hr].
    by exists l, r, lt, rlz.
  - intros (l & r & lt & rlz & Hl & Hr & ->). exists lt.
    split; [|by eapply list_elem_of_lookup_2].
    apply list_elem_of_bind. exists rlz.
    split; [by apply list_elem_of_singleton|by eapply list_elem_of_lookup_2].
Qed.

Lemma table_keys_inj lts rlzs l r lt rlz l' r' lt' rlz' :
  NoDup (table_keys lts rlzs) →
  lts !! l = Some lt → rlzs !! r = Some rlz →
  lts !! l' = Some lt' → rlzs !! r' = Some rlz' →
  table_key lt (rlz_uid rlz) = table_key lt' (rlz_uid rlz') →
  l = l' ∧ r = r'.
Proof.
  intros Hnd Hl Hr Hl' Hr' Hk. unfold table_keys in Hnd.
  assert (∀ lt0 rlz0, rlzs !! r = Some rlz0 ∨ rlzs !! r' = Some rlz0 →
            table_key lt0 (rlz_uid rlz0) ∈
            rlzs ≫= λ rlz, [table_key lt0 (rlz_uid rlz)]) as Hin.
  { intros lt0 rlz0 H0. apply list_elem_of_bind. exists rlz0.
    split; [by apply list_elem_of_singleton|].
    destruct H0; by eapply list_elem_of_lookup_2. }
  assert (l = l') as <-.
  { eapply (NoDup_bind_lookup _ _ l l' lt lt' _ Hnd Hl Hl');
      [apply Hin; by left|rewrite Hk; apply Hin; by right]. }
  split; [done|]. simplify_eq.
  pose proof (NoDup_bind_inner _ _ _ _ Hnd Hl) as Hinner.
  eapply (NoDup_bind_lookup _ _ r r' rlz rlz' _ Hinner Hr Hr');
    [by apply list_elem_of_singleton|rewrite Hk; by apply list_elem_of_singleton].
Qed.

Section writes.
Context (w : Idx3 * list (list loss_rec) → option (string * list loss_rec)).

Lemma foldl_put_never l m k :
  (∀ ia v, ia ∈ l → w ia ≠ Some (k, v)) →
  foldl (λ m ia, put_write m (w ia)) m l !! k = m !! k.
Proof.
  revert m. induction l as [|ia l IH]; intros m Hw; [done|]. simpl.
  rewrite IH by (intros ???; apply Hw; by right).
  destruct (w ia) as [[k' v]|] eqn:Hia; simpl; [|done].
  apply lookup_insert_ne. intros ->. by apply (Hw ia v); [left|].
Qed.

Lemma foldl_put_once l m k v0 ia0 :
  ia0 ∈ l → w ia0 = Some (k, v0) →
  (∀ ia v, ia ∈ l → w ia = Some (k, v) → v = v0) →
  foldl (λ m ia, put_write m (w ia)) m l !! k = Some v0.
Proof.
  revert m ia0. induction l as [|ia l IH] using rev_ind; intros m ia0 Hin H0 Hw;
    [by apply elem_of_nil in Hin|].
  rewrite foldl_app. simpl.
  destruct (w ia) as [[k' v]|] eqn:Hia; simpl.
  - destruct (decide (k' = k)) as [->|Hne].
    + rewrite lookup_insert_eq. f_equal. apply (Hw ia); [|done].
      apply elem_of_app. right. by left.
    + rewrite lookup_insert_ne by done.
      apply elem_of_app in Hin as [Hin|Hin%list_elem_of_singleton];
        [|simplify_eq].
      apply (IH _ ia0); [done..|]. intros ia1 v1 Hin1. apply Hw.
      apply elem_of_app. by left.
  - apply elem_of_app in Hin as [Hin|Hin%list_elem_of_singleton];
      [|simplify_eq].
    apply (IH _ ia0); [done..|]. intros ia1 v1 Hin1. apply Hw.
    apply elem_of_app. by left.
Qed.
End writes.

Section post_execute_more.
Context (name_exists : exn) (humansize : nat → string).

Lemma post_execute_Ok c result c' :
  EventBasedRiskCalculator.post_execute humansize c result = Ok c' →
  ∃ st,
    foldM (EventBasedRiskCalculator.save_cell c)
      {| ps_acc := cube NUM_OUTPUTS (length (ac_loss_types c))
                     (length (ac_rlzs c)) 0;
         ps_saved := 0;
         ps_elt := event_loss_table c; ps_ins := insured_loss_table c |}
      (ndenumerate result) = Ok st ∧
    c' = {| ac_loss_types := ac_loss_types c; ac_rlzs := ac_rlzs c;
            ac_insured_losses := ac_insured_losses c;
            event_loss_table := ps_elt st; insured_loss_table := ps_ins st;
            ac_log := ac_log c ++
              (if decide (1 < ps_saved st)
               then [(INFO, "Saved " +:+ humansize (ps_saved st) +:+ " of data")]
               else []) |}.
Proof.
  unfold EventBasedRiskCalculator.post_execute. intros H.
  match type of H with (?m ≫= _) = _ => destruct m as [st|] eqn:Hst; [|done] end.
  simpl in H. simplify_eq. by exists st.
Qed.

(** the tables after [EventBasedRiskCalculator.post_execute], as the writes of the cells *)
Lemma post_execute_writes c result c' :
  EventBasedRiskCalculator.post_execute humansize c result = Ok c' →
  event_loss_table c' =
    foldl (λ m ia, put_write m (cell_write c false ia)) (event_loss_table c)
      (ndenumerate result) ∧
  insured_loss_table c' =
    foldl (λ m ia, put_write m (cell_write c true ia)) (insured_loss_table c)
      (ndenumerate result) ∧
  ac_log c' = ac_log c ++
    (if decide (saved_bytes c (ndenumerate result) = 0) then []
     else [(INFO, "Saved " +:+ humansize (saved_bytes c (ndenumerate result))
                    +:+ " of data")]) ∧
  (∀ i l r arrays, get3 result (i, l, r) = Some arrays →
     saved_cell c ((i, l, r), arrays) = true →
     i < NUM_OUTPUTS ∧ l < length (ac_loss_types c) ∧ r < length (ac_rlzs c)) ∧
  ac_loss_types c' = ac_loss_types c ∧ ac_rlzs c' = ac_rlzs c ∧
  ac_insured_losses c' = ac_insured_losses c.
Proof.
  intros (st & Hst & ->)%post_execute_Ok. simpl.
  apply save_cells_zero in Hst as (He & Hi & Hs & Hsv);
    [|apply NoDup_ndenumerate|].
  2:{ intros [[i l] r] n _. cbn [ps_acc]. rewrite get3_cube. case_decide; [|done].
      by intros [= <-]. }
  simpl in *. split; [done|]. split; [done|]. split; [|split; [|done]].
  - rewrite Hs. f_equal.
    assert (∃ k, saved_bytes c (ndenumerate result) = 8 * k) as [k Hk].
    { unfold saved_bytes. generalize (ndenumerate result). intros l.
      induction l as [|ia l [k IH]]; [by exists 0|]. rewrite fmap_cons. simpl.
      rewrite IH. destruct (saved_cell c ia); unfold nbytes.
      - exists (length (mjoin ia.2) + k). lia.
      - exists k. lia. }
    repeat case_decide; try done; lia.
  - intros i l r arrays Hget Hsaved. rewrite Forall_forall in Hsv.
    destruct (Hsv ((i, l, r), arrays)) as [_ Hacc]; [|done|].
    { by apply elem_of_ndenumerate. }
    cbn [ps_acc fst] in Hacc. rewrite get3_cube in Hacc.
    case_decide; [done|by destruct Hacc].
Qed.

Lemma cell_write_Some c ins ia key v :
  cell_write c ins ia = Some (key, v) →
  ia.2 ≠ [] ∧ v = mjoin ia.2 ∧ cell_key c ia.1 = Some key ∧
  (ia.1.1.1 = 0 ↔ ins = false) ∧ (ins = true → ac_insured_losses c = true).
Proof.
  unfold cell_write, saved_cell. intros H.
  destruct (bool_decide (ia.2 ≠ [])) eqn:H1; [|done].
  apply bool_decide_eq_true in H1. simpl in H.
  destruct (bool_decide (ia.1.1.1 = 0 ↔ ins = false)) eqn:H2;
    [|by rewrite andb_false_r in H].
  apply bool_decide_eq_true in H2. rewrite andb_true_r in H.
  destruct (bool_decide (ia.1.1.1 = 0)) eqn:H3; simpl in H.
  - apply bool_decide_eq_true in H3.
    destruct (cell_key c ia.1) as [k|]; [|done]. simpl in H. simplify_eq.
    split_and?; try done. intros ->. destruct H2 as [H2 _]. by specialize (H2 H3).
  - destruct (ac_insured_losses c); [|done].
    destruct (cell_key c ia.1) as [k|]; [|done]. simpl in H. by simplify_eq.
Qed.

Lemma post_execute_lookup c result c' l r lt rlz :
  EventBasedRiskCalculator.post_execute humansize c result = Ok c' →
  NoDup (table_keys (ac_loss_types c) (ac_rlzs c)) →
  ac_loss_types c !! l = Some lt → ac_rlzs c !! r = Some rlz →
  let key := table_key lt (rlz_uid rlz) in
  let saved i old :=
    match get3 result (i, l, r) with
    | Some (a :: arrays) => Some (mjoin (a :: arrays))
    | _ => old
    end in
  event_loss_table c' !! key = saved 0 (event_loss_table c !! key) ∧
  insured_loss_table c' !! key =
    if ac_insured_losses c then saved 1 (insured_loss_table c !! key)
    else insured_loss_table c !! key.
Proof.
  intros Hrun Hnd Hl Hr key saved.
  destruct (post_execute_writes _ _ _ Hrun) as (-> & -> & _ & Hb & _).
  assert (Hkey : ∀ p, cell_key c p = Some key → p.1.2 = l ∧ p.2 = r).
  { intros [[i' l'] r']. unfold cell_key. simpl.
    destruct (ac_loss_types c !! l') as [lt'|] eqn:Hl'; [|done]. simpl.
    destruct (ac_rlzs c !! r') as [rlz'|] eqn:Hr'; [|done]. simpl.
    intros [= Hk]. by eapply table_keys_inj. }
  assert (Hck : ∀ i, cell_key c (i, l, r) = Some key).
  { intros i. unfold cell_key. simpl. rewrite Hl. simpl. by rewrite Hr. }
  assert (Hwr : ∀ ins i0, (i0 = 0 ↔ ins = false) →
    (ins = true → i0 = 1) →
    foldl (λ m ia, put_write m (cell_write c ins ia))
      (if ins then insured_loss_table c else event_loss_table c)
      (ndenumerate result) !! key =
    if ins && negb (ac_insured_losses c)
    then insured_loss_table c !! key
    else saved i0 ((if ins then insured_loss_table c else event_loss_table c) !! key)).
  { intros ins i0 Hi0 Hi1.
    destruct (ins && negb (ac_insured_losses c)) eqn:Hoff.
    { apply andb_true_iff in Hoff as [-> Hoff%negb_true_iff].
      apply foldl_put_never. intros ia v _ Hw%cell_write_Some.
      destruct Hw as (_ & _ & _ & _ & Hw). rewrite Hw in Hoff; done. }
    assert (Hwriter : ∀ ia v, ia ∈ ndenumerate result →
              cell_write c ins ia = Some (key, v) →
              get3 result (i0, l, r) = Some ia.2 ∧ ia.2 ≠ [] ∧ v = mjoin ia.2).
    { intros [[[i' l'] r'] arrays'] v Hin%elem_of_ndenumerate Hw%cell_write_Some.
      simpl in Hw. destruct Hw as (Hne & -> & Hk & Hi & Hins).
      apply Hkey in Hk as [Hk1 Hk2]. simpl in Hk1, Hk2, Hi, Hne. subst l' r'.
      assert (i' = i0) as ->; [|done].
      destruct ins.
      - rewrite Hi1 by done.
        destruct (Hb i' l r arrays' Hin) as (Hlt & _).
        { unfold saved_cell. simpl. rewrite bool_decide_true by done.
          rewrite Hins by done. by rewrite orb_true_r. }
        assert (i' ≠ 0)
          by (intros ->; by destruct Hi as [Hi _]; specialize (Hi eq_refl)).
        unfold NUM_OUTPUTS in Hlt. lia.
      - destruct Hi as [_ ->]; [|done]. symmetry. by apply Hi0. }
    subst saved. cbv beta.
    destruct (get3 result (i0, l, r)) as [[|a arrays]|] eqn:Hget.
    - apply foldl_put_never. intros ia v Hin Hw.
      destruct (Hwriter _ _ Hin Hw) as (He & Hne & _). congruence.
    - apply (foldl_put_once _ _ _ _ _ ((i0, l, r), a :: arrays)).
      + by apply elem_of_ndenumerate.
      + unfold cell_write, saved_cell. cbn [fst snd].
        rewrite (bool_decide_true (_ ≠ _)) by done.
        rewrite (bool_decide_true (_ ↔ _)) by done. rewrite Hck.
        destruct ins; simpl in *.
        * destruct (ac_insured_losses c); [|done]. by rewrite orb_true_r.
        * destruct Hi0 as [_ ->]; done.
      + intros ia v Hin Hw. destruct (Hwriter _ _ Hin Hw) as (? & _ & ->).
        congruence.
    - apply foldl_put_never. intros ia v Hin Hw.
      by destruct (Hwriter _ _ Hin Hw) as (? & _). }
  split.
  - apply (Hwr false 0); [done|done].
  - rewrite (Hwr true 1); [|by split|done]. simpl.
    by destruct (ac_insured_losses c).
Qed.
End post_execute_more.

Section create_tables_thms.
Context (name_exists : exn) (humansize : nat → string).

Lemma create_dataset_Ok group name group' :
  EventBasedRiskCalculator.create_dataset name_exists group name = Ok group' ↔
  group !! name = None ∧ group' = <[name := []]> group.
Proof.
  unfold EventBasedRiskCalculator.create_dataset. destruct (group !! name).
  - split; [done|by intros []].
  - split; [intros [= <-]; done|by intros [_ ->]].
Qed.

Lemma create_loop_Ok ins keys : ∀ t t',
  foldM ((create_step name_exists) ins) t keys = Ok t' →
  NoDup keys ∧ Forall (λ k, t.1 !! k = None) keys ∧
  (ins = true → Forall (λ k, t.2 !! k = None) keys) ∧
  (∀ k, t'.1 !! k = if decide (k ∈ keys) then Some [] else t.1 !! k) ∧
  (∀ k, t'.2 !! k = if decide (k ∈ keys ∧ ins = true) then Some [] else t.2 !! k).
Proof.
  induction keys as [|key keys IH]; intros t t' H.
  { simpl in H. simplify_eq. split; [constructor|]. split; [constructor|].
    split; [constructor|]. split; intros k.
    - rewrite decide_False; [done|]. apply not_elem_of_nil.
    - rewrite decide_False; [done|]. intros [[]%not_elem_of_nil _]. }
  simpl in H. destruct ((create_step name_exists) ins t key) as [t1|] eqn:H1; [|done]. simpl in H.
  apply IH in H as (Hnd & Hf1 & Hf2 & Hg1 & Hg2).
  unfold create_step in H1.
  destruct (EventBasedRiskCalculator.create_dataset name_exists t.1 key) as [e1|] eqn:He; [|done].
  apply create_dataset_Ok in He as [He ->]. simpl in H1.
  assert (key ∉ keys) as Hfresh.
  { intros Hin. rewrite Forall_forall in Hf1. specialize (Hf1 _ Hin).
    destruct ins; simpl in H1.
    - destruct (EventBasedRiskCalculator.create_dataset name_exists t.2 key); [|done]. simpl in H1.
      simplify_eq. simpl in Hf1. by rewrite lookup_insert_eq in Hf1.
    - simplify_eq. simpl in Hf1. by rewrite lookup_insert_eq in Hf1. }
  assert (t1.1 = <[key := []]> t.1 ∧
          (if ins then t.2 !! key = None ∧ t1.2 = <[key := []]> t.2
           else t1.2 = t.2)) as [Ht1 Ht2].
  { destruct ins; simpl in H1.
    - destruct (EventBasedRiskCalculator.create_dataset name_exists t.2 key) as [e2|] eqn:He2; [|done].
      apply create_dataset_Ok in He2 as [He2 ->]. simpl in H1. by simplify_eq.
    - by simplify_eq. }
  split; [by constructor|]. split; [|split; [|split]].
  - constructor; [done|]. eapply Forall_impl; [exact Hf1|]. intros k Hk.
    simpl in Hk. rewrite Ht1 in Hk.
    destruct (decide (k = key)) as [->|]; [by rewrite lookup_insert_eq in Hk|].
    by rewrite lookup_insert_ne in Hk.
  - intros ->. destruct Ht2 as [Hk2 Ht2]. constructor; [done|].
    eapply Forall_impl; [by apply Hf2|]. intros k Hk. simpl in Hk.
    rewrite Ht2 in Hk.
    destruct (decide (k = key)) as [->|]; [by rewrite lookup_insert_eq in Hk|].
    by rewrite lookup_insert_ne in Hk.
  - intros k. rewrite Hg1, Ht1.
    destruct (decide (k = key)) as [->|Hne].
    + rewrite decide_False by done. rewrite lookup_insert_eq.
      rewrite decide_True; [done|by left].
    + rewrite lookup_insert_ne by done.
      destruct (decide (k ∈ keys)) as [Hin|Hin].
      * rewrite decide_True; [done|by right].
      * rewrite decide_False; [done|]. by intros [?|?]%elem_of_cons.
  - intros k. rewrite Hg2. destruct ins.
    + destruct Ht2 as [_ ->].
      destruct (decide (k = key)) as [->|Hne].
      * rewrite decide_False by (by intros []). rewrite lookup_insert_eq.
        rewrite decide_True; [done|]. split; [by left|done].
      * rewrite lookup_insert_ne by done.
        destruct (decide (k ∈ keys ∧ true = true)) as [[Hin _]|Hin].
        -- rewrite decide_True; [done|]. split; [by right|done].
        -- rewrite decide_False; [done|].
           intros [[?|?]%elem_of_cons _]; [done|]. by apply Hin.
    + rewrite Ht2. rewrite !decide_False; [done|by intros []..].
Qed.

Lemma create_loop_total ins keys : ∀ t,
  NoDup keys → Forall (λ k, t.1 !! k = None) keys →
  (ins = true → Forall (λ k, t.2 !! k = None) keys) →
  ∃ t', foldM ((create_step name_exists) ins) t keys = Ok t'.
Proof.
  induction keys as [|key keys IH]; intros t Hnd H1 H2; [by eexists|].
  apply NoDup_cons in Hnd as [Hfresh Hnd].
  inversion_clear H1 as [|?? Hk1 H1'].
  assert (∃ t1, (create_step name_exists) ins t key = Ok t1 ∧
            t1.1 = <[key := []]> t.1 ∧
            (t1.2 = <[key := []]> t.2 ∨ t1.2 = t.2 ∧ ins = false))
    as (t1 & Ht1 & He & Hi).
  { unfold create_step, EventBasedRiskCalculator.create_dataset. rewrite Hk1. simpl. destruct ins.
    - specialize (H2 eq_refl). inversion_clear H2 as [|?? Hk2 _].
      rewrite Hk2. simpl. eexists. split; [done|]. split; [done|]. by left.
    - eexists. split; [done|]. split; [done|]. by right. }
  simpl. rewrite Ht1. simpl. apply IH; [done| |].
  - rewrite He. apply Forall_forall. intros k Hk.
    rewrite lookup_insert_ne by (by intros ->).
    rewrite Forall_forall in H1'. by apply H1'.
  - intros Hins. specialize (H2 Hins). inversion_clear H2 as [|?? _ H2'].
    destruct Hi as [->|[_ ?]]; [|congruence].
    apply Forall_forall. intros k Hk.
    rewrite lookup_insert_ne by (by intros ->).
    rewrite Forall_forall in H2'. by apply H2'.
Qed.

Lemma create_tables_Ok c c' :
  EventBasedRiskCalculator.create_tables name_exists c = Ok c' →
  ∃ t, foldM ((create_step name_exists) (ac_insured_losses c))
         (event_loss_table c, insured_loss_table c)
         (table_keys (ac_loss_types c) (ac_rlzs c)) = Ok t ∧
    c' = {| ac_loss_types := ac_loss_types c; ac_rlzs := ac_rlzs c;
            ac_insured_losses := ac_insured_losses c;
            event_loss_table := t.1; insured_loss_table := t.2;
            ac_log := ac_log c |}.
Proof.
  unfold EventBasedRiskCalculator.create_tables. fold ((create_step name_exists) (ac_insured_losses c)). intros H.
  match type of H with (?m ≫= _) = _ => destruct m as [t|] eqn:Ht; [|done] end.
  simpl in H. simplify_eq. by exists t.
Qed.
End create_tables_thms.

(** X18. The tables that [pre_execute] creates: the creation works if and
    only if the names [loss_type/uid] are pairwise distinct and new in the
    group of the event loss tables (and, with insured losses, in the group of
    the insured loss tables); then each name has an empty table, in the
    second group only with insured losses, and the other datasets are left
    alone; a failure is the exception of [create_dataset]. *)
Theorem create_tables_spec (name_exists : exn) c :
  let keys := table_keys (ac_loss_types c) (ac_rlzs c) in
  ((∃ c', EventBasedRiskCalculator.create_tables name_exists c = Ok c') ↔
   NoDup keys ∧ Forall (λ k, event_loss_table c !! k = None) keys ∧
   (ac_insured_losses c = true →
    Forall (λ k, insured_loss_table c !! k = None) keys)) ∧
  (∀ c', EventBasedRiskCalculator.create_tables name_exists c = Ok c' →
     (∀ k, event_loss_table c' !! k =
        if decide (k ∈ keys) then Some [] else event_loss_table c !! k) ∧
     (∀ k, insured_loss_table c' !! k =
        if decide (k ∈ keys ∧ ac_insured_losses c = true) then Some []
        else insured_loss_table c !! k)) ∧
  (∀ e, EventBasedRiskCalculator.create_tables name_exists c = Raise e → e = name_exists).
Proof.
  intros keys. split; [split|split].
  - intros [c' (t & Ht & _)%create_tables_Ok].
    by apply create_loop_Ok in Ht as (? & ? & ? & _).
  - intros (Hnd & H1 & H2).
    destruct (create_loop_total name_exists (ac_insured_losses c) keys
                (event_loss_table c, insured_loss_table c) Hnd H1 H2) as [t Ht].
    unfold EventBasedRiskCalculator.create_tables. fold (create_step name_exists (ac_insured_losses c)).
    fold keys. rewrite Ht. simpl. by eexists.
  - intros c' (t & Ht & ->)%create_tables_Ok. simpl.
    by apply create_loop_Ok in Ht as (_ & _ & _ & ? & ?).
  - intros e H. unfold EventBasedRiskCalculator.create_tables in H.
    match type of H with (?m ≫= _) = _ => destruct m as [t|e'] eqn:Ht; [done|] end.
    simpl in H. simplify_eq.
    apply foldM_Raise in Ht as (t & key & _ & Ht). unfold EventBasedRiskCalculator.create_dataset in Ht.
    destruct (t.1 !! key); simpl in Ht; [by simplify_eq|].
    destruct (ac_insured_losses c); [|done].
    destruct (t.2 !! key); simpl in Ht; by simplify_eq.
Qed.

Section post_execute_thms.
Context (name_exists : exn) (humansize : nat → string).

Lemma cell_key_table_keys c p key :
  cell_key c p = Some key → key ∈ table_keys (ac_loss_types c) (ac_rlzs c).
Proof.
  unfold cell_key. intros H.
  destruct (ac_loss_types c !! p.1.2) as [lt|] eqn:Hl; [|done]. simpl in H.
  destruct (ac_rlzs c !! p.2) as [rlz|] eqn:Hr; [|done]. simpl in H.
  simplify_eq. apply elem_of_table_keys. by exists p.1.2, p.2, lt, rlz.
Qed.

Lemma post_execute_frame c result c' :
  EventBasedRiskCalculator.post_execute humansize c result = Ok c' →
  (∀ k, k ∉ table_keys (ac_loss_types c) (ac_rlzs c) →
     event_loss_table c' !! k = event_loss_table c !! k ∧
     insured_loss_table c' !! k = insured_loss_table c !! k) ∧
  (ac_insured_losses c = false → insured_loss_table c' = insured_loss_table c).
Proof.
  intros (-> & -> & _)%post_execute_writes. split.
  - intros k Hk. split; apply foldl_put_never;
      intros ia v _ (_ & _ & Hkey & _)%cell_write_Some;
      by apply cell_key_table_keys in Hkey.
  - intros Hoff. apply map_eq. intros k. apply foldl_put_never.
    intros ia v _ (_ & _ & _ & _ & Hins)%cell_write_Some.
    rewrite Hoff in Hins. by specialize (Hins eq_refl).
Qed.

Lemma post_execute_total c result :
  (∀ k, k ∈ table_keys (ac_loss_types c) (ac_rlzs c) →
     is_Some (event_loss_table c !! k)) →
  (ac_insured_losses c = true →
   ∀ k, k ∈ table_keys (ac_loss_types c) (ac_rlzs c) →
     is_Some (insured_loss_table c !! k)) →
  fits (cube NUM_OUTPUTS (length (ac_loss_types c)) (length (ac_rlzs c)) []) result →
  ∃ c', EventBasedRiskCalculator.post_execute humansize c result = Ok c'.
Proof.
  intros He Hi Hfits.
  set (keys := table_keys (ac_loss_types c) (ac_rlzs c)) in *.
  set (P := λ st : PostState,
    (∀ i l r, i < NUM_OUTPUTS → l < length (ac_loss_types c) →
       r < length (ac_rlzs c) → is_Some (get3 (ps_acc st) (i, l, r))) ∧
    (∀ k, k ∈ keys → is_Some (ps_elt st !! k)) ∧
    (ac_insured_losses c = true → ∀ k, k ∈ keys → is_Some (ps_ins st !! k))).
  destruct (foldM_total P (EventBasedRiskCalculator.save_cell c) (ndenumerate result)
    {| ps_acc := cube NUM_OUTPUTS (length (ac_loss_types c))
                   (length (ac_rlzs c)) 0;
       ps_saved := 0;
       ps_elt := event_loss_table c; ps_ins := insured_loss_table c |})
    as (st & Hst & _).
  - split; [|by split]. intros i l r ???. cbn [ps_acc]. rewrite get3_cube.
    by rewrite decide_True.
  - intros st [[[i l] r] arrays] Hin%elem_of_ndenumerate (Hacc & Helt & Hins).
    unfold EventBasedRiskCalculator.save_cell. cbn [fst snd].
    destruct arrays as [|a arrays]; [by exists st|].
    assert (is_Some (get3 result (i, l, r))) as Hc by (by eexists).
    apply Hfits in Hc. rewrite get3_cube in Hc.
    case_decide as Hb; [|by destruct Hc]. destruct Hb as (Hi0 & Hl & Hr).
    destruct (lookup_lt_is_Some_2 _ _ Hl) as [lt Hlt].
    destruct (lookup_lt_is_Some_2 _ _ Hr) as [rlz Hrlz].
    destruct (Hacc i l r Hi0 Hl Hr) as [n Hn].
    rewrite Hlt, Hrlz, Hn. cbn [or_raise mbind res_bind].
    assert (table_key lt (rlz_uid rlz) ∈ keys) as Hk.
    { apply elem_of_table_keys. by exists l, r, lt, rlz. }
    assert (∀ acc q (x : nat), (∀ i l r, i < NUM_OUTPUTS →
              l < length (ac_loss_types c) → r < length (ac_rlzs c) →
              is_Some (get3 acc (i, l, r))) →
            ∀ i l r, i < NUM_OUTPUTS → l < length (ac_loss_types c) →
              r < length (ac_rlzs c) → is_Some (get3 (set3 acc q x) (i, l, r)))
      as Hset.
    { intros acc q x Hq i' l' r' ???. rewrite get3_set3. case_decide.
      - rewrite fmap_is_Some. by apply Hq.
      - by apply Hq. }
    case_decide as Hz.
    + destruct (Helt _ Hk) as [elt Helt']. unfold EventBasedRiskCalculator.write_table. rewrite Helt'.
      cbn [or_raise mbind res_bind fst snd]. eexists. split; [done|].
      split; [|split]; cbn [ps_acc ps_elt ps_ins].
      * by apply Hset.
      * intros k Hk'. rewrite lookup_insert_is_Some'. right. by apply Helt.
      * done.
    + destruct (ac_insured_losses c) eqn:Hins'.
      * destruct (Hins eq_refl _ Hk) as [elt Helt']. unfold EventBasedRiskCalculator.write_table.
        rewrite Helt'. cbn [or_raise mbind res_bind fst snd].
        eexists. split; [done|].
        split; [|split]; cbn [ps_acc ps_elt ps_ins].
        -- by apply Hset.
        -- done.
        -- intros _ k Hk'. rewrite lookup_insert_is_Some'. right. by apply Hins.
      * exists st. by split.
  - unfold EventBasedRiskCalculator.post_execute. rewrite Hst. simpl. by eexists.
Qed.
End post_execute_thms.

(** X19. What [post_execute] leaves in the tables, for distinct names: the
    table of a loss type and a realization holds the concatenation of the
    arrays of the cell [(0, l, r)] of the result, whatever it held before,
    and keeps its content if the cell is empty or missing; the same holds for
    the insured table and the cell [(1, l, r)] when the insured losses are
    asked for; otherwise the insured tables are not touched; datasets with
    other names are never touched. *)
Theorem post_execute_tables (humansize : nat → string) c result c' l r lt rlz
    (Hrun : EventBasedRiskCalculator.post_execute humansize c result = Ok c')
    (Hnd : NoDup (table_keys (ac_loss_types c) (ac_rlzs c)))
    (Hl : ac_loss_types c !! l = Some lt) (Hr : ac_rlzs c !! r = Some rlz) :
  let key := table_key lt (rlz_uid rlz) in
  let saved i old :=
    match get3 result (i, l, r) with
    | Some (a :: arrays) => Some (mjoin (a :: arrays))
    | _ => old
    end in
  event_loss_table c' !! key = saved 0 (event_loss_table c !! key) ∧
  insured_loss_table c' !! key =
    (if ac_insured_losses c then saved 1 (insured_loss_table c !! key)
     else insured_loss_table c !! key) ∧
  (∀ k, k ∉ table_keys (ac_loss_types c) (ac_rlzs c) →
     event_loss_table c' !! k = event_loss_table c !! k ∧
     insured_loss_table c' !! k = insured_loss_table c !! k) ∧
  (ac_insured_losses c = false → insured_loss_table c' = insured_loss_table c).
Proof.
  intros key saved.
  destruct (post_execute_lookup humansize c result c' l r lt rlz Hrun Hnd Hl Hr)
    as [H1 H2].
  destruct (post_execute_frame humansize c result c' Hrun) as [H3 H4].
  done.
Qed.

Lemma post_execute_tables_witness :
  event_loss_table ex_aggcalc2 !! "structural/b1" =
  Some [{| rup_id := 0; rloss := F32.of_Z 3 |}].
Proof.
  destruct (post_execute_tables ex_humansize ex_aggcalc1 ex_ebr ex_aggcalc2
              0 0 "structural" ex_rlz) as (H & _).
  - vm_compute. reflexivity.
  - apply NoDup_ListNoDup; repeat constructor; simpl; intuition discriminate.
  - reflexivity.
  - reflexivity.
  - exact H.
Defined.

(** X20. The message of [post_execute]: there are 8 bytes per record, so
    the test [saved_mb > 1] holds as soon as one record is saved; the message
    is logged, with the number of bytes of the cells that are saved, if and
    only if one of these cells has a record. *)
Theorem post_execute_log (humansize : nat → string) c result c'
    (Hrun : EventBasedRiskCalculator.post_execute humansize c result = Ok c') :
  let n := saved_bytes c (ndenumerate result) in
  ac_log c' = ac_log c ++
    (if decide (n = 0) then []
     else [(INFO, "Saved " +:+ humansize n +:+ " of data")]) ∧
  (n = 0 ↔ ∀ p arrays, get3 result p = Some arrays →
             saved_cell c (p, arrays) = true → mjoin arrays = []).
Proof.
  intros n. destruct (post_execute_writes humansize c result c' Hrun)
    as (_ & _ & Hlog & _).
  split; [done|]. subst n. unfold saved_bytes.
  assert (∀ l : list (Idx3 * list (list loss_rec)),
    sum_list ((λ ia, if saved_cell c ia then nbytes (mjoin ia.2) else 0) <$> l) = 0 ↔
    ∀ ia, ia ∈ l → saved_cell c ia = true → mjoin ia.2 = []) as Hsum.
  { induction l as [|ia l IH]; [split; [by intros _ ? ?%elem_of_nil|done]|].
    rewrite fmap_cons. simpl. split.
    - intros H ib [->|Hib]%elem_of_cons Hs.
      + rewrite Hs in H. unfold nbytes in H. apply nil_length_inv. lia.
      + apply IH; [lia|done..].
    - intros H. rewrite (proj2 IH) by (intros ???; apply H; [by right|done]).
      destruct (saved_cell c ia) eqn:Hs; [|done].
      rewrite (H ia); [done|by left|done]. }
  rewrite Hsum. split.
  - intros H p arrays Hp. apply (H (p, arrays)). by apply elem_of_ndenumerate.
  - intros H [p arrays] Hin%elem_of_ndenumerate. by apply H.
Qed.

Lemma post_execute_log_witness :
  ac_log ex_aggcalc2 = [(INFO, "Saved some bytes of data")].
Proof.
  destruct (post_execute_log ex_humansize ex_aggcalc1 ex_ebr ex_aggcalc2) as [H _].
  - vm_compute. reflexivity.
  - exact H.
Defined.

(** X21. The tables of [pre_execute] are all that [post_execute] needs:
    once they are created, a result that fits in the accumulator is saved
    without an error, and the table of each loss type and realization holds
    the concatenation of the arrays of its cell (nothing for a cell that is
    empty or missing). *)
Theorem tables_ready (name_exists : exn) (humansize : nat → string) c c1 result
    (Hcreate : EventBasedRiskCalculator.create_tables name_exists c = Ok c1)
    (Hfits : fits (cube NUM_OUTPUTS (length (ac_loss_types c))
                     (length (ac_rlzs c)) []) result) :
  ∃ c2, EventBasedRiskCalculator.post_execute humansize c1 result = Ok c2 ∧
    ∀ l r lt rlz,
      ac_loss_types c !! l = Some lt → ac_rlzs c !! r = Some rlz →
      event_loss_table c2 !! table_key lt (rlz_uid rlz) =
        Some (mjoin (default [] (get3 result (0, l, r)))) ∧
      (ac_insured_losses c = true →
       insured_loss_table c2 !! table_key lt (rlz_uid rlz) =
         Some (mjoin (default [] (get3 result (1, l, r))))).
Proof.
  pose proof Hcreate as (t & Ht & Hc1)%create_tables_Ok.
  apply create_loop_Ok in Ht as (Hnd & _ & _ & He & Hi).
  assert (ac_loss_types c1 = ac_loss_types c ∧ ac_rlzs c1 = ac_rlzs c ∧
          ac_insured_losses c1 = ac_insured_losses c ∧
          event_loss_table c1 = t.1 ∧ insured_loss_table c1 = t.2)
    as (Hlts & Hrlzs & Hins & Het & Hit) by (by rewrite Hc1).
  destruct (post_execute_total humansize c1 result) as [c2 Hc2].
  - rewrite Hlts, Hrlzs, Het. intros k Hk. rewrite He. by rewrite decide_True.
  - rewrite Hlts, Hrlzs, Hit, Hins. intros Hon k Hk. rewrite Hi.
    by rewrite decide_True.
  - by rewrite Hlts, Hrlzs.
  - exists c2. split; [done|]. intros l r lt rlz Hl Hr.
    destruct (post_execute_lookup humansize c1 result c2 l r lt rlz Hc2)
      as [H1 H2]; [by rewrite Hlts, Hrlzs|by rewrite Hlts|by rewrite Hrlzs|].
    assert (table_key lt (rlz_uid rlz) ∈ table_keys (ac_loss_types c) (ac_rlzs c))
      as Hk by (apply elem_of_table_keys; by exists l, r, lt, rlz).
    split.
    + rewrite H1, Het, He, decide_True by done.
      by destruct (get3 result (0, l, r)) as [[|??]|].
    + intros Hon. rewrite H2, Hins, Hon, Hit, Hi, decide_True by done.
      by destruct (get3 result (1, l, r)) as [[|??]|].
Qed.

Lemma tables_ready_witness :
  ∃ c2, EventBasedRiskCalculator.post_execute ex_humansize ex_aggcalc1 ex_ebr = Ok c2 ∧
    event_loss_table c2 !! table_key "structural" "b1" =
    Some (mjoin (default [] (get3 ex_ebr (0, 0, 0)))).
Proof.
  destruct (tables_ready ex_name_exists ex_humansize ex_aggcalc ex_aggcalc1 ex_ebr)
    as (c2 & H1 & H2).
  - vm_compute. reflexivity.
  - intros [[o l] r] [x Hx]. destruct o as [|[|o]], l as [|l], r as [|r];
      vm_compute in Hx; try discriminate; vm_compute; eauto.
  - exists c2. split; [exact H1|].
    apply (H2 0 0 "structural" ex_rlz); reflexivity.
Defined.

Lemma ebr_fits lts rlzs outputs c :
  ebr lts rlzs outputs = Ok c →
  fits (cube NUM_OUTPUTS (length lts) (length rlzs) []) c.
Proof.
  intros (losses & Hl & ->)%ebr_Ok. apply fits_cube. intros o l r.
  rewrite get3_fmap, fmap_is_Some.
  intros (? & ? & ?)%(ebr_loop_shape _ _ _ _ Hl).
  pose proof (size_loss_type_index lts). lia.
Qed.

Lemma reduce_agg_cube O L R (results : list Cube) acc :
  reduce_agg (cube O L R []) results = Ok acc →
  fits (cube O L R []) acc ∧
  ∀ o l r, o < O → l < L → r < R →
    get3 acc (o, l, r) =
    Some (mjoin ((λ x : Cube, default [] (get3 x (o, l, r))) <$> results)).
Proof.
  intros [_ Hget]%reduce_agg_spec. split.
  - intros p. rewrite Hget. by rewrite fmap_is_Some.
  - intros o l r Ho Hl Hr. by rewrite Hget, get3_cube, decide_True.
Qed.

(** X22. From the tasks to the tables: with the tables of [pre_execute],
    the results of any [ebr] tasks are reduced and saved without an error;
    the event loss table of a loss type and a realization then holds the
    records of its cell task by task, in the order in which the results
    arrived, the insured table does so when insured losses are asked for,
    and every record has a positive loss. *)
Theorem event_loss_tables (name_exists : exn) (humansize : nat → string)
    c c1 results l r lt rlz
    (Hcreate : EventBasedRiskCalculator.create_tables name_exists c = Ok c1)
    (Hres : Forall (λ x, ∃ outputs,
               ebr (ac_loss_types c) (ac_rlzs c) outputs = Ok x) results)
    (Hl : ac_loss_types c !! l = Some lt) (Hr : ac_rlzs c !! r = Some rlz) :
  let table i :=
    mjoin (mjoin ((λ x : Cube, default [] (get3 x (i, l, r))) <$> results)) in
  ∃ acc c2,
    reduce_agg (cube NUM_OUTPUTS (length (ac_loss_types c))
                  (length (ac_rlzs c)) []) results = Ok acc ∧
    EventBasedRiskCalculator.post_execute humansize c1 acc = Ok c2 ∧
    event_loss_table c2 !! table_key lt (rlz_uid rlz) = Some (table 0) ∧
    (ac_insured_losses c = true →
     insured_loss_table c2 !! table_key lt (rlz_uid rlz) = Some (table 1)) ∧
    Forall (λ rec, F32.gt0 (rloss rec) = true) (table 0 ++ table 1).
Proof.
  intros table.
  destruct (reduce_agg_total
              (cube NUM_OUTPUTS (length (ac_loss_types c)) (length (ac_rlzs c)) [])
              results) as [acc Hacc].
  { eapply Forall_impl; [exact Hres|]. intros x [outputs Hx]. by eapply ebr_fits. }
  pose proof (reduce_agg_cube _ _ _ _ _ Hacc) as [Hfits Hget].
  pose proof Hcreate as (t & Ht & Hc1)%create_tables_Ok.
  apply create_loop_Ok in Ht as (Hnd & _ & _ & He & Hi).
  assert (ac_loss_types c1 = ac_loss_types c ∧ ac_rlzs c1 = ac_rlzs c ∧
          ac_insured_losses c1 = ac_insured_losses c ∧
          event_loss_table c1 = t.1 ∧ insured_loss_table c1 = t.2)
    as (Hlts & Hrlzs & Hins & Het & Hit) by (by rewrite Hc1).
  destruct (post_execute_total humansize c1 acc) as [c2 Hc2].
  { rewrite Hlts, Hrlzs, Het. intros k Hk. rewrite He. by rewrite decide_True. }
  { rewrite Hlts, Hrlzs, Hit, Hins. intros Hon k Hk. rewrite Hi.
    by rewrite decide_True. }
  { by rewrite Hlts, Hrlzs. }
  exists acc, c2. split; [done|]. split; [done|].
  destruct (post_execute_lookup humansize c1 acc c2 l r lt rlz Hc2)
    as [H1 H2]; [by rewrite Hlts, Hrlzs|by rewrite Hlts|by rewrite Hrlzs|].
  assert (table_key lt (rlz_uid rlz) ∈ table_keys (ac_loss_types c) (ac_rlzs c))
    as Hk by (apply elem_of_table_keys; by exists l, r, lt, rlz).
  apply lookup_lt_Some in Hl as Hl'. apply lookup_lt_Some in Hr as Hr'.
  split; [|split].
  - rewrite H1, Het, He, decide_True by done.
    rewrite Hget by (unfold NUM_OUTPUTS; lia || done). subst table. cbv beta.
    by destruct (mjoin _).
  - intros Hon. rewrite H2, Hins, Hon, Hit, Hi, decide_True by done.
    rewrite Hget by (unfold NUM_OUTPUTS; lia || done). subst table. cbv beta.
    by destruct (mjoin _).
  - apply Forall_app. split; apply Forall_forall; intros rec Hrec;
      subst table; cbv beta in Hrec;
      apply list_elem_of_join in Hrec as (arr & Hrec & Harr);
      apply list_elem_of_join in Harr as (cell & Harr & Hcell);
      apply list_elem_of_fmap in Hcell as (x & -> & Hx);
      rewrite Forall_forall in Hres; destruct (Hres _ Hx) as [outputs Hebr];
      apply ebr_positive in Hebr;
      (match type of Harr with
       | _ ∈ default [] ?g => destruct g as [cellx|] eqn:Hcx;
           [|by apply elem_of_nil in Harr]
       end);
      pose proof (cube_Forall_get _ _ _ _ Hebr Hcx) as Hf;
      rewrite Forall_forall in Hf; specialize (Hf _ Harr);
      rewrite Forall_forall in Hf; by apply Hf.
Qed.

Lemma event_loss_tables_witness :
  ∃ acc c2,
    reduce_agg (cube NUM_OUTPUTS 1 1 []) [ex_ebr; ex_ebr] = Ok acc ∧
    EventBasedRiskCalculator.post_execute ex_humansize ex_aggcalc1 acc = Ok c2 ∧
    event_loss_table c2 !! table_key "structural" "b1" =
    Some (mjoin (mjoin ((λ x : Cube, default [] (get3 x (0, 0, 0)))
                          <$> [ex_ebr; ex_ebr]))).
Proof.
  assert (EventBasedRiskCalculator.create_tables ex_name_exists ex_aggcalc = Ok ex_aggcalc1) as H1
    by (vm_compute; reflexivity).
  assert (Forall (λ x, ∃ outputs,
            ebr (ac_loss_types ex_aggcalc) (ac_rlzs ex_aggcalc) outputs = Ok x)
            [ex_ebr; ex_ebr]) as H2
    by (repeat constructor; exists [ex_out_by_rlz]; vm_compute; reflexivity).
  destruct (event_loss_tables ex_name_exists ex_humansize ex_aggcalc ex_aggcalc1
              [ex_ebr; ex_ebr] 0 0 "structural" ex_rlz H1 H2 eq_refl eq_refl)
    as (acc & c2 & H3 & H4 & H5 & _).
  exists acc, c2. split; [exact H3|]. split; [exact H4|exact H5].
Defined.
